(** * slite-to-outline: the link-resolution and migration engine of [src/migrate.js]

    A shallow embedding of the JavaScript functions [scanMarkdownLinks],
    [resolveAttachmentPath], [parseDocumentContent], [updateMarkdownLinks],
    [isMediaFolder], [createDocumentStructure] and the attachment phase of
    [migrate], together with the parts of the JavaScript runtime they call
    (string methods, regular expressions, [node:path], [Map]). *)

From Stdlib Require Import Ascii String.
From Stdlib Require Import List NArith Arith Lia Bool.
Import ListNotations.

Set Implicit Arguments.

(** ** JavaScript strings

    A JavaScript string is a sequence of UTF-16 code units; a code unit is
    modelled as an [N]. *)

Definition jsstring := list N.

(** String and character literals of the source are written [js "..."] and
    [cu "c"]. *)
Definition cu (a : ascii) : N := N_of_ascii a.
Definition js (s : string) : jsstring := map N_of_ascii (list_ascii_of_string s).
Arguments cu a%_char : simpl never.
Arguments js s%_string : simpl never.

Definition LF : N := 10.

Fixpoint str_eqb (a b : jsstring) : bool :=
  match a, b with
  | [], [] => true
  | x :: a', y :: b' => N.eqb x y && str_eqb a' b'
  | _, _ => false
  end.

(** [s.startsWith(p)] *)
Fixpoint startsWith (s p : jsstring) {struct p} : bool :=
  match p, s with
  | [], _ => true
  | c :: p', d :: s' => N.eqb c d && startsWith s' p'
  | _ :: _, [] => false
  end.

(** [s.endsWith(p)] *)
Definition endsWith (s p : jsstring) : bool := startsWith (rev s) (rev p).

(** [s.includes(p)] *)
Fixpoint includes (s p : jsstring) : bool :=
  startsWith s p ||
  match s with
  | [] => false
  | _ :: s' => includes s' p
  end.

(** [s.split(sep)] for a one-character separator: never the empty list. *)
Fixpoint split (sep : N) (s : jsstring) : list jsstring :=
  match s with
  | [] => [[]]
  | c :: s' =>
      if N.eqb c sep then [] :: split sep s'
      else match split sep s' with
           | [] => [[c]]
           | l :: ls => (c :: l) :: ls
           end
  end.

(** [lines.join(sep)] *)
Fixpoint join (sep : jsstring) (ls : list jsstring) : jsstring :=
  match ls with
  | [] => []
  | [l] => l
  | l :: ls' => l ++ sep ++ join sep ls'
  end.

(** [lines.slice(n)] of an array *)
Definition slice (n : nat) (ls : list jsstring) : list jsstring := skipn n ls.

(** ECMAScript LineTerminator and WhiteSpace code points (those inside the
    Basic Multilingual Plane are all of them). *)
Definition isLineTerminator (c : N) : bool :=
  N.eqb c 10 || N.eqb c 13 || N.eqb c 8232 || N.eqb c 8233.

Definition isWhiteSpace (c : N) : bool :=
  N.eqb c 9 || N.eqb c 11 || N.eqb c 12 || N.eqb c 32 || N.eqb c 160
  || N.eqb c 5760 || (N.leb 8192 c && N.leb c 8202)
  || N.eqb c 8239 || N.eqb c 8287 || N.eqb c 12288 || N.eqb c 65279.

(** What [\s] and [trim] treat as blank. *)
Definition isSpace (c : N) : bool := isWhiteSpace c || isLineTerminator c.

Fixpoint trimStart (s : jsstring) : jsstring :=
  match s with
  | c :: s' => if isSpace c then trimStart s' else s
  | [] => []
  end.

Definition trimEnd (s : jsstring) : jsstring := rev (trimStart (rev s)).

(** [s.trim()] *)
Definition trim (s : jsstring) : jsstring := trimEnd (trimStart s).

(** [s.toLowerCase()].  The mapping is the Unicode one on U+0000..U+00FF
    (the letters A-Z, and U+00C0..U+00DE without the multiplication sign);
    code units above U+00FF are left as they are.  Above U+00FF the Unicode
    mapping gives no dot and no letter of the extensions that
    [isMediaFolder] knows, but for the dotted capital I, whose [i] comes
    with a combining dot after it; so the answer of [isMediaFolder] is the
    same for both mappings. *)
Definition lowerUnit (c : N) : N :=
  if (N.leb 65 c && N.leb c 90)
     || (N.leb 192 c && N.leb c 222 && negb (N.eqb c 215))
  then (c + 32)%N else c.

Definition toLowerCase (s : jsstring) : jsstring := map lowerUnit s.

(** ** Regular expressions

    The patterns of [migrate.js] use literal characters, character classes,
    [.], [\s], the anchors [^] and [$], alternation, capture groups and the
    quantifiers [*], [+], [+?] and [?], each quantifier on a one-character
    matcher.  The matcher is the backtracking one of ECMAScript, written in
    continuation-passing style: a continuation that fails makes the
    construct before it try its next choice. *)

Inductive atom : Type :=
| AChar (c : N)              (* a literal character *)
| ASet (cs : list N)         (* [abc] *)
| ANotSet (cs : list N)      (* [^abc] *)
| ADot                       (* .  (no s flag) *)
| ASpace.                    (* \s *)

Definition mem (c : N) (cs : list N) : bool := existsb (N.eqb c) cs.

Definition atom_match (a : atom) (c : N) : bool :=
  match a with
  | AChar d => N.eqb c d
  | ASet cs => mem c cs
  | ANotSet cs => negb (mem c cs)
  | ADot => negb (isLineTerminator c)
  | ASpace => isSpace c
  end.
Arguments atom_match : simpl never.

Inductive regex : Type :=
| REmpty
| RAtom (a : atom)
| RStar (a : atom)           (* a*  greedy *)
| RPlus (a : atom)           (* a+  greedy *)
| RPlusLazy (a : atom)       (* a+? *)
| ROpt (a : atom)            (* a?  greedy *)
| RBol                       (* ^ *)
| REol                       (* $ *)
| RSeq (r1 r2 : regex)
| RAlt (r1 r2 : regex)       (* r1|r2 *)
| RGroup (i : nat) (r : regex). (* the i-th capture group *)

Definition rseq (rs : list regex) : regex := fold_right RSeq REmpty rs.

(** The state of a match in progress: the code unit before the current
    position (none at the start of the input), the input that remains, and
    the captures made so far (most recent first). *)
Record mstate : Type := MState {
  prev : option N;
  rest : jsstring;
  caps : list (nat * jsstring)
}.

Definition cont := mstate -> option mstate.

Definition orElse (a : option mstate) (b : unit -> option mstate) : option mstate :=
  match a with
  | Some r => Some r
  | None => b tt
  end.

(** [a*]: as many as possible first, then one fewer, and so on. *)
Fixpoint starGreedy (p : N -> bool) (k : cont) (pv : option N) (cs : list (nat * jsstring))
    (s : jsstring) : option mstate :=
  match s with
  | c :: s' =>
      if p c then orElse (starGreedy p k (Some c) cs s') (fun _ => k (MState pv s cs))
      else k (MState pv s cs)
  | [] => k (MState pv s cs)
  end.

(** [a*?]: as few as possible first. *)
Fixpoint starLazy (p : N -> bool) (k : cont) (pv : option N) (cs : list (nat * jsstring))
    (s : jsstring) : option mstate :=
  orElse (k (MState pv s cs))
    (fun _ => match s with
              | c :: s' => if p c then starLazy p k (Some c) cs s' else None
              | [] => None
              end).

Definition one (p : N -> bool) (x : mstate) (k : cont) : option mstate :=
  match rest x with
  | c :: s' => if p c then k (MState (Some c) s' (caps x)) else None
  | [] => None
  end.

(** The text consumed between two states of one match. *)
Definition consumed (x y : mstate) : jsstring :=
  firstn (length (rest x) - length (rest y)) (rest x).

Definition atStart (multiline : bool) (x : mstate) : bool :=
  match prev x with
  | None => true
  | Some c => multiline && isLineTerminator c
  end.

Definition atEnd (multiline : bool) (x : mstate) : bool :=
  match rest x with
  | [] => true
  | c :: _ => multiline && isLineTerminator c
  end.

Fixpoint matcher (multiline : bool) (r : regex) (x : mstate) (k : cont) : option mstate :=
  match r with
  | REmpty => k x
  | RAtom a => one (atom_match a) x k
  | RStar a => starGreedy (atom_match a) k (prev x) (caps x) (rest x)
  | RPlus a =>
      one (atom_match a) x (fun y => starGreedy (atom_match a) k (prev y) (caps y) (rest y))
  | RPlusLazy a =>
      one (atom_match a) x (fun y => starLazy (atom_match a) k (prev y) (caps y) (rest y))
  | ROpt a => orElse (one (atom_match a) x k) (fun _ => k x)
  | RBol => if atStart multiline x then k x else None
  | REol => if atEnd multiline x then k x else None
  | RSeq r1 r2 => matcher multiline r1 x (fun y => matcher multiline r2 y k)
  | RAlt r1 r2 => orElse (matcher multiline r1 x k) (fun _ => matcher multiline r2 x k)
  | RGroup i r =>
      matcher multiline r x
        (fun y => k (MState (prev y) (rest y) ((i, consumed x y) :: caps y)))
  end.

(** A compiled pattern: the expression and its [m] flag. *)
Record pattern : Type := Pattern { expr : regex; multiline_flag : bool }.

(** The result of a successful match. *)
Record jsmatch : Type := Match {
  before : jsstring;             (* input skipped before the match *)
  matched : jsstring;            (* the matched text, match[0] *)
  groups : list (nat * jsstring);
  last : option N;               (* the code unit before [after] *)
  after : jsstring               (* input after the match *)
}.

(** capture group [i] of a match, [undefined] if it took no part *)
Fixpoint assoc (i : nat) (l : list (nat * jsstring)) : option jsstring :=
  match l with
  | [] => None
  | (j, v) :: l' => if Nat.eqb i j then Some v else assoc i l'
  end.

Definition group (i : nat) (m : jsmatch) : jsstring :=
  match assoc i (groups m) with
  | Some v => v
  | None => []
  end.

(** One attempt, at the current position. *)
Definition matchHere (p : pattern) (pv : option N) (s : jsstring) : option mstate :=
  matcher (multiline_flag p) (expr p) (MState pv s []) (fun y => Some y).

(** [RegExp.prototype.exec]: the first position, from the current one on,
    at which the pattern matches. *)
Fixpoint execFrom (p : pattern) (skipped : jsstring) (pv : option N) (s : jsstring)
    : option jsmatch :=
  match matchHere p pv s with
  | Some y =>
      Some (Match (rev skipped) (consumed (MState pv s []) y) (caps y) (prev y) (rest y))
  | None =>
      match s with
      | [] => None
      | c :: s' => execFrom p (c :: skipped) (Some c) s'
      end
  end.

Definition exec (p : pattern) (s : jsstring) : option jsmatch := execFrom p [] None s.

(** [s.replace(p, repl)] for a pattern without the [g] flag and a
    replacement text without [$]: the first match only. *)
Definition replaceFirst (p : pattern) (repl : jsstring) (s : jsstring) : jsstring :=
  match exec p s with
  | Some m => before m ++ repl ++ after m
  | None => s
  end.

(** The loop of a pattern with the [g] flag: every match, left to right,
    each search starting where the last match ended (one code unit later
    after an empty match).  [fuel] bounds the number of matches; the length
    of the input plus one is enough.  The result is the list of matches and
    the text after the last one. *)
Fixpoint matchLoop (fuel : nat) (p : pattern) (pv : option N) (s : jsstring)
    : list jsmatch * jsstring :=
  match fuel with
  | O => ([], s)
  | S fuel' =>
      match execFrom p [] pv s with
      | None => ([], s)
      | Some m =>
          match matched m, after m with
          | [], [] => ([m], [])
          | [], c :: s' =>
              let (ms, tl) := matchLoop fuel' p (Some c) s' in
              match ms with
              | [] => ([m], c :: tl)
              | m' :: ms' =>
                  (m :: Match (c :: before m') (matched m') (groups m') (last m') (after m')
                     :: ms', tl)
              end
          | _ :: _, s' =>
              let (ms, tl) := matchLoop fuel' p (last m) s' in (m :: ms, tl)
          end
      end
  end.

(** [s.matchAll(p)] *)
Definition matchAll (p : pattern) (s : jsstring) : list jsmatch :=
  fst (matchLoop (S (length s)) p None s).

(** Errors thrown by the modelled code. *)
Inductive error : Type :=
| URIError                     (* decodeURIComponent on a malformed escape *)
| IOError                      (* a failed file-system call *)
| RequestError                 (* makeRequest gave up, or a fetch failed *)
| TypeError
| OutOfFuel.                   (* the recursion bound of the model, not a JavaScript error *)

Inductive result (A : Type) : Type :=
| Ok (a : A)
| Throw (e : error).
Arguments Ok {A} a.
Arguments Throw {A} e.

Definition bind {A B : Type} (r : result A) (f : A -> result B) : result B :=
  match r with
  | Ok a => f a
  | Throw e => Throw e
  end.

Notation "x <- c1 ;; c2" := (bind c1 (fun x => c2))
  (at level 61, c1 at next level, right associativity).

(** [s.replace(p, f)] for a pattern with the [g] flag and a replacement
    function, which may throw. *)
Fixpoint substitute (f : jsmatch -> result jsstring) (ms : list jsmatch) (tl : jsstring)
    : result jsstring :=
  match ms with
  | [] => Ok tl
  | m :: ms' =>
      r <- f m ;;
      t <- substitute f ms' tl ;;
      Ok (before m ++ r ++ t)
  end.

Definition replaceAll (p : pattern) (f : jsmatch -> result jsstring) (s : jsstring)
    : result jsstring :=
  let (ms, tl) := matchLoop (S (length s)) p None s in substitute f ms tl.

(** ** [decodeURIComponent]

    ECMAScript's [Decode] with an empty set of reserved characters: [%XX]
    below 0x80 is that character; a lead byte starts a UTF-8 sequence whose
    other bytes must be escapes too; the code point is appended in UTF-16.
    Anything else after a [%] throws [URIError]. *)

Definition between (lo hi c : N) : bool := N.leb lo c && N.leb c hi.

Definition hexDigit (c : N) : option N :=
  if between 48 57 c then Some (c - 48)%N
  else if between 65 70 c then Some (c - 55)%N
  else if between 97 102 c then Some (c - 87)%N
  else None.

(** The octet of an escape [%XX] at the head of [s], and what follows it. *)
Definition escapeAt (s : jsstring) : option (N * jsstring) :=
  match s with
  | p :: a :: b :: s' =>
      if N.eqb p (cu "%") then
        match hexDigit a, hexDigit b with
        | Some h, Some l => Some ((16 * h + l)%N, s')
        | _, _ => None
        end
      else None
  | _ => None
  end.

Fixpoint escapesAt (n : nat) (s : jsstring) : option (list N * jsstring) :=
  match n with
  | O => Some ([], s)
  | S n' =>
      match escapeAt s with
      | Some (b, s') =>
          match escapesAt n' s' with
          | Some (bs, s'') => Some (b :: bs, s'')
          | None => None
          end
      | None => None
      end
  end.

(** How many bytes a UTF-8 sequence with lead byte [b] has (its number of
    leading one bits); none for a continuation byte or 0xF8 and above. *)
Definition sequenceLength (b : N) : option nat :=
  if between 192 223 b then Some 2
  else if between 224 239 b then Some 3
  else if between 240 247 b then Some 4
  else None.

Definition isContinuation (b : N) : bool := between 128 191 b.

(** The code point of a well-formed UTF-8 sequence: shortest form, no
    surrogate, at most U+10FFFF. *)
Definition utf8CodePoint (b : N) (bs : list N) : option N :=
  if forallb isContinuation bs then
    match bs with
    | [b1] =>
        let v := ((b - 192) * 64 + (b1 - 128))%N in
        if N.leb 128 v then Some v else None
    | [b1; b2] =>
        let v := ((b - 224) * 4096 + (b1 - 128) * 64 + (b2 - 128))%N in
        if N.leb 2048 v && negb (between 55296 57343 v) then Some v else None
    | [b1; b2; b3] =>
        let v := ((b - 240) * 262144 + (b1 - 128) * 4096 + (b2 - 128) * 64 + (b3 - 128))%N in
        if between 65536 1114111 v then Some v else None
    | _ => None
    end
  else None.

Definition utf16Encode (v : N) : jsstring :=
  if N.ltb v 65536 then [v]
  else [(55296 + (v - 65536) / 1024)%N; (56320 + (v - 65536) mod 1024)%N].

Fixpoint decodeLoop (fuel : nat) (s : jsstring) : result jsstring :=
  match s with
  | [] => Ok []
  | c :: s' =>
      match fuel with
      | O => Throw URIError
      | S fuel' =>
          if N.eqb c (cu "%") then
            match escapeAt s with
            | None => Throw URIError
            | Some (b, s1) =>
                if N.ltb b 128 then r <- decodeLoop fuel' s1 ;; Ok (b :: r)
                else
                  match sequenceLength b with
                  | None => Throw URIError
                  | Some n =>
                      match escapesAt (n - 1) s1 with
                      | None => Throw URIError
                      | Some (bs, s2) =>
                          match utf8CodePoint b bs with
                          | None => Throw URIError
                          | Some v => r <- decodeLoop fuel' s2 ;; Ok (utf16Encode v ++ r)
                          end
                      end
                  end
            end
          else r <- decodeLoop fuel' s' ;; Ok (c :: r)
      end
  end.

Definition decodeURIComponent (s : jsstring) : result jsstring :=
  decodeLoop (length s) s.

(** ** [Map]

    A JavaScript [Map] with string keys keeps its entries in insertion
    order; [set] on a key that is present replaces the value in place. *)

Definition jsmap (V : Type) : Type := list (jsstring * V).

Fixpoint map_get {V : Type} (k : jsstring) (m : jsmap V) : option V :=
  match m with
  | [] => None
  | (k', v) :: m' => if str_eqb k k' then Some v else map_get k m'
  end.

Fixpoint map_set {V : Type} (k : jsstring) (v : V) (m : jsmap V) : jsmap V :=
  match m with
  | [] => [(k, v)]
  | (k', v') :: m' => if str_eqb k k' then (k, v) :: m' else (k', v') :: map_set k v m'
  end.

(** What [get] returns, as a condition: [undefined] and the empty string
    are falsy. *)
Definition truthy (v : option jsstring) : bool :=
  match v with
  | Some (_ :: _) => true
  | _ => false
  end.

(** [a || b] *)
Definition orJs (a b : option jsstring) : option jsstring :=
  if truthy a then a else b.

(** The text of a truthy value inside a template literal. *)
Definition text (v : option jsstring) : jsstring :=
  match v with
  | Some s => s
  | None => js "undefined"
  end.

(** The three module-level maps of [migrate.js]. *)
Record registry : Type := Registry {
  attachmentUrlMap : jsmap jsstring;  (* original path -> outline url *)
  documentUrlMap : jsmap jsstring;    (* original path -> outline url *)
  documentIdMap : jsmap jsstring      (* local path -> outline document ID *)
}.

(** ** [node:path], POSIX flavour *)

Definition SLASH : N := cu "/".

Definition isSlash (c : N) : bool := N.eqb c SLASH.

Fixpoint dropWhile (p : N -> bool) (s : jsstring) : jsstring :=
  match s with
  | c :: s' => if p c then dropWhile p s' else s
  | [] => []
  end.

Fixpoint takeWhile (p : N -> bool) (s : jsstring) : jsstring :=
  match s with
  | c :: s' => if p c then c :: takeWhile p s' else []
  | [] => []
  end.

(** [basename(path)]: the last component, trailing slashes ignored. *)
Definition basename (path : jsstring) : jsstring :=
  rev (takeWhile (fun c => negb (isSlash c)) (dropWhile isSlash (rev path))).

(** [basename(path, suffix)] for a non-empty suffix.  Node compares the
    suffix with the end of the last component, from the right: a component
    that ends with the suffix and is longer loses it; a component equal to
    the suffix is kept, yet a path equal to the suffix gives the empty
    string; and when the component runs out before the suffix does, Node
    returns the component together with the slashes after it. *)
Definition basenameWithout (path suffix : jsstring) : jsstring :=
  if Nat.ltb (length path) (length suffix) then basename path
  else if str_eqb suffix path then []
  else
    let b := basename path in
    if endsWith b suffix then
      if Nat.eqb (length b) (length suffix) then b
      else firstn (length b - length suffix) b
    else if endsWith suffix b then b ++ rev (takeWhile isSlash (rev path))
    else b.

(** [dirname(path)] *)
Definition dirname (path : jsstring) : jsstring :=
  match path with
  | [] => js "."
  | c0 :: tl =>
      let r1 := dropWhile isSlash (rev tl) in
      match dropWhile (fun c => negb (isSlash c)) r1 with
      | [] => if isSlash c0 then js "/" else js "."
      | _ :: r3 =>
          match r3 with
          | [] => if isSlash c0 then js "//" else [c0]
          | _ => c0 :: rev r3
          end
      end
  end.

(** The components of a path: what lies between slashes, empty pieces
    dropped. *)
Definition segments (path : jsstring) : list jsstring :=
  filter (fun seg => negb (str_eqb seg [])) (split SLASH path).

(** Node's [normalizeString], on components: [.] is dropped, [..] removes
    the component before it; with nothing to remove it is kept when
    [allowAboveRoot] (a relative path) and dropped otherwise.  [acc] is the
    result so far, last component first. *)
Fixpoint normalizeSegments (allowAboveRoot : bool) (acc segs : list jsstring)
    : list jsstring :=
  match segs with
  | [] => rev acc
  | seg :: segs' =>
      if str_eqb seg (js ".") then normalizeSegments allowAboveRoot acc segs'
      else if str_eqb seg (js "..") then
        match acc with
        | top :: acc' =>
            if str_eqb top (js "..") then
              normalizeSegments allowAboveRoot
                (if allowAboveRoot then seg :: acc else acc) segs'
            else normalizeSegments allowAboveRoot acc' segs'
        | [] =>
            normalizeSegments allowAboveRoot
              (if allowAboveRoot then [seg] else []) segs'
        end
      else normalizeSegments allowAboveRoot (seg :: acc) segs'
  end.

Definition isAbsolute (path : jsstring) : bool :=
  match path with
  | c :: _ => isSlash c
  | [] => false
  end.

(** [normalize(path)] *)
Definition normalize (path : jsstring) : jsstring :=
  match path with
  | [] => js "."
  | _ =>
      let trailing := endsWith path [SLASH] in
      let body := join [SLASH] (normalizeSegments (negb (isAbsolute path)) [] (segments path)) in
      match body with
      | [] => if isAbsolute path then js "/" else if trailing then js "./" else js "."
      | _ =>
          (if isAbsolute path then [SLASH] else [])
          ++ body ++ (if trailing then [SLASH] else [])
      end
  end.

(** [join(...paths)]: the non-empty arguments, joined by slashes and
    normalized. *)
Definition pathJoin (paths : list jsstring) : jsstring :=
  match filter (fun p => negb (str_eqb p [])) paths with
  | [] => js "."
  | ps => normalize (join [SLASH] ps)
  end.

(** The right-to-left loop of [resolve]: arguments are put in front of the
    result until one of them is absolute; empty ones are skipped. *)
Fixpoint resolveLoop (rpaths : list jsstring) (resolved : jsstring)
    : jsstring * list jsstring :=
  match rpaths with
  | [] => (resolved, [])
  | p :: rpaths' =>
      match p with
      | [] => resolveLoop rpaths' resolved
      | _ =>
          if isAbsolute p then (p ++ [SLASH] ++ resolved, [])
          else resolveLoop rpaths' (p ++ [SLASH] ++ resolved)
      end
  end.

(** [resolve(...paths)]; [cwd] is [process.cwd()], used when no argument
    is absolute. *)
Definition resolve (cwd : jsstring) (paths : list jsstring) : jsstring :=
  let resolved := fst (resolveLoop (rev paths ++ [cwd]) []) in
  let body :=
    join [SLASH] (normalizeSegments (negb (isAbsolute resolved)) [] (segments resolved)) in
  if isAbsolute resolved then SLASH :: body
  else match body with
       | [] => js "."
       | _ => body
       end.

Fixpoint dropCommon (a b : list jsstring) : list jsstring * list jsstring :=
  match a, b with
  | x :: a', y :: b' => if str_eqb x y then dropCommon a' b' else (a, b)
  | _, _ => (a, b)
  end.

(** [relative(from, to)]: both are resolved; the result climbs out of what
    is left of [from] after the common components and descends into what is
    left of [to].  This is Node's answer for an absolute [cwd], which
    [process.cwd()] always is. *)
Definition relative (cwd : jsstring) (from to : jsstring) : jsstring :=
  if str_eqb from to then []
  else
    let f := resolve cwd [from] in
    let t := resolve cwd [to] in
    if str_eqb f t then []
    else
      let (up, down) := dropCommon (segments f) (segments t) in
      join [SLASH] (map (fun _ => js "..") up ++ down).

(** ** The functions of [migrate.js] *)

Definition chr (a : ascii) : regex := RAtom (AChar (cu a)).
Arguments chr a%_char.

(** The pattern [/(!?\[(?:[^\]]* )\]\(([^)]+)\))/g], written here with a
    blank after the star. *)
Definition linkRegex : pattern :=
  Pattern
    (RGroup 1
       (rseq [ROpt (AChar (cu "!")); chr "["; RStar (ANotSet [cu "]"]); chr "]";
              chr "("; RGroup 2 (RPlus (ANotSet [cu ")"])); chr ")"]))
    false.

Record links : Type := Links {
  attachmentLinks : jsmap jsstring;  (* link -> source document path *)
  documentLinks : jsmap jsstring
}.

(** The body of the loop over the matches. *)
Definition scanMatch (sourcePath : jsstring) (acc : links) (m : jsmatch) : links :=
  let path := group 2 m in
  if negb (startsWith path (js "http://")) && negb (startsWith path (js "https://")) then
    if endsWith path (js ".md") then
      Links (attachmentLinks acc) (map_set path sourcePath (documentLinks acc))
    else
      Links (map_set path sourcePath (attachmentLinks acc)) (documentLinks acc)
  else acc.

Definition scanMarkdownLinks (content sourcePath : jsstring) : links :=
  fold_left (scanMatch sourcePath) (matchAll linkRegex content) (Links [] []).

(** [resolveAttachmentPath]; [cwd] is the working directory of the process,
    which [resolve] falls back on. *)
Definition resolveAttachmentPath (cwd : jsstring) (attachmentPath sourceDocPath : jsstring)
    : result jsstring :=
  let sourceDir := dirname sourceDocPath in
  decodedPath <- decodeURIComponent attachmentPath ;;
  if includes decodedPath (js "media_") then
    Ok (resolve cwd [sourceDir; decodedPath])
  else
    let sourceDocName := basenameWithout sourceDocPath (js ".md") in
    Ok (resolve cwd [sourceDir; js "media_" ++ sourceDocName; decodedPath]).

(** [/^[ \t]*#\s*(.+?)(?:\n|$)/m], the pattern of [match] *)
Definition headerMatchRegex : pattern :=
  Pattern
    (rseq [RBol; RStar (ASet [cu " "; 9%N]); chr "#"; RStar ASpace;
           RGroup 1 (RPlusLazy ADot); RAlt (RAtom (AChar LF)) REol])
    true.

(** [/^[ \t]*#\s*(.+?)(?:\n+|$)/m], the pattern of [replace] *)
Definition headerReplaceRegex : pattern :=
  Pattern
    (rseq [RBol; RStar (ASet [cu " "; 9%N]); chr "#"; RStar ASpace;
           RGroup 1 (RPlusLazy ADot); RAlt (RPlus (AChar LF)) REol])
    true.

(** [/^\n+/] *)
Definition leadingNewlinesRegex : pattern :=
  Pattern (rseq [RBol; RPlus (AChar LF)]) false.

Record document : Type := Document { title : jsstring; content : jsstring }.

Definition parseDocumentContent (rawContent fileName : jsstring) : document :=
  let lines := split LF rawContent in
  let mainContent := join [LF] (slice 6 lines) in
  match exec headerMatchRegex mainContent with
  | Some headerMatch =>
      let title := trim (group 1 headerMatch) in
      let mainContent := replaceFirst headerReplaceRegex [] mainContent in
      let mainContent := replaceFirst leadingNewlinesRegex [] mainContent in
      Document (trim title) (trim mainContent)
  | None =>
      let title := basenameWithout fileName (js ".md") in
      Document (trim title) (trim mainContent)
  end.

(** [/\[([^\]]+)\]\(([^)]+)\)/g] *)
Definition rewriteRegex : pattern :=
  Pattern
    (rseq [chr "["; RGroup 1 (RPlus (ANotSet [cu "]"])); chr "]"; chr "(";
           RGroup 2 (RPlus (ANotSet [cu ")"])); chr ")"])
    false.

(** [/^\//] and [/\.md$/] *)
Definition leadingSlashRegex : pattern := Pattern (rseq [RBol; chr "/"]) false.
Definition mdSuffixRegex : pattern := Pattern (rseq [chr "."; chr "m"; chr "d"; REol]) false.

(** The first statements of [updateMarkdownLinks]: the content without its
    first six lines, its first header line and its leading newlines. *)
Definition cleanedContent (rawContent : jsstring) : jsstring :=
  let lines := split LF rawContent in
  let cleanedContent := join [LF] (slice 6 lines) in
  let cleanedContent := replaceFirst headerReplaceRegex [] cleanedContent in
  replaceFirst leadingNewlinesRegex [] cleanedContent.

(** [`[${linkText}](${url})`] *)
Definition linkTo (linkText url : jsstring) : jsstring :=
  js "[" ++ linkText ++ js "](" ++ url ++ js ")".

(** The replacement function of [updateMarkdownLinks]. *)
Definition rewriteLink (reg : registry) (m : jsmatch) : result jsstring :=
  let linkText := group 1 m in
  let path := group 2 m in
  if startsWith path (js "http") then Ok (matched m)
  else
    decoded <- decodeURIComponent (replaceFirst leadingSlashRegex [] path) ;;
    let normalizedPath := replaceFirst mdSuffixRegex [] decoded in
    let docUrl :=
      orJs (map_get normalizedPath (documentUrlMap reg))
           (map_get (normalizedPath ++ js ".md") (documentUrlMap reg)) in
    if truthy docUrl then Ok (linkTo linkText (text docUrl))
    else
      let attachmentUrl := map_get path (attachmentUrlMap reg) in
      if truthy attachmentUrl then Ok (linkTo linkText (text attachmentUrl))
      else Ok (matched m).

(** The last statement of [updateMarkdownLinks], on its cleaned content. *)
Definition rewriteLinks (reg : registry) (cleaned : jsstring) : result jsstring :=
  replaceAll rewriteRegex (rewriteLink reg) cleaned.

Definition updateMarkdownLinks (reg : registry) (rawContent : jsstring) : result jsstring :=
  rewriteLinks reg (cleanedContent rawContent).

(** ** The file system, as the program reads it *)

Inductive kind : Type := KFile | KDirectory | KOther.

(** A [Dirent] of [readdir(..., { withFileTypes: true })]. *)
Record dirent : Type := Dirent { name : jsstring; entryKind : kind }.

Definition isFile (e : dirent) : bool :=
  match entryKind e with KFile => true | _ => false end.

Definition isDirectory (e : dirent) : bool :=
  match entryKind e with KDirectory => true | _ => false end.

Record filesystem : Type := FileSystem {
  readdir : jsstring -> result (list dirent);
  readFile : jsstring -> result jsstring;   (* readFile(path, 'utf-8') *)
  fileExists : jsstring -> bool;            (* Bun.file(path).exists() *)
  fileBytes : jsstring -> result N;         (* byteLength of Bun.file(path).arrayBuffer() *)
  statKind : jsstring -> result kind        (* stat(path) *)
}.

(** [/\.[^.]+$/] *)
Definition extensionRegex : pattern :=
  Pattern (rseq [chr "."; RPlus (ANotSet [cu "."]); REol]) false.

Definition mediaExtensions : list jsstring :=
  [js ".jpg"; js ".jpeg"; js ".png"; js ".gif"; js ".pdf"].

(** [set.has(s)] *)
Definition has (set : list jsstring) (s : jsstring) : bool := existsb (str_eqb s) set.

(** The predicate given to [every]. *)
Definition isMediaFile (file : dirent) : bool :=
  match exec extensionRegex (toLowerCase (name file)) with
  | Some m => truthy (Some (matched m)) && has mediaExtensions (matched m)
  | None => false
  end.

Definition isMediaFolder (fs : filesystem) (dirPath : jsstring) : result bool :=
  if startsWith (basename dirPath) (js "media_") then Ok true
  else
    entries <- readdir fs dirPath ;;
    let files := filter isFile entries in
    if Nat.eqb (length files) 0 then Ok false
    else Ok (forallb isMediaFile files).


(** ** The remote service and the state of a run

    Every call of the service is recorded.  What the service answers is
    not the program's business: it is a function of the calls made so far
    and of the call at hand.  [makeRequest] is modelled by its outcome after
    its retries: an answer, or the error it throws when it gives up. *)

(** What [table[ext] || 'application/octet-stream'] evaluates to, for the
    table of content types of [uploadAttachment]: a content type, or what
    the object literal inherits from [Object.prototype] under a key in
    lower case, the function [Object] under [constructor] and the prototype
    itself under [__proto__] (both truthy, so the default does not apply;
    [JSON.stringify] then sends no string for the field). *)
Inductive contentTypeValue : Type :=
| ContentType (mime : jsstring)
| ObjectConstructor
| ObjectPrototype.

Inductive request : Type :=
| CollectionsCreate (name : jsstring)
| DocumentsCreate (title text collectionId : jsstring) (parentDocumentId : option jsstring)
| AttachmentsCreate (name documentId : jsstring) (contentType : contentTypeValue) (size : N)
| UploadFile (uploadUrl filePath : jsstring)
| DocumentsUpdate (id text : jsstring).

(** The fields of an answer that the program reads: [data.id],
    [data.uploadUrl] and [data.attachment.url]. *)
Record response : Type := Response {
  dataId : jsstring;
  dataUploadUrl : option jsstring;
  dataAttachmentUrl : jsstring
}.

Definition service : Type := list request -> request -> result response.

(** The three maps and the calls made so far, oldest first. *)
Record world : Type := World {
  maps : registry;
  sent : list request
}.

(** A computation that reads and writes the maps, calls the service, and
    may throw. *)
Definition M (A : Type) : Type := world -> result A * world.

Definition ret {A : Type} (a : A) : M A := fun w => (Ok a, w).

Definition throw {A : Type} (e : error) : M A := fun w => (Throw e, w).

Definition bindM {A B : Type} (c : M A) (f : A -> M B) : M B :=
  fun w =>
    match c w with
    | (Ok a, w') => f a w'
    | (Throw e, w') => (Throw e, w')
    end.

Notation "x <~ c1 ;; c2" := (bindM c1 (fun x => c2))
  (at level 61, c1 at next level, right associativity).
Notation "c1 ;;; c2" := (bindM c1 (fun _ => c2))
  (at level 61, right associativity).

Definition lift {A : Type} (r : result A) : M A := fun w => (r, w).

(** [try { c } catch (error) { timeStampLog(...) }] *)
Definition tryCatch (c : M unit) : M unit :=
  fun w =>
    match c w with
    | (Ok _, w') => (Ok tt, w')
    | (Throw _, w') => (Ok tt, w')
    end.

(** [for (const x of l) { f x }] *)
Fixpoint forOf {A : Type} (f : A -> M unit) (l : list A) : M unit :=
  match l with
  | [] => ret tt
  | a :: l' => f a ;;; forOf f l'
  end.

Definition setDocumentId (k v : jsstring) : M unit :=
  fun w =>
    let r := maps w in
    (Ok tt, World (Registry (attachmentUrlMap r) (documentUrlMap r)
                            (map_set k v (documentIdMap r))) (sent w)).

Definition setDocumentUrl (k v : jsstring) : M unit :=
  fun w =>
    let r := maps w in
    (Ok tt, World (Registry (attachmentUrlMap r) (map_set k v (documentUrlMap r))
                            (documentIdMap r)) (sent w)).

Definition setAttachmentUrl (k v : jsstring) : M unit :=
  fun w =>
    let r := maps w in
    (Ok tt, World (Registry (map_set k v (attachmentUrlMap r)) (documentUrlMap r)
                            (documentIdMap r)) (sent w)).

Definition getDocumentId (k : jsstring) : M (option jsstring) :=
  fun w => (Ok (map_get k (documentIdMap (maps w))), w).

Definition SLITE_BACKUP_PATH : jsstring := js "./slite-backup/channels".

Section Migration.

(** [process.cwd()], [process.env.OUTLINE_DOMAIN], the service and the
    export on disk. *)
Variable cwd : jsstring.
Variable domain : jsstring.
Variable remote : service.
Variable fs : filesystem.

(** One call of the service: recorded, then answered. *)
Definition call (q : request) : M response :=
  fun w =>
    (remote (sent w) q, World (maps w) (sent w ++ [q])).

Definition createCollection (name : jsstring) : M response :=
  call (CollectionsCreate name).

Definition createDocument (title text collectionId : jsstring)
    (parentDocumentId : option jsstring) : M response :=
  call (DocumentsCreate title text collectionId
          (if truthy parentDocumentId then parentDocumentId else None)).

(** The body of the first loop of [createDocumentStructure]. *)
Definition createFileDocument (dirPath collectionId : jsstring)
    (parentDocumentId : option jsstring) (entry : dirent) : M unit :=
  if isFile entry && endsWith (name entry) (js ".md") then
    let filePath := pathJoin [dirPath; name entry] in
    rawContent <~ lift (readFile fs filePath) ;;
    let parsed := parseDocumentContent rawContent (name entry) in
    doc <~ createDocument (title parsed) (content parsed) collectionId parentDocumentId ;;
    let relativePath := relative cwd SLITE_BACKUP_PATH filePath in
    setDocumentId relativePath (dataId doc) ;;;
    let docUrl := js "/doc/" ++ dataId doc in
    setDocumentUrl relativePath docUrl
  else ret tt.

(** The body of the second loop; [recurse] is the recursive call. *)
Definition createDirectoryDocument
    (recurse : jsstring -> jsstring -> option jsstring -> M unit)
    (dirPath collectionId : jsstring) (parentDocumentId : option jsstring)
    (entry : dirent) : M unit :=
  if isDirectory entry then
    let fullDirPath := pathJoin [dirPath; name entry] in
    media <~ lift (isMediaFolder fs fullDirPath) ;;
    if media : bool then ret tt
    else
      dirDoc <~ createDocument (name entry) [] collectionId parentDocumentId ;;
      let relativePath := relative cwd SLITE_BACKUP_PATH fullDirPath in
      setDocumentId relativePath (dataId dirDoc) ;;;
      setDocumentUrl relativePath (js "/doc/" ++ dataId dirDoc) ;;;
      recurse fullDirPath collectionId (Some (dataId dirDoc))
  else ret tt.

(** [fuel] bounds the depth of the recursion. *)
Fixpoint createDocumentStructure (fuel : nat) (dirPath collectionId : jsstring)
    (parentDocumentId : option jsstring) : M unit :=
  match fuel with
  | O => throw OutOfFuel
  | S fuel' =>
      entries <~ lift (readdir fs dirPath) ;;
      forOf (createFileDocument dirPath collectionId parentDocumentId) entries ;;;
      forOf (createDirectoryDocument (createDocumentStructure fuel')
               dirPath collectionId parentDocumentId) entries
  end.

(** [map.forEach((v, k) => all.set(k, v))] *)
Definition mergeInto (all m : jsmap jsstring) : jsmap jsstring :=
  fold_left (fun acc kv => map_set (fst kv) (snd kv) acc) m all.

Definition mergeLinks (all found : links) : links :=
  Links (mergeInto (attachmentLinks all) (attachmentLinks found))
        (mergeInto (documentLinks all) (documentLinks found)).

Fixpoint scanEntries (scan : jsstring -> result links) (dirPath : jsstring)
    (entries : list dirent) (all : links) : result links :=
  match entries with
  | [] => Ok all
  | entry :: entries' =>
      let fullPath := pathJoin [dirPath; name entry] in
      if isFile entry && endsWith (name entry) (js ".md") then
        content <- readFile fs fullPath ;;
        scanEntries scan dirPath entries'
          (mergeLinks all (scanMarkdownLinks content fullPath))
      else if isDirectory entry then
        found <- scan fullPath ;;
        scanEntries scan dirPath entries' (mergeLinks all found)
      else scanEntries scan dirPath entries' all
  end.

Fixpoint scanDirectory (fuel : nat) (dirPath : jsstring) : result links :=
  match fuel with
  | O => Throw OutOfFuel
  | S fuel' =>
      entries <- readdir fs dirPath ;;
      scanEntries (scanDirectory fuel') dirPath entries (Links [] [])
  end.

(** [fileName.split('.').pop()] *)
Definition lastPiece (s : jsstring) : jsstring := List.last (split (cu ".") s) [].

(** The lookup in the table of content types.  The extension is in lower
    case, so of the inherited keys only [constructor] and [__proto__] can
    be hit; any other extension that is no key of the table gets the
    default. *)
Definition mimeTypeOf (ext : jsstring) : contentTypeValue :=
  if str_eqb ext (js "jpg") then ContentType (js "image/jpeg")
  else if str_eqb ext (js "jpeg") then ContentType (js "image/jpeg")
  else if str_eqb ext (js "png") then ContentType (js "image/png")
  else if str_eqb ext (js "gif") then ContentType (js "image/gif")
  else if str_eqb ext (js "pdf") then ContentType (js "application/pdf")
  else if str_eqb ext (js "constructor") then ObjectConstructor
  else if str_eqb ext (js "__proto__") then ObjectPrototype
  else ContentType (js "application/octet-stream").

Definition uploadAttachment (filePath documentId : jsstring) : M jsstring :=
  size <~ lift (fileBytes fs filePath) ;;
  let fileName := basename filePath in
  let ext := toLowerCase (lastPiece fileName) in
  let mimeType := mimeTypeOf ext in
  responseData <~ call (AttachmentsCreate fileName documentId mimeType size) ;;
  if truthy (dataUploadUrl responseData) then
    let uploadUrl :=
      if startsWith (text (dataUploadUrl responseData)) (js "http")
      then text (dataUploadUrl responseData)
      else domain ++ text (dataUploadUrl responseData) in
    call (UploadFile uploadUrl filePath) ;;;
    ret (dataAttachmentUrl responseData)
  else throw RequestError.

(** The body of the loop of phase 2, inside its [try]. *)
Definition uploadReference (entry : jsstring * jsstring) : M unit :=
  let (link, sourcePath) := entry in
  let relativeSourcePath := relative cwd SLITE_BACKUP_PATH sourcePath in
  documentId <~ getDocumentId relativeSourcePath ;;
  if negb (truthy documentId) then ret tt
  else
    fullPath <~ lift (resolveAttachmentPath cwd link sourcePath) ;;
    if negb (fileExists fs fullPath) then ret tt
    else
      attachmentUrl <~ uploadAttachment fullPath (text documentId) ;;
      setAttachmentUrl link attachmentUrl.

(** The loop of phase 2 over the scanned attachment links. *)
Definition uploadReferences (attachmentLinks : jsmap jsstring) : M unit :=
  forOf (fun entry => tryCatch (uploadReference entry)) attachmentLinks.

(** Phase 1: one collection per channel directory. *)
Definition createChannel (fuel : nat) (channel : dirent) : M unit :=
  if isDirectory channel then
    collection <~ createCollection (name channel) ;;
    createDocumentStructure fuel (pathJoin [SLITE_BACKUP_PATH; name channel])
      (dataId collection) None
  else ret tt.

(** The body of the loop of phase 3, inside its [try]. *)
Definition updateDocument (entry : jsstring * jsstring) : M unit :=
  let (docPath, docId) := entry in
  let fullPath := pathJoin [SLITE_BACKUP_PATH; docPath] in
  stats <~ lift (statKind fs fullPath) ;;
  match stats with
  | KFile =>
      if endsWith docPath (js ".md") then
        content <~ lift (readFile fs fullPath) ;;
        fun w =>
          (updatedContent <~ lift (updateMarkdownLinks (maps w) content) ;;
           call (DocumentsUpdate docId updatedContent) ;;;
           ret tt) w
      else ret tt
  | _ => ret tt
  end.

Definition migrate (fuel : nat) : M unit :=
  channels <~ lift (readdir fs SLITE_BACKUP_PATH) ;;
  forOf (createChannel fuel) channels ;;;
  scanned <~ lift (scanDirectory fuel SLITE_BACKUP_PATH) ;;
  uploadReferences (attachmentLinks scanned) ;;;
  fun w => forOf (fun entry => tryCatch (updateDocument entry)) (documentIdMap (maps w)) w.

End Migration.

(** ** [makeRequest]

    One turn of the loop is a [fetch], the check of [response.ok] and
    [response.json()]: it gives the answer or throws, and what it throws is
    caught.  [fetch n] is the outcome of the turn that is made after [n]
    failed ones.  The result comes with the delays waited, in
    milliseconds. *)

Definition maxRetries : nat := 3.

(** [fuel] bounds the number of turns. *)
Fixpoint makeRequestLoop (fuel : nat) (fetch : nat -> result response) (retries : nat)
    : result response * list N :=
  match fuel with
  | O => (Throw OutOfFuel, [])
  | S fuel' =>
      if Nat.ltb retries maxRetries then
        match fetch retries with
        | Ok data => (Ok data, [])
        | Throw _ =>
            let retries := S retries in
            let delay := (2 ^ N.of_nat retries * 1000)%N in
            let (r, delays) := makeRequestLoop fuel' fetch retries in
            (r, delay :: delays)
        end
      else (Throw RequestError, [])
  end.

Definition makeRequest (fetch : nat -> result response) : result response * list N :=
  makeRequestLoop (S maxRetries) fetch 0.

(** * Definitions for the properties

    What the properties below are stated with: what each pattern matches
    at one position, the normal form of a link target, the registries,
    contents and file systems of the examples. *)

(** The code unit before the position reached after [t]. *)
Fixpoint lastOr (pv : option N) (t : jsstring) : option N :=
  match t with
  | [] => pv
  | c :: t' => lastOr (Some c) t'
  end.

Definition notChar (d c : N) : bool := negb (N.eqb c d).

(** What [rewriteRegex] matches at the head of [s]: the link text, the
    target and the input after the closing parenthesis. *)
Definition rewriteLinkAt (s : jsstring) : option (jsstring * jsstring * jsstring) :=
  match s with
  | c :: s1 =>
      if N.eqb c (cu "[") then
        match takeWhile (notChar (cu "]")) s1, dropWhile (notChar (cu "]")) s1 with
        | (_ :: _) as linkText, _ :: c2 :: s3 =>
            if N.eqb c2 (cu "(") then
              match takeWhile (notChar (cu ")")) s3, dropWhile (notChar (cu ")")) s3 with
              | (_ :: _) as target, _ :: s5 => Some (linkText, target, s5)
              | _, _ => None
              end
            else None
        | _, _ => None
        end
      else None
  | [] => None
  end.

Definition headMatch (pv : option N) (s : jsstring) (y : mstate) : jsmatch :=
  Match [] (consumed (MState pv s []) y) (caps y) (prev y) (rest y).

(** One more skipped code unit in front of the first match, or in front of
    the remaining text when there is none. *)
Definition shift (c : N) (r : list jsmatch * jsstring) : list jsmatch * jsstring :=
  match r with
  | ([], tl) => ([], c :: tl)
  | (m :: ms, tl) => (Match (c :: before m) (matched m) (groups m) (last m) (after m) :: ms, tl)
  end.

Definition without (d : N) (s : jsstring) : Prop := Forall (fun c => c <> d) s.

(** The match that [rewriteRegex] produces for a link. *)
Definition linkMatch (linkText target post : jsstring) : jsmatch :=
  Match [] (linkTo linkText target) [(2, target); (1, linkText)] (Some (cu ")")) post.

(** One leading slash removed. *)
Definition stripLeadingSlash (path : jsstring) : jsstring :=
  match path with
  | c :: t => if N.eqb c (cu "/") then t else path
  | [] => []
  end.

(** A trailing [.md] removed. *)
Definition stripMdSuffix (s : jsstring) : jsstring :=
  if endsWith s (js ".md") then firstn (length s - 3) s else s.

(** A URL that counts: defined and not the empty string. *)
Definition present (v : option jsstring) : option jsstring :=
  match v with
  | Some (c :: u) => Some (c :: u)
  | _ => None
  end.

(** The target after rewriting, for a target that does not start with
    [http] and decodes to [decoded]: the document URL of the normalized
    path, else the document URL of the normalized path with [.md], else
    the attachment URL of the target as written, else the target. *)
Definition resolvedTarget (reg : registry) (target decoded : jsstring) : jsstring :=
  let normalized := stripMdSuffix decoded in
  match present (map_get normalized (documentUrlMap reg)) with
  | Some url => url
  | None =>
      match present (map_get (normalized ++ js ".md") (documentUrlMap reg)) with
      | Some url => url
      | None =>
          match present (map_get target (attachmentUrlMap reg)) with
          | Some url => url
          | None => target
          end
      end
  end.

(** What [updateMarkdownLinks] writes in place of a link. *)
Definition rewrittenTarget (reg : registry) (target : jsstring) : result jsstring :=
  if startsWith target (js "http") then Ok target
  else
    decoded <- decodeURIComponent (stripLeadingSlash target) ;;
    Ok (resolvedTarget reg target decoded).

(** A link starts at the head of [s]. *)
Definition isLink (s : jsstring) : Prop :=
  exists linkText target post,
    s = linkTo linkText target ++ post /\
    linkText <> [] /\ without (cu "]") linkText /\
    target <> [] /\ without (cu ")") target.

(** No link starts inside [pre] when [follow] comes after it. *)
Definition linkFree (pre follow : jsstring) : Prop :=
  forall p1 p2, pre = p1 ++ p2 -> p2 <> [] -> ~ isLink (p2 ++ follow).

(** A pair of brackets and a target in parentheses start at the head of
    [s]: what the scanner takes for a link, whose text may be empty. *)
Definition opensLink (s : jsstring) : Prop :=
  exists linkText target post,
    s = linkTo linkText target ++ post /\
    without (cu "]") linkText /\ target <> [] /\ without (cu ")") target.

(** None starts inside [pre] when [follow] comes after it. *)
Definition bracketFree (pre follow : jsstring) : Prop :=
  forall p1 p2, pre = p1 ++ p2 -> p2 <> [] -> ~ opensLink (p2 ++ follow).

(** The entries of a map under other keys than [k], in their order. *)
Definition otherKeys (k : jsstring) (m : jsmap jsstring) : jsmap jsstring :=
  filter (fun kv => negb (str_eqb (fst kv) k)) m.

(** The registry and the content of the round-trip example. *)
Definition exampleRegistry : registry :=
  Registry [(js "img.png", js "https://files/ID2")] [(js "sub/doc", js "/doc/ID1")] [].

Definition exampleContent : jsstring :=
  js "[link](sub/doc.md)" ++ [LF] ++ js "![pic](img.png)".

Definition exampleRewritten : jsstring :=
  js "[link](/doc/ID1)" ++ [LF] ++ js "![pic](https://files/ID2)".

(** A raw content: six lines of metadata, then [body]. *)
Definition withPreamble (body : jsstring) : jsstring :=
  js "title: t" ++ [LF] ++ js "created: c" ++ [LF] ++ js "updated: u" ++ [LF]
  ++ js "author: a" ++ [LF] ++ js "id: i" ++ [LF] ++ js "---" ++ [LF] ++ body.



(** What [linkRegex] matches from an opening bracket on: the target and
    the input after the closing parenthesis.  The text between the
    brackets may be empty. *)
Definition bracketAt (s : jsstring) : option (jsstring * jsstring) :=
  match s with
  | c :: s1 =>
      if N.eqb c (cu "[") then
        match dropWhile (notChar (cu "]")) s1 with
        | _ :: c2 :: s3 =>
            if N.eqb c2 (cu "(") then
              match takeWhile (notChar (cu ")")) s3, dropWhile (notChar (cu ")")) s3 with
              | (_ :: _) as target, _ :: s5 => Some (target, s5)
              | _, _ => None
              end
            else None
        | _ => None
        end
      else None
  | [] => None
  end.

(** ... and from an optional exclamation mark on. *)
Definition scanLinkAt (s : jsstring) : option (jsstring * jsstring) :=
  match s with
  | c :: s' => if N.eqb c (cu "!") then bracketAt s' else bracketAt s
  | [] => None
  end.

(** The link targets that [scanMarkdownLinks] goes through, in order. *)
Definition scanTargets (content : jsstring) : list jsstring :=
  map (group 2) (matchAll linkRegex content).

(** The body of the loop of [scanMarkdownLinks], as a function of the
    target alone. *)
Definition record (sourcePath : jsstring) (acc : links) (path : jsstring) : links :=
  scanMatch sourcePath acc (Match [] [] [(2, path)] None []).

Inductive linkClass : Type := External | DocumentLink | AttachmentLink.

(** How a target is classified: by its scheme, then by its extension. *)
Definition classify (target : jsstring) : linkClass :=
  if startsWith target (js "http://") || startsWith target (js "https://") then External
  else if endsWith target (js ".md") then DocumentLink
  else AttachmentLink.

Definition scanExample : jsstring :=
  js "[see](other.md) and ![pic](a.png) and [ext](https://x.com/y)".




Definition knownExtensions : list jsstring :=
  [js "jpg"; js "jpeg"; js "png"; js "gif"; js "pdf"].

(** The name, in lower case, ends with a dot and a known extension. *)
Definition hasMediaExtension (fileName : jsstring) : Prop :=
  exists e stem, In e knownExtensions /\ toLowerCase fileName = stem ++ cu "." :: e.

Definition photosFs : filesystem :=
  FileSystem
    (fun p => if str_eqb p (js "export/photos")
              then Ok [Dirent (js "A.PNG") KFile; Dirent (js "b.jpeg") KFile;
                       Dirent (js "old") KDirectory]
              else Throw IOError)
    (fun _ => Throw IOError) (fun _ => false) (fun _ => Throw IOError)
    (fun _ => Throw IOError).

(** A component: not empty, no slash. *)
Definition component (seg : jsstring) : Prop := seg <> [] /\ without SLASH seg.

(** Neither [.] nor [..]. *)
Definition plain (seg : jsstring) : Prop := seg <> js "." /\ seg <> js "..".

(** [resolve] of a rooted string, in terms of its components. *)
Definition rooted (segs : list jsstring) : jsstring :=
  SLASH :: join [SLASH] (normalizeSegments false [] segs).

(** The directory next to the source document that is named after it. *)
Definition mediaDirectoryOf (cwd sourceDocPath : jsstring) : jsstring :=
  resolve cwd [dirname sourceDocPath; js "media_" ++ basenameWithout sourceDocPath (js ".md")].

Definition failTogether (k1 k2 : cont) : Prop := forall y, k1 y = None <-> k2 y = None.

Definition isLF (c : N) : bool := N.eqb c LF.

Definition trailingNewlineExample : jsstring :=
  withPreamble (js "# Title" ++ [LF] ++ js "Body text" ++ [LF]).

Definition titleExample : jsstring :=
  withPreamble ([LF] ++ js "# My Title" ++ [LF] ++ js "Body text").

(** A [#] alone on its line: the pattern's [\s*] runs over the line break,
    the next line becomes the title and is removed with it. *)
Definition bareHashExample : jsstring :=
  withPreamble (js "#" ++ [LF] ++ js "foo" ++ [LF] ++ js "bar").

(** [Rewritten ok s out]: [out] is [s] with the target of each of its
    links replaced by some non-empty text without a closing parenthesis
    that satisfies [ok]. *)
Inductive Rewritten (ok : jsstring -> Prop) : jsstring -> jsstring -> Prop :=
| Rewritten_nil : Rewritten ok [] []
| Rewritten_link linkText target url post out :
    linkText <> [] -> without (cu "]") linkText ->
    target <> [] -> without (cu ")") target ->
    url <> [] -> without (cu ")") url -> ok url ->
    Rewritten ok post out ->
    Rewritten ok (linkTo linkText target ++ post) (linkTo linkText url ++ out)
| Rewritten_skip c s out :
    rewriteLinkAt (c :: s) = None ->
    Rewritten ok s out ->
    Rewritten ok (c :: s) (c :: out).

(** The check that [rewriteLinkAt] makes after the opening parenthesis. *)
Definition targetAt (y : jsstring) : bool :=
  match takeWhile (notChar (cu ")")) y, dropWhile (notChar (cu ")")) y with
  | _ :: _, _ :: _ => true
  | _, _ => false
  end.

(** ... and after the link text. *)
Definition closingAt (x : jsstring) : bool :=
  match dropWhile (notChar (cu "]")) x with
  | _ :: c2 :: y => N.eqb c2 (cu "(") && targetAt y
  | _ => false
  end.

(** The URLs that a registry can put in a link. *)
Definition urls (reg : registry) : list jsstring :=
  map snd (documentUrlMap reg) ++ map snd (attachmentUrlMap reg).

(** A URL that, as a link target, is left as it is. *)
Definition settled (reg : registry) (url : jsstring) : Prop :=
  rewrittenTarget reg url = Ok url.

(** No URL of the registry closes a link early, and none is itself
    resolved to something else. *)
Definition stable (reg : registry) : Prop :=
  forall url, In url (urls reg) -> without (cu ")") url /\ settled reg url.

(** Without the stripping, a registry whose URLs are themselves keys still
    rewrites twice. *)
Definition chainedRegistry : registry :=
  Registry [] [(js "a", js "b"); (js "b", js "c")] [].

(** The file system [fs] with the listing of [dirPath] replaced. *)
Definition withListing (fs : filesystem) (dirPath : jsstring) (entries : list dirent)
    : filesystem :=
  FileSystem
    (fun p => if str_eqb p dirPath then Ok entries else readdir fs p)
    (readFile fs) (fileExists fs) (fileBytes fs) (statKind fs).

(** An export with one channel: a document, its media folder, and a
    subdirectory with a document of its own. *)
Definition teamDir : jsstring := js "slite-backup/channels/team".

Definition exportFs : filesystem :=
  FileSystem
    (fun p =>
       if str_eqb p teamDir then
         Ok [Dirent (js "a.md") KFile; Dirent (js "media_a") KDirectory;
             Dirent (js "b") KDirectory]
       else if str_eqb p (js "slite-backup/channels/team/media_a") then
         Ok [Dirent (js "x.png") KFile; Dirent (js "n.md") KFile]
       else if str_eqb p (js "slite-backup/channels/team/b") then
         Ok [Dirent (js "c.md") KFile]
       else Throw IOError)
    (fun p => Ok (withPreamble (js "# Doc" ++ [LF] ++ js "![img](x.png)")))
    (fun p => str_eqb p (js "/home/user/project/slite-backup/channels/team/media_a/x.png"))
    (fun p => Ok 4%N)
    (fun p => if endsWith p (js ".md") then Ok KFile else Ok KDirectory).

(** A service that gives up on every call. *)
Definition deadService : service := fun _ _ => Throw RequestError.

Definition emptyWorld : world := World (Registry [] [] []) [].

(** An export with one channel: the document [a.md] and, in its media
    folder, the document [n.md].  Both hold the link [[see](team/a)]. *)
Definition shadowedFs : filesystem :=
  FileSystem
    (fun p =>
       if str_eqb p SLITE_BACKUP_PATH then Ok [Dirent (js "team") KDirectory]
       else if str_eqb p teamDir then
         Ok [Dirent (js "a.md") KFile; Dirent (js "media_a") KDirectory]
       else if str_eqb p (js "slite-backup/channels/team/media_a") then
         Ok [Dirent (js "n.md") KFile]
       else Throw IOError)
    (fun p => Ok (withPreamble (js "[see](team/a)")))
    (fun p => false)
    (fun p => Throw IOError)
    (fun p => if endsWith p (js ".md") then Ok KFile else Ok KDirectory).

Definition distinctKeys (ls : links) : Prop :=
  NoDup (map fst (attachmentLinks ls)) /\ NoDup (map fst (documentLinks ls)).

(** Wherever a match ends, it ends inside the input it started on. *)
Definition extends (x y : mstate) : Prop := exists t, rest x = t ++ rest y.

(** ** Definitions for the further properties *)

(** A raw content: the given lines, each ended by a newline, then [body]. *)
Definition withLines (ls : list jsstring) (body : jsstring) : jsstring :=
  fold_right (fun l s => l ++ LF :: s) body ls.

(** What [[ \t]] matches. *)
Definition isBlank (c : N) : bool := atom_match (ASet [cu " "; 9%N]) c.

(** The two header patterns, up to their last piece. *)
Definition headed (r : regex) : regex :=
  rseq [RBol; RStar (ASet [cu " "; 9%N]); chr "#"; RStar ASpace; RGroup 1 (RPlusLazy ADot); r].

(** The end of the input, or a line terminator ahead. *)
Definition lineEnd (tail : jsstring) : Prop :=
  match tail with
  | [] => True
  | e :: _ => isLineTerminator e = true
  end.

(** What a scan of the document at [sourcePath] holds: document links end
    with [.md], attachment links do not, no key is an http(s) URL, and
    every value is [sourcePath]. *)
Definition wellScanned (sourcePath : jsstring) (found : links) : Prop :=
  (forall k v, In (k, v) (documentLinks found) ->
     v = sourcePath /\ endsWith k (js ".md") = true)
  /\ (forall k v, In (k, v) (attachmentLinks found) ->
        v = sourcePath /\ endsWith k (js ".md") = false)
  /\ (forall k v, In (k, v) (documentLinks found ++ attachmentLinks found) ->
        startsWith k (js "http://") = false /\ startsWith k (js "https://") = false
        /\ k <> [] /\ without (cu ")") k).

(** Every entry comes from a file that was read: its value is the path of
    the file, and the scan of that file has the entry. *)
Definition fromFiles (fs : filesystem) (ls : links) : Prop :=
  (forall k v, In (k, v) (attachmentLinks ls) ->
     exists content, readFile fs v = Ok content
       /\ In (k, v) (attachmentLinks (scanMarkdownLinks content v)))
  /\ (forall k v, In (k, v) (documentLinks ls) ->
        exists content, readFile fs v = Ok content
          /\ In (k, v) (documentLinks (scanMarkdownLinks content v))).

(** The entry of [documentUrlMap] that goes with an entry of [documentIdMap]. *)
Definition urlOf (kv : jsstring * jsstring) : jsstring * jsstring :=
  (fst kv, js "/doc/" ++ snd kv).

Definition consistent (reg : registry) : Prop :=
  documentUrlMap reg = map urlOf (documentIdMap reg).

(** Kinds of calls. *)
Definition isDocumentsCreate (q : request) : bool :=
  match q with DocumentsCreate _ _ _ _ => true | _ => false end.

Definition isUpload (q : request) : bool :=
  match q with AttachmentsCreate _ _ _ _ | UploadFile _ _ => true | _ => false end.

Definition isDocumentsUpdate (q : request) : bool :=
  match q with DocumentsUpdate _ _ => true | _ => false end.

Definition isCreate (q : request) : bool :=
  match q with CollectionsCreate _ | DocumentsCreate _ _ _ _ => true | _ => false end.

(** An update of one of the documents [ids]. *)
Definition updatesOf (ids : list jsstring) (q : request) : bool :=
  match q with
  | DocumentsUpdate id _ => existsb (str_eqb id) ids
  | _ => false
  end.

(** [w'] comes after [w]: the calls sent in between are all of kind
    [allowed], and [keeps] relates the maps. *)
Definition follows (allowed : request -> bool) (keeps : registry -> registry -> Prop)
    (w w' : world) : Prop :=
  (exists qs, sent w' = sent w ++ qs /\ forallb allowed qs = true)
  /\ keeps (maps w) (maps w').

(** What building the structure keeps: [attachmentUrlMap] as it is, and
    the two document maps in step. *)
Definition structureKeeps (r r' : registry) : Prop :=
  attachmentUrlMap r' = attachmentUrlMap r /\ (consistent r -> consistent r').

(** What uploading keeps: the two document maps, and the attachment URLs
    of all keys but [links]. *)
Definition uploadKeeps (links : list jsstring) (r r' : registry) : Prop :=
  documentIdMap r' = documentIdMap r
  /\ documentUrlMap r' = documentUrlMap r
  /\ forall k, ~ In k links -> map_get k (attachmentUrlMap r') = map_get k (attachmentUrlMap r).

(** The path of what lies under the directories [segs] of the export. *)
Definition exportPath (segs : list jsstring) : jsstring :=
  join [SLASH] (js "slite-backup" :: js "channels" :: segs).

(** A directory without markdown files and without subdirectories. *)
Definition assetsFs : filesystem :=
  FileSystem
    (fun p => if str_eqb p (js "export/assets")
              then Ok [Dirent (js "logo.svg") KFile; Dirent (js "notes.txt") KFile;
                       Dirent (js "latest") KOther]
              else Throw IOError)
    (fun _ => Throw IOError) (fun _ => false) (fun _ => Throw IOError)
    (fun _ => Throw IOError).

(** A service that gives the same answer to every call. *)
Definition constantService : service :=
  fun _ _ => Ok (Response (js "D1") (Some (js "/upload")) (js "/files/F1")).

(** * Properties *)

(** ** Strings *)

Lemma str_eqb_spec (a b : jsstring) : reflect (a = b) (str_eqb a b).
Proof.
  revert b; induction a as [|x a IH]; intros [|y b]; simpl; try (constructor; congruence).
  destruct (N.eqb_spec x y) as [->|Hxy]; simpl.
  - destruct (IH b) as [->|Hab]; constructor; congruence.
  - constructor; congruence.
Qed.

Lemma str_eqb_refl (a : jsstring) : str_eqb a a = true.
Proof. destruct (str_eqb_spec a a); congruence. Qed.

Lemma str_eqb_eq (a b : jsstring) : str_eqb a b = true <-> a = b.
Proof. destruct (str_eqb_spec a b); split; congruence. Qed.

Lemma str_eqb_neq (a b : jsstring) : str_eqb a b = false <-> a <> b.
Proof. destruct (str_eqb_spec a b); split; congruence. Qed.

Lemma startsWith_app (p s : jsstring) : startsWith (p ++ s) p = true.
Proof. induction p as [|c p IH]; simpl; [reflexivity|]. now rewrite N.eqb_refl. Qed.

Lemma startsWith_prefix (s p : jsstring) :
  startsWith s p = true <-> exists t, s = p ++ t.
Proof.
  revert s; induction p as [|c p IH]; intros s; simpl.
  - split; [exists s; reflexivity | reflexivity].
  - destruct s as [|d s]; [split; [discriminate | intros [t H]; discriminate]|].
    rewrite andb_true_iff, N.eqb_eq, IH. split.
    + intros [-> [t ->]]. now exists t.
    + intros [t H]. injection H as -> ->. split; [reflexivity | now exists t].
Qed.

Lemma endsWith_suffix (s p : jsstring) :
  endsWith s p = true <-> exists t, s = t ++ p.
Proof.
  unfold endsWith. rewrite startsWith_prefix. split.
  - intros [t H]. exists (rev t).
    rewrite <- (rev_involutive s), H, rev_app_distr, rev_involutive. reflexivity.
  - intros [t ->]. exists (rev t). apply rev_app_distr.
Qed.

Lemma takeWhile_dropWhile (p : N -> bool) (s : jsstring) :
  takeWhile p s ++ dropWhile p s = s.
Proof. induction s as [|c s IH]; simpl; [reflexivity|]. destruct (p c); simpl; congruence. Qed.

Lemma takeWhile_all (p : N -> bool) (s : jsstring) :
  Forall (fun c => p c = true) (takeWhile p s).
Proof.
  induction s as [|c s IH]; simpl; [constructor|].
  destruct (p c) eqn:E; constructor; assumption.
Qed.

Lemma dropWhile_head (p : N -> bool) (s : jsstring) (c : N) (t : jsstring) :
  dropWhile p s = c :: t -> p c = false.
Proof.
  induction s as [|d s IH]; simpl; [discriminate|].
  destruct (p d) eqn:E; [assumption|]. intros H; injection H as -> _. assumption.
Qed.

Lemma takeWhile_app (p : N -> bool) (t s : jsstring) :
  Forall (fun c => p c = true) t ->
  takeWhile p (t ++ s) = t ++ takeWhile p s.
Proof. induction 1 as [|c t Hc _ IH]; simpl; [reflexivity|]. now rewrite Hc, IH. Qed.

Lemma dropWhile_app (p : N -> bool) (t s : jsstring) :
  Forall (fun c => p c = true) t ->
  dropWhile p (t ++ s) = dropWhile p s.
Proof. induction 1 as [|c t Hc _ IH]; simpl; [reflexivity|]. now rewrite Hc. Qed.

Lemma firstn_takeWhile (p : N -> bool) (s : jsstring) :
  firstn (length s - length (dropWhile p s)) s = takeWhile p s.
Proof.
  rewrite <- (takeWhile_dropWhile p s) at 1 3.
  rewrite length_app, Nat.add_sub, firstn_app, Nat.sub_diag, firstn_all.
  simpl. apply app_nil_r.
Qed.

(** ** The matcher *)

(** A greedy star gives nothing back when what follows it cannot start
    with a character of its class. *)
Lemma starGreedy_commit (p : N -> bool) (k : cont) :
  (forall pv cs c s, p c = true -> k (MState pv (c :: s) cs) = None) ->
  forall s pv cs,
    starGreedy p k pv cs s = k (MState (lastOr pv (takeWhile p s)) (dropWhile p s) cs).
Proof.
  intros Hk. induction s as [|c s IH]; intros pv cs; simpl; [reflexivity|].
  destruct (p c) eqn:E; simpl; [|reflexivity].
  rewrite IH. destruct (k _) eqn:Ek; simpl; [reflexivity|]. now apply Hk.
Qed.

Lemma atom_match_notset (d c : N) : atom_match (ANotSet [d]) c = notChar d c.
Proof. unfold notChar, atom_match; simpl. now rewrite orb_false_r. Qed.

Lemma atom_match_char (d c : N) : atom_match (AChar d) c = N.eqb c d.
Proof. reflexivity. Qed.

Lemma notChar_false (d c : N) : notChar d c = false <-> c = d.
Proof. unfold notChar. rewrite negb_false_iff. apply N.eqb_eq. Qed.

Lemma notChar_true (d c : N) : notChar d c = true <-> c <> d.
Proof. unfold notChar. rewrite negb_true_iff. apply N.eqb_neq. Qed.

Lemma starGreedy_ext (p q : N -> bool) (k : cont) :
  (forall c, p c = q c) ->
  forall s pv cs, starGreedy p k pv cs s = starGreedy q k pv cs s.
Proof.
  intros H. induction s as [|c s IH]; intros pv cs; simpl; [reflexivity|].
  now rewrite H, IH.
Qed.

Lemma plusGreedy_commit (p : N -> bool) (k : cont) (x : mstate) :
  (forall pv cs c s, p c = true -> k (MState pv (c :: s) cs) = None) ->
  one p x (fun y => starGreedy p k (prev y) (caps y) (rest y)) =
  match takeWhile p (rest x) with
  | [] => None
  | _ :: _ =>
      k (MState (lastOr (prev x) (takeWhile p (rest x))) (dropWhile p (rest x)) (caps x))
  end.
Proof.
  intros Hk. unfold one. destruct (rest x) as [|c s]; simpl; [reflexivity|].
  destruct (p c); [|reflexivity]. simpl. now apply starGreedy_commit.
Qed.

Lemma plusGreedy_ext (p q : N -> bool) (k : cont) (x : mstate) :
  (forall c, p c = q c) ->
  one p x (fun y => starGreedy p k (prev y) (caps y) (rest y)) =
  one q x (fun y => starGreedy q k (prev y) (caps y) (rest y)).
Proof.
  intros H. unfold one. destruct (rest x) as [|c s]; [reflexivity|].
  rewrite H. destruct (q c); [|reflexivity]. now apply starGreedy_ext.
Qed.

Lemma one_char (d : N) (x : mstate) (k : cont) :
  one (atom_match (AChar d)) x k =
  match rest x with
  | c :: s => if N.eqb c d then k (MState (Some c) s (caps x)) else None
  | [] => None
  end.
Proof. reflexivity. Qed.

Lemma consumed_takeWhile (p : N -> bool) (pv pv' : option N) (s : jsstring) cs cs' :
  consumed (MState pv s cs) (MState pv' (dropWhile p s) cs') = takeWhile p s.
Proof. unfold consumed; simpl. apply firstn_takeWhile. Qed.

Lemma matchHere_rewriteRegex (pv : option N) (s : jsstring) :
  matchHere rewriteRegex pv s =
  match rewriteLinkAt s with
  | Some (linkText, target, s5) =>
      Some (MState (Some (cu ")")) s5 [(2, target); (1, linkText)])
  | None => None
  end.
Proof.
  unfold matchHere, rewriteRegex, rewriteLinkAt, chr; simpl.
  rewrite one_char; simpl.
  destruct s as [|c s1]; [reflexivity|].
  destruct (N.eqb c (cu "[")) eqn:Ec; [|reflexivity].
  rewrite (plusGreedy_ext _ (notChar (cu "]"))) by apply atom_match_notset.
  rewrite plusGreedy_commit.
  2:{ intros pv' cs' c' s' Hc'. rewrite one_char; simpl.
      apply notChar_true in Hc'. apply N.eqb_neq in Hc'. now rewrite Hc'. }
  simpl.
  destruct (takeWhile (notChar (cu "]")) s1) as [|t0 t1] eqn:Et; [reflexivity|].
  rewrite one_char; simpl.
  destruct (dropWhile (notChar (cu "]")) s1) as [|c2 s2] eqn:E2; [reflexivity|].
  assert (Hc2 : c2 = cu "]") by (apply notChar_false; eapply dropWhile_head; eassumption).
  subst c2. rewrite N.eqb_refl.
  rewrite one_char; simpl.
  destruct s2 as [|c3 s3]; [reflexivity|].
  destruct (N.eqb c3 (cu "(")) eqn:Ec3; [|reflexivity].
  rewrite (plusGreedy_ext _ (notChar (cu ")"))) by apply atom_match_notset.
  rewrite plusGreedy_commit.
  2:{ intros pv' cs' c' s' Hc'. rewrite one_char; simpl.
      apply notChar_true in Hc'. apply N.eqb_neq in Hc'. now rewrite Hc'. }
  simpl.
  destruct (takeWhile (notChar (cu ")")) s3) as [|u0 u1] eqn:Eu; [reflexivity|].
  rewrite one_char; simpl.
  destruct (dropWhile (notChar (cu ")")) s3) as [|c5 s5] eqn:E5; [reflexivity|].
  assert (Hc5 : c5 = cu ")") by (apply notChar_false; eapply dropWhile_head; eassumption).
  subst c5. rewrite N.eqb_refl.
  rewrite <- E5, consumed_takeWhile, Eu.
  rewrite <- E2, consumed_takeWhile, Et.
  reflexivity.
Qed.

Lemma extends_refl (x : mstate) : extends x x.
Proof. now exists []. Qed.

Lemma extends_trans (x y z : mstate) : extends x y -> extends y z -> extends x z.
Proof. intros [t Ht] [u Hu]. exists (t ++ u). now rewrite Ht, Hu, app_assoc. Qed.

Lemma starGreedy_extends (p : N -> bool) (k : cont) (res : mstate) :
  forall s pv cs,
    starGreedy p k pv cs s = Some res ->
    exists y, k y = Some res /\ exists t, s = t ++ rest y.
Proof.
  induction s as [|c s IH]; intros pv cs H; simpl in H.
  - exists (MState pv [] cs). split; [assumption | now exists []].
  - destruct (p c).
    + destruct (starGreedy p k (Some c) cs s) eqn:E; simpl in H.
      * injection H as ->. destruct (IH _ _ E) as [y [Hy [t Ht]]].
        exists y. split; [assumption|]. exists (c :: t). now rewrite Ht.
      * exists (MState pv (c :: s) cs). split; [assumption | now exists []].
    + exists (MState pv (c :: s) cs). split; [assumption | now exists []].
Qed.

Lemma starLazy_extends (p : N -> bool) (k : cont) (res : mstate) :
  forall s pv cs,
    starLazy p k pv cs s = Some res ->
    exists y, k y = Some res /\ exists t, s = t ++ rest y.
Proof.
  induction s as [|c s IH]; intros pv cs H; simpl in H.
  - destruct (k (MState pv [] cs)) eqn:E; simpl in H; [|discriminate].
    injection H as ->. exists (MState pv [] cs). split; [assumption | now exists []].
  - destruct (k (MState pv (c :: s) cs)) eqn:E; simpl in H.
    + injection H as ->. exists (MState pv (c :: s) cs). split; [assumption | now exists []].
    + destruct (p c); [|discriminate].
      destruct (IH _ _ H) as [y [Hy [t Ht]]].
      exists y. split; [assumption|]. exists (c :: t). now rewrite Ht.
Qed.

Lemma one_extends (p : N -> bool) (x : mstate) (k : cont) (res : mstate) :
  one p x k = Some res -> exists y, k y = Some res /\ extends x y /\ length (rest y) < length (rest x).
Proof.
  unfold one, extends. destruct (rest x) as [|c s] eqn:E; [discriminate|].
  destruct (p c); [|discriminate]. intros H.
  exists (MState (Some c) s (caps x)). split; [assumption|]. simpl. split; [now exists [c] | lia].
Qed.

Lemma matcher_extends (ml : bool) (r : regex) :
  forall x k res,
    matcher ml r x k = Some res -> exists y, k y = Some res /\ extends x y.
Proof.
  induction r as [| a | a | a | a | a | | | r1 IH1 r2 IH2 | r1 IH1 r2 IH2 | i r IH];
    intros x k res H; simpl in H.
  - exists x. split; [assumption | apply extends_refl].
  - apply one_extends in H. destruct H as [y [Hy [He _]]]. now exists y.
  - apply starGreedy_extends in H. destruct H as [y [Hy Ht]]. now exists y.
  - apply one_extends in H. destruct H as [y [Hy [He _]]].
    apply starGreedy_extends in Hy. destruct Hy as [z [Hz Ht]].
    exists z. split; [assumption|]. apply extends_trans with y; assumption.
  - apply one_extends in H. destruct H as [y [Hy [He _]]].
    apply starLazy_extends in Hy. destruct Hy as [z [Hz Ht]].
    exists z. split; [assumption|]. apply extends_trans with y; assumption.
  - destruct (one (atom_match a) x k) eqn:E; simpl in H.
    + injection H as ->. apply one_extends in E. destruct E as [y [Hy [He _]]]. now exists y.
    + exists x. split; [assumption | apply extends_refl].
  - destruct (atStart ml x); [|discriminate]. exists x. split; [assumption | apply extends_refl].
  - destruct (atEnd ml x); [|discriminate]. exists x. split; [assumption | apply extends_refl].
  - apply IH1 in H. destruct H as [y [Hy He]]. apply IH2 in Hy. destruct Hy as [z [Hz He']].
    exists z. split; [assumption|]. apply extends_trans with y; assumption.
  - destruct (matcher ml r1 x k) eqn:E; simpl in H.
    + injection H as ->. now apply IH1.
    + now apply IH2.
  - apply IH in H. destruct H as [y [Hy He]].
    eexists. split; [exact Hy|]. exact He.
Qed.

Lemma matchHere_extends (p : pattern) (pv : option N) (s : jsstring) (y : mstate) :
  matchHere p pv s = Some y -> exists t, s = t ++ rest y.
Proof.
  unfold matchHere. intros H. apply matcher_extends in H.
  destruct H as [z [Hz He]]. injection Hz as ->. exact He.
Qed.

Lemma consumed_app (pv pv' : option N) (t s : jsstring) cs cs' :
  consumed (MState pv (t ++ s) cs) (MState pv' s cs') = t.
Proof.
  unfold consumed; simpl. rewrite length_app, Nat.add_sub, firstn_app, Nat.sub_diag, firstn_all.
  simpl. apply app_nil_r.
Qed.

Lemma matchHere_consumed (p : pattern) (pv : option N) (s : jsstring) (y : mstate) :
  matchHere p pv s = Some y -> s = consumed (MState pv s []) y ++ rest y.
Proof.
  intros H. destruct (matchHere_extends _ _ _ H) as [t Ht].
  destruct y as [pv' r cs]; simpl in *. subst s. now rewrite consumed_app.
Qed.

(** A match splits the input into what was skipped, what was matched and
    what is left. *)
Lemma execFrom_split (p : pattern) :
  forall s sk pv m,
    execFrom p sk pv s = Some m -> rev sk ++ s = before m ++ matched m ++ after m.
Proof.
  induction s as [|c s IH]; intros sk pv m H; simpl in H.
  - destruct (matchHere p pv []) as [y|] eqn:E; [|discriminate].
    injection H as <-. cbn [before matched after]. f_equal. now apply (matchHere_consumed p).
  - destruct (matchHere p pv (c :: s)) as [y|] eqn:E.
    + injection H as <-. cbn [before matched after]. f_equal. now apply (matchHere_consumed p).
    + apply IH in H. simpl in H. now rewrite <- app_assoc in H.
Qed.

Lemma execFrom_skipped (p : pattern) :
  forall s sk pv,
    execFrom p sk pv s =
    match execFrom p [] pv s with
    | Some m => Some (Match (rev sk ++ before m) (matched m) (groups m) (last m) (after m))
    | None => None
    end.
Proof.
  induction s as [|c s IH]; intros sk pv; simpl.
  - destruct (matchHere p pv []); [|reflexivity]. simpl. now rewrite app_nil_r.
  - destruct (matchHere p pv (c :: s)); [simpl; now rewrite app_nil_r|].
    rewrite IH. rewrite (IH [c]). destruct (execFrom p [] (Some c) s); [|reflexivity].
    simpl. now rewrite <- app_assoc.
Qed.

Lemma execFrom_after_length (p : pattern) (s : jsstring) (pv : option N) (m : jsmatch) :
  execFrom p [] pv s = Some m ->
  length s = length (before m) + length (matched m) + length (after m).
Proof.
  intros H. apply execFrom_split in H. simpl in H. rewrite H.
  rewrite !length_app. lia.
Qed.

(** Fuel beyond the length of the input changes nothing. *)
Lemma matchLoop_fuel (p : pattern) :
  forall n n' s pv,
    length s < n -> length s < n' -> matchLoop n p pv s = matchLoop n' p pv s.
Proof.
  induction n as [|n IH]; intros n' s pv Hn Hn'; [lia|].
  destruct n' as [|n']; [lia|]. simpl.
  destruct (execFrom p [] pv s) as [m|] eqn:E; [|reflexivity].
  pose proof (execFrom_after_length _ _ _ E) as Hlen.
  destruct (matched m) as [|c0 t0] eqn:Em.
  - destruct (after m) as [|c s'] eqn:Ea; [reflexivity|].
    simpl in Hlen. rewrite (IH n' s' (Some c)) by lia. reflexivity.
  - simpl in Hlen. rewrite (IH n' (after m) (last m)) by lia. reflexivity.
Qed.

(** ** Patterns with the [g] flag

    For a pattern without anchors that never matches the empty string, the
    loop is described by three equations: on the empty input, on an input
    that the pattern matches at its head, and on one it does not. *)

Section GlobalLoop.

Variable p : pattern.
Hypothesis anchor_free : forall pv pv' s, matchHere p pv s = matchHere p pv' s.
Hypothesis never_empty :
  forall pv s y, matchHere p pv s = Some y -> length (rest y) < length s.

Lemma execFrom_pv : forall s sk pv pv', execFrom p sk pv s = execFrom p sk pv' s.
Proof.
  destruct s as [|c s]; intros sk pv pv'; simpl; now rewrite (anchor_free pv pv').
Qed.

Lemma matchLoop_pv (n : nat) (s : jsstring) (pv pv' : option N) :
  matchLoop n p pv s = matchLoop n p pv' s.
Proof. destruct n; simpl; [reflexivity|]. now rewrite (execFrom_pv s [] pv pv'). Qed.

Lemma execFrom_nonempty :
  forall s sk pv m, execFrom p sk pv s = Some m -> matched m <> [].
Proof.
  induction s as [|c s IH]; intros sk pv m H; simpl in H.
  - destruct (matchHere p pv []) as [y|] eqn:E; [|discriminate].
    apply never_empty in E. simpl in E. lia.
  - destruct (matchHere p pv (c :: s)) as [y|] eqn:E.
    + injection H as <-. cbn [matched]. intros Hc.
      pose proof (matchHere_consumed p _ _ E) as Hs. rewrite Hc in Hs.
      apply never_empty in E. simpl in Hs. rewrite <- Hs in E. lia.
    + eapply IH; eassumption.
Qed.

Lemma matchLoop_nil (n : nat) (pv : option N) : matchLoop n p pv [] = ([], []).
Proof.
  destruct n; simpl; [reflexivity|].
  destruct (matchHere p pv []) as [y|] eqn:E; [|reflexivity].
  apply never_empty in E. simpl in E. lia.
Qed.

Lemma matchLoop_hit (pv : option N) (s : jsstring) (y : mstate) :
  matchHere p pv s = Some y ->
  matchLoop (S (length s)) p pv s =
  let (ms, tl) := matchLoop (S (length (rest y))) p None (rest y) in
  (headMatch pv s y :: ms, tl).
Proof.
  intros E. pose proof (never_empty _ _ E) as Hlt.
  assert (Hex : execFrom p [] pv s = Some (headMatch pv s y)).
  { destruct s; simpl; rewrite E; reflexivity. }
  cbn [matchLoop]. rewrite Hex.
  pose proof (execFrom_nonempty _ _ _ Hex) as Hne.
  destruct (matched (headMatch pv s y)) as [|c0 t0] eqn:Em; [congruence|].
  cbn [after last headMatch].
  rewrite (matchLoop_fuel p (n := length s) (n' := S (length (rest y)))) by lia.
  now rewrite (matchLoop_pv _ _ (prev y) None).
Qed.

Lemma matchLoop_miss (pv : option N) (c : N) (s : jsstring) :
  matchHere p pv (c :: s) = None ->
  matchLoop (S (length (c :: s))) p pv (c :: s) = shift c (matchLoop (S (length s)) p None s).
Proof.
  intros E. cbn [matchLoop execFrom]. rewrite E.
  rewrite execFrom_skipped. rewrite (execFrom_pv s [] (Some c) None).
  destruct (execFrom p [] None s) as [m|] eqn:Ex; [|reflexivity].
  pose proof (execFrom_nonempty _ _ _ Ex) as Hne.
  pose proof (execFrom_after_length _ _ _ Ex) as Hlen.
  cbn [matched after last].
  destruct (matched m) as [|c0 t0] eqn:Em; [congruence|].
  simpl in Hlen.
  rewrite (matchLoop_fuel p (n := length (c :: s)) (n' := length s)) by (simpl; lia).
  destruct (matchLoop (length s) p (last m) (after m)) as [ms tl].
  cbn [shift rev app before matched groups last after]. now rewrite Em.
Qed.

(** The same three equations for [replace] with a function that looks at
    the match only, not at what precedes it. *)
Variable f : jsmatch -> result jsstring.
Hypothesis f_local :
  forall b m, f (Match b (matched m) (groups m) (last m) (after m)) = f m.

Lemma replaceAll_nil : replaceAll p f [] = Ok [].
Proof. unfold replaceAll. now rewrite matchLoop_nil. Qed.

Lemma replaceAll_hit (s : jsstring) (y : mstate) :
  matchHere p None s = Some y ->
  replaceAll p f s =
  (r <- f (headMatch None s y) ;; t <- replaceAll p f (rest y) ;; Ok (r ++ t)).
Proof.
  intros E. unfold replaceAll. erewrite matchLoop_hit by exact E.
  destruct (matchLoop (S (length (rest y))) p None (rest y)) as [ms tl].
  reflexivity.
Qed.

Lemma replaceAll_miss (c : N) (s : jsstring) :
  matchHere p None (c :: s) = None ->
  replaceAll p f (c :: s) = (t <- replaceAll p f s ;; Ok (c :: t)).
Proof.
  intros E. unfold replaceAll. rewrite matchLoop_miss by exact E.
  destruct (matchLoop (S (length s)) p None s) as [[|m ms] tl]; simpl; [reflexivity|].
  rewrite f_local. destruct (f m); simpl; [|reflexivity].
  destruct (substitute f ms tl); reflexivity.
Qed.

Lemma matchAll_nil : matchAll p [] = [].
Proof. unfold matchAll. now rewrite matchLoop_nil. Qed.

Lemma matchAll_hit (s : jsstring) (y : mstate) :
  matchHere p None s = Some y ->
  matchAll p s = headMatch None s y :: matchAll p (rest y).
Proof.
  intros E. unfold matchAll. erewrite matchLoop_hit by exact E.
  destruct (matchLoop (S (length (rest y))) p None (rest y)) as [ms tl].
  reflexivity.
Qed.

Lemma matchAll_miss (c : N) (s : jsstring) :
  matchHere p None (c :: s) = None ->
  map groups (matchAll p (c :: s)) = map groups (matchAll p s).
Proof.
  intros E. unfold matchAll. rewrite matchLoop_miss by exact E.
  destruct (matchLoop (S (length s)) p None s) as [[|m ms] tl]; reflexivity.
Qed.

End GlobalLoop.

(** ** The pattern of [updateMarkdownLinks] *)

Lemma without_notChar (d : N) (s : jsstring) :
  without d s <-> Forall (fun c => notChar d c = true) s.
Proof. unfold without. rewrite !Forall_forall. split; intros H c Hc; apply notChar_true; auto. Qed.

Lemma linkTo_cons (linkText url : jsstring) :
  linkTo linkText url = cu "[" :: linkText ++ cu "]" :: cu "(" :: url ++ [cu ")"].
Proof. reflexivity. Qed.

Lemma span_until (d : N) (t s : jsstring) :
  without d t ->
  takeWhile (notChar d) (t ++ d :: s) = t /\ dropWhile (notChar d) (t ++ d :: s) = d :: s.
Proof.
  intros H. apply without_notChar in H.
  rewrite takeWhile_app, dropWhile_app by assumption. simpl.
  assert (E : notChar d d = false) by now apply notChar_false.
  rewrite E. now rewrite app_nil_r.
Qed.

Lemma span_inv (d : N) (s t r : jsstring) :
  takeWhile (notChar d) s = t -> dropWhile (notChar d) s = d :: r ->
  s = t ++ d :: r /\ without d t.
Proof.
  intros Ht Hd. split.
  - now rewrite <- (takeWhile_dropWhile (notChar d) s), Ht, Hd.
  - apply without_notChar. rewrite <- Ht. apply takeWhile_all.
Qed.

(** [rewriteLinkAt] finds exactly the links [[text](target)] with a
    non-empty text free of closing brackets and a non-empty target free
    of closing parentheses. *)
Lemma rewriteLinkAt_Some (s linkText target post : jsstring) :
  rewriteLinkAt s = Some (linkText, target, post) <->
  s = linkTo linkText target ++ post /\
  linkText <> [] /\ without (cu "]") linkText /\
  target <> [] /\ without (cu ")") target.
Proof.
  rewrite linkTo_cons. split.
  - unfold rewriteLinkAt. destruct s as [|c s1]; [discriminate|].
    destruct (N.eqb_spec c (cu "[")) as [->|]; [|discriminate].
    destruct (takeWhile (notChar (cu "]")) s1) as [|t0 t1] eqn:Et; [discriminate|].
    destruct (dropWhile (notChar (cu "]")) s1) as [|c1 [|c2 s3]] eqn:Ed; try discriminate.
    destruct (N.eqb_spec c2 (cu "(")) as [->|]; [|discriminate].
    destruct (takeWhile (notChar (cu ")")) s3) as [|u0 u1] eqn:Eu; [discriminate|].
    destruct (dropWhile (notChar (cu ")")) s3) as [|c5 s5] eqn:Ed'; [discriminate|].
    intros H; injection H as <- <- <-.
    assert (c1 = cu "]") by (apply notChar_false; eapply dropWhile_head; eassumption).
    assert (c5 = cu ")") by (apply notChar_false; eapply dropWhile_head; eassumption).
    subst c1 c5.
    destruct (span_inv _ Et Ed) as [-> Ht]. destruct (span_inv _ Eu Ed') as [-> Hu].
    repeat split; try assumption; try discriminate.
    simpl. f_equal. f_equal. rewrite <- !app_assoc. simpl. now rewrite <- !app_assoc.
  - intros [-> [Hne [Ht [Hne' Hu]]]]. unfold rewriteLinkAt.
    simpl. rewrite <- app_assoc. simpl.
    destruct (span_until (cu "(" :: (target ++ [cu ")"]) ++ post) Ht) as [-> ->].
    destruct linkText as [|t0 t1]; [congruence|].
    rewrite N.eqb_refl. rewrite <- app_assoc. simpl.
    destruct (span_until post Hu) as [-> ->].
    destruct target as [|u0 u1]; [congruence|]. reflexivity.
Qed.

Lemma rewriteLinkAt_not_bracket (c : N) (s : jsstring) :
  c <> cu "[" -> rewriteLinkAt (c :: s) = None.
Proof. intros H. simpl. apply N.eqb_neq in H. now rewrite H. Qed.

Lemma rewriteRegex_anchor_free (pv pv' : option N) (s : jsstring) :
  matchHere rewriteRegex pv s = matchHere rewriteRegex pv' s.
Proof. now rewrite !matchHere_rewriteRegex. Qed.

Lemma rewriteRegex_never_empty (pv : option N) (s : jsstring) (y : mstate) :
  matchHere rewriteRegex pv s = Some y -> length (rest y) < length s.
Proof.
  rewrite matchHere_rewriteRegex.
  destruct (rewriteLinkAt s) as [[[linkText target] post]|] eqn:E; [|discriminate].
  intros H; injection H as <-. apply rewriteLinkAt_Some in E. destruct E as [-> _].
  rewrite linkTo_cons. simpl. rewrite length_app. lia.
Qed.

Lemma rewriteLink_local (reg : registry) (b : jsstring) (m : jsmatch) :
  rewriteLink reg (Match b (matched m) (groups m) (last m) (after m)) = rewriteLink reg m.
Proof. reflexivity. Qed.

Lemma headMatch_rewriteRegex (s linkText target post : jsstring) :
  rewriteLinkAt s = Some (linkText, target, post) ->
  matchHere rewriteRegex None s = Some (MState (Some (cu ")")) post [(2, target); (1, linkText)])
  /\ headMatch None s (MState (Some (cu ")")) post [(2, target); (1, linkText)])
     = linkMatch linkText target post.
Proof.
  intros E. split; [now rewrite matchHere_rewriteRegex, E|].
  apply rewriteLinkAt_Some in E. destruct E as [-> _].
  unfold headMatch, linkMatch. cbn [caps prev rest]. now rewrite consumed_app.
Qed.

(** The three equations of the substitution loop of [updateMarkdownLinks]. *)
Lemma rewriteLinks_nil (reg : registry) : rewriteLinks reg [] = Ok [].
Proof.
  unfold rewriteLinks. apply replaceAll_nil. apply rewriteRegex_never_empty.
Qed.

Lemma rewriteLinks_link (reg : registry) (s linkText target post : jsstring) :
  rewriteLinkAt s = Some (linkText, target, post) ->
  rewriteLinks reg s =
  (r <- rewriteLink reg (linkMatch linkText target post) ;;
   t <- rewriteLinks reg post ;; Ok (r ++ t)).
Proof.
  intros E. destruct (@headMatch_rewriteRegex s linkText target post E) as [Hm Hh].
  unfold rewriteLinks.
  rewrite (@replaceAll_hit _ rewriteRegex_anchor_free rewriteRegex_never_empty _ _ _ Hm).
  now rewrite Hh.
Qed.

Lemma rewriteLinks_skip (reg : registry) (c : N) (s : jsstring) :
  rewriteLinkAt (c :: s) = None ->
  rewriteLinks reg (c :: s) = (t <- rewriteLinks reg s ;; Ok (c :: t)).
Proof.
  intros E. unfold rewriteLinks.
  apply (@replaceAll_miss _ rewriteRegex_anchor_free rewriteRegex_never_empty).
  - apply rewriteLink_local.
  - now rewrite matchHere_rewriteRegex, E.
Qed.

(** ** Normalizing a link target *)

Lemma execFrom_leadingSlash_later :
  forall s sk c, execFrom leadingSlashRegex sk (Some c) s = None.
Proof.
  induction s as [|d s IH]; intros sk c; simpl; [reflexivity|]. apply IH.
Qed.

Lemma replace_leadingSlash (path : jsstring) :
  replaceFirst leadingSlashRegex [] path = stripLeadingSlash path.
Proof.
  unfold replaceFirst, exec. destruct path as [|c t]; [reflexivity|].
  cbn [execFrom]. unfold matchHere. cbn [matcher expr multiline_flag leadingSlashRegex rseq fold_right chr atStart prev].
  rewrite one_char. cbn [rest caps].
  unfold stripLeadingSlash. destruct (N.eqb c (cu "/")) eqn:E.
  - cbn [before after rev app]. reflexivity.
  - now rewrite execFrom_leadingSlash_later.
Qed.

Lemma matchHere_mdSuffix (pv : option N) (s : jsstring) :
  matchHere mdSuffixRegex pv s =
  if str_eqb s (js ".md") then Some (MState (Some (cu "d")) [] []) else None.
Proof.
  unfold matchHere.
  cbn [matcher expr multiline_flag mdSuffixRegex rseq fold_right chr].
  rewrite one_char. cbn [rest caps].
  destruct s as [|c1 s]; [reflexivity|].
  change (js ".md") with [cu "."; cu "m"; cu "d"]. cbn [str_eqb].
  destruct (N.eqb_spec c1 (cu ".")) as [->|]; [|reflexivity].
  rewrite one_char. cbn [rest caps andb str_eqb].
  destruct s as [|c2 s]; [reflexivity|]. cbn [str_eqb].
  destruct (N.eqb_spec c2 (cu "m")) as [->|]; [|reflexivity].
  rewrite one_char. cbn [rest caps andb str_eqb].
  destruct s as [|c3 s]; [reflexivity|]. cbn [str_eqb].
  destruct (N.eqb_spec c3 (cu "d")) as [->|]; [|reflexivity].
  cbn [andb atEnd rest str_eqb]. destruct s; reflexivity.
Qed.

Lemma endsWith_cons (c : N) (s p : jsstring) :
  endsWith (c :: s) p = str_eqb (c :: s) p || endsWith s p.
Proof.
  apply eq_true_iff_eq. rewrite orb_true_iff, str_eqb_eq, !endsWith_suffix. split.
  - intros [[|d t] H]; [left; exact H|]. right. injection H as -> ->. now exists t.
  - intros [->|[t ->]]; [now exists [] | now exists (c :: t)].
Qed.

Lemma execFrom_mdSuffix :
  forall s sk pv,
    execFrom mdSuffixRegex sk pv s =
    if endsWith s (js ".md")
    then Some (Match (rev sk ++ firstn (length s - 3) s) (js ".md") [] (Some (cu "d")) [])
    else None.
Proof.
  induction s as [|c s IH]; intros sk pv.
  - reflexivity.
  - cbn [execFrom]. rewrite matchHere_mdSuffix, endsWith_cons.
    destruct (str_eqb_spec (c :: s) (js ".md")) as [E|E].
    + rewrite E. cbn [orb]. unfold consumed. cbn [rest]. simpl. now rewrite app_nil_r.
    + cbn [orb]. rewrite IH. destruct (endsWith s (js ".md")) eqn:Es; [|reflexivity].
      f_equal. f_equal. cbn [rev]. rewrite <- app_assoc. f_equal.
      apply endsWith_suffix in Es. destruct Es as [t ->].
      change (js ".md") with [cu "."; cu "m"; cu "d"].
      replace (length (c :: t ++ [cu "."; cu "m"; cu "d"]) - 3) with (S (length t))
        by (simpl; rewrite length_app; simpl; lia).
      replace (length (t ++ [cu "."; cu "m"; cu "d"]) - 3) with (length t)
        by (rewrite length_app; simpl; lia).
      reflexivity.
Qed.

Lemma replace_mdSuffix (s : jsstring) :
  replaceFirst mdSuffixRegex [] s = stripMdSuffix s.
Proof.
  unfold replaceFirst, exec, stripMdSuffix. rewrite execFrom_mdSuffix.
  destruct (endsWith s (js ".md")); [|reflexivity]. simpl. now rewrite app_nil_r.
Qed.

(** ** What a link target is replaced by *)

Lemma truthy_present (v : option jsstring) :
  truthy v = match present v with Some _ => true | None => false end.
Proof. destruct v as [[|c u]|]; reflexivity. Qed.

Lemma text_present (v : option jsstring) (u : jsstring) : present v = Some u -> text v = u.
Proof. destruct v as [[|c w]|]; simpl; congruence. Qed.

Lemma rewriteLink_linkMatch (reg : registry) (linkText target post : jsstring) :
  rewriteLink reg (linkMatch linkText target post) =
  (url <- rewrittenTarget reg target ;; Ok (linkTo linkText url)).
Proof.
  unfold rewriteLink, rewrittenTarget, linkMatch, group. cbn [groups assoc Nat.eqb matched].
  destruct (startsWith target (js "http")); [reflexivity|].
  rewrite replace_leadingSlash.
  destruct (decodeURIComponent (stripLeadingSlash target)) as [d|e]; [|reflexivity].
  cbn [bind]. rewrite replace_mdSuffix. unfold resolvedTarget, orJs.
  rewrite (truthy_present (map_get (stripMdSuffix d) (documentUrlMap reg))).
  destruct (present (map_get (stripMdSuffix d) (documentUrlMap reg))) as [u|] eqn:E1.
  - rewrite truthy_present, E1. now rewrite (text_present _ E1).
  - rewrite truthy_present.
    destruct (present (map_get (stripMdSuffix d ++ js ".md") (documentUrlMap reg))) as [u|] eqn:E2.
    + now rewrite (text_present _ E2).
    + rewrite truthy_present.
      destruct (present (map_get target (attachmentUrlMap reg))) as [u|] eqn:E3.
      * now rewrite (text_present _ E3).
      * reflexivity.
Qed.

(** ** Links in their context *)

Lemma rewriteLinkAt_None (s : jsstring) : ~ isLink s -> rewriteLinkAt s = None.
Proof.
  intros H. destruct (rewriteLinkAt s) as [[[linkText target] post]|] eqn:E; [|reflexivity].
  exfalso. apply H. apply rewriteLinkAt_Some in E. now exists linkText, target, post.
Qed.

Lemma linkFree_cons (c : N) (pre follow : jsstring) :
  linkFree (c :: pre) follow -> ~ isLink (c :: pre ++ follow) /\ linkFree pre follow.
Proof.
  intros H. split.
  - apply (H [] (c :: pre)); [reflexivity | discriminate].
  - intros p1 p2 -> Hne. apply (H (c :: p1) p2); [reflexivity | assumption].
Qed.

Lemma without_linkFree (pre follow : jsstring) :
  without (cu "[") pre -> linkFree pre follow.
Proof.
  intros H p1 p2 -> Hne [linkText [target [post [E _]]]].
  apply Forall_app in H. destruct H as [_ H].
  destruct p2 as [|c p2]; [congruence|]. inversion H as [|? ? Hc _]; subst.
  rewrite linkTo_cons in E. simpl in E. congruence.
Qed.

Lemma rewriteLinks_linkFree (reg : registry) (pre s : jsstring) :
  linkFree pre s ->
  rewriteLinks reg (pre ++ s) = (t <- rewriteLinks reg s ;; Ok (pre ++ t)).
Proof.
  induction pre as [|c pre IH]; intros H.
  - simpl. destruct (rewriteLinks reg s); reflexivity.
  - apply linkFree_cons in H. destruct H as [Hc H]. simpl.
    rewrite rewriteLinks_skip by now apply rewriteLinkAt_None.
    rewrite IH by assumption. destruct (rewriteLinks reg s); reflexivity.
Qed.

(** The link-substitution step on a link in its context. *)
Lemma rewriteLinks_in_context (reg : registry) (pre linkText target post : jsstring) :
  linkFree pre (linkTo linkText target ++ post) ->
  linkText <> [] -> without (cu "]") linkText ->
  target <> [] -> without (cu ")") target ->
  rewriteLinks reg (pre ++ linkTo linkText target ++ post) =
  (url <- rewrittenTarget reg target ;;
   t <- rewriteLinks reg post ;;
   Ok (pre ++ linkTo linkText url ++ t)).
Proof.
  intros Hfree H1 H2 H3 H4.
  rewrite rewriteLinks_linkFree by assumption.
  rewrite (@rewriteLinks_link reg _ linkText target post)
    by (apply rewriteLinkAt_Some; repeat split; assumption).
  rewrite rewriteLink_linkMatch.
  destruct (rewrittenTarget reg target) as [url|e]; [|reflexivity]. cbn [bind].
  destruct (rewriteLinks reg post) as [t|e]; reflexivity.
Qed.

(** ** C1 *)




(** ** The pattern of [scanMarkdownLinks] *)

Lemma bracket_matcher (x : mstate) (k : cont) :
  matcher false
    (rseq [chr "["; RStar (ANotSet [cu "]"]); chr "]"; chr "(";
           RGroup 2 (RPlus (ANotSet [cu ")"])); chr ")"]) x k =
  match bracketAt (rest x) with
  | Some (target, s5) => k (MState (Some (cu ")")) s5 ((2, target) :: caps x))
  | None => None
  end.
Proof.
  unfold bracketAt, chr; simpl.
  rewrite one_char.
  destruct (rest x) as [|c s1]; [reflexivity|].
  destruct (N.eqb c (cu "[")) eqn:Ec; [|reflexivity].
  cbn [prev rest caps].
  rewrite (starGreedy_ext _ (notChar (cu "]"))) by apply atom_match_notset.
  rewrite starGreedy_commit.
  2:{ intros pv' cs' c' s' Hc'. rewrite one_char; simpl.
      apply notChar_true in Hc'. apply N.eqb_neq in Hc'. now rewrite Hc'. }
  rewrite one_char; simpl.
  destruct (dropWhile (notChar (cu "]")) s1) as [|c2 s2] eqn:E2; [reflexivity|].
  assert (Hc2 : c2 = cu "]") by (apply notChar_false; eapply dropWhile_head; eassumption).
  subst c2. rewrite N.eqb_refl.
  rewrite one_char; simpl.
  destruct s2 as [|c3 s3]; [reflexivity|].
  destruct (N.eqb c3 (cu "(")) eqn:Ec3; [|reflexivity].
  rewrite (plusGreedy_ext _ (notChar (cu ")"))) by apply atom_match_notset.
  rewrite plusGreedy_commit.
  2:{ intros pv' cs' c' s' Hc'. rewrite one_char; simpl.
      apply notChar_true in Hc'. apply N.eqb_neq in Hc'. now rewrite Hc'. }
  simpl.
  destruct (takeWhile (notChar (cu ")")) s3) as [|u0 u1] eqn:Eu; [reflexivity|].
  rewrite one_char; simpl.
  destruct (dropWhile (notChar (cu ")")) s3) as [|c5 s5] eqn:E5; [reflexivity|].
  assert (Hc5 : c5 = cu ")") by (apply notChar_false; eapply dropWhile_head; eassumption).
  subst c5. rewrite N.eqb_refl.
  rewrite <- E5, consumed_takeWhile, Eu.
  reflexivity.
Qed.

Lemma bracketAt_not_bracket (c : N) (s : jsstring) :
  c <> cu "[" -> bracketAt (c :: s) = None.
Proof. intros H. simpl. apply N.eqb_neq in H. now rewrite H. Qed.

Lemma matchHere_linkRegex (pv : option N) (s : jsstring) :
  matchHere linkRegex pv s =
  match scanLinkAt s with
  | Some (target, s5) =>
      Some (MState (Some (cu ")")) s5
              [(1, firstn (length s - length s5) s); (2, target)])
  | None => None
  end.
Proof.
  unfold matchHere, scanLinkAt.
  change (matcher (multiline_flag linkRegex) (expr linkRegex) (MState pv s []) (fun y => Some y))
    with (orElse
            (one (atom_match (AChar (cu "!"))) (MState pv s [])
               (fun y => matcher false
                  (rseq [chr "["; RStar (ANotSet [cu "]"]); chr "]"; chr "(";
                         RGroup 2 (RPlus (ANotSet [cu ")"])); chr ")"]) y
                  (fun z => Some (MState (prev z) (rest z)
                                    ((1, consumed (MState pv s []) z) :: caps z)))))
            (fun _ => matcher false
                  (rseq [chr "["; RStar (ANotSet [cu "]"]); chr "]"; chr "(";
                         RGroup 2 (RPlus (ANotSet [cu ")"])); chr ")"]) (MState pv s [])
                  (fun z => Some (MState (prev z) (rest z)
                                    ((1, consumed (MState pv s []) z) :: caps z))))).
  rewrite one_char. cbn [rest caps].
  destruct s as [|c s']; [reflexivity|].
  destruct (N.eqb_spec c (cu "!")) as [->|Hc].
  - rewrite bracket_matcher. cbn [rest caps].
    destruct (bracketAt s') as [[target s5]|]; cbn [orElse]; [reflexivity|].
    rewrite bracket_matcher. cbn [rest].
    now rewrite bracketAt_not_bracket by discriminate.
  - cbn [orElse]. rewrite bracket_matcher. cbn [rest caps].
    destruct (bracketAt (c :: s')) as [[target s5]|]; reflexivity.
Qed.

Lemma bracketAt_Some (s target post : jsstring) :
  bracketAt s = Some (target, post) <->
  exists linkText,
    s = linkTo linkText target ++ post /\
    without (cu "]") linkText /\ target <> [] /\ without (cu ")") target.
Proof.
  split.
  - unfold bracketAt. destruct s as [|c s1]; [discriminate|].
    destruct (N.eqb_spec c (cu "[")) as [->|]; [|discriminate].
    remember (takeWhile (notChar (cu "]")) s1) as t eqn:Et. symmetry in Et.
    destruct (dropWhile (notChar (cu "]")) s1) as [|c1 [|c2 s3]] eqn:Ed; try discriminate.
    destruct (N.eqb_spec c2 (cu "(")) as [->|]; [|discriminate].
    destruct (takeWhile (notChar (cu ")")) s3) as [|u0 u1] eqn:Eu; [discriminate|].
    destruct (dropWhile (notChar (cu ")")) s3) as [|c5 s5] eqn:Ed'; [discriminate|].
    intros H; injection H as <- <-.
    assert (c1 = cu "]") by (apply notChar_false; eapply dropWhile_head; eassumption).
    assert (c5 = cu ")") by (apply notChar_false; eapply dropWhile_head; eassumption).
    subst c1 c5.
    destruct (span_inv _ Et Ed) as [-> Ht]. destruct (span_inv _ Eu Ed') as [-> Hu].
    exists t.
    repeat split; try assumption; try discriminate.
    rewrite linkTo_cons.
    simpl. f_equal. rewrite <- !app_assoc. simpl. now rewrite <- !app_assoc.
  - intros [linkText [-> [Ht [Hne' Hu]]]]. unfold bracketAt. rewrite linkTo_cons.
    simpl. rewrite <- app_assoc. simpl.
    destruct (span_until (cu "(" :: (target ++ [cu ")"]) ++ post) Ht) as [_ ->].
    rewrite N.eqb_refl. rewrite <- app_assoc. simpl.
    destruct (span_until post Hu) as [-> ->].
    destruct target as [|u0 u1]; [congruence|]. reflexivity.
Qed.

Lemma bracketAt_shorter (s target post : jsstring) :
  bracketAt s = Some (target, post) -> length post < length s.
Proof.
  intros H. apply bracketAt_Some in H. destruct H as [linkText [-> _]].
  rewrite linkTo_cons. simpl. rewrite length_app. lia.
Qed.

Lemma scanLinkAt_shorter (s target post : jsstring) :
  scanLinkAt s = Some (target, post) -> length post < length s.
Proof.
  unfold scanLinkAt. destruct s as [|c s']; [discriminate|].
  destruct (N.eqb c (cu "!")); intros H; apply bracketAt_shorter in H; simpl in *; lia.
Qed.

Lemma linkRegex_anchor_free (pv pv' : option N) (s : jsstring) :
  matchHere linkRegex pv s = matchHere linkRegex pv' s.
Proof. now rewrite !matchHere_linkRegex. Qed.

Lemma linkRegex_never_empty (pv : option N) (s : jsstring) (y : mstate) :
  matchHere linkRegex pv s = Some y -> length (rest y) < length s.
Proof.
  rewrite matchHere_linkRegex.
  destruct (scanLinkAt s) as [[target post]|] eqn:E; [|discriminate].
  intros H; injection H as <-. now apply scanLinkAt_shorter in E.
Qed.

Lemma scanMarkdownLinks_targets (content sourcePath : jsstring) :
  scanMarkdownLinks content sourcePath =
  fold_left (record sourcePath) (scanTargets content) (Links [] []).
Proof.
  unfold scanMarkdownLinks, scanTargets. generalize (Links [] []).
  induction (matchAll linkRegex content) as [|m ms IH]; intros acc; [reflexivity|].
  simpl. rewrite IH. reflexivity.
Qed.

Lemma scanTargets_nil : scanTargets [] = [].
Proof. unfold scanTargets. now rewrite (@matchAll_nil _ linkRegex_never_empty). Qed.

Lemma scanTargets_link (s target post : jsstring) :
  scanLinkAt s = Some (target, post) ->
  scanTargets s = target :: scanTargets post.
Proof.
  intros E. unfold scanTargets.
  assert (Hm : matchHere linkRegex None s =
               Some (MState (Some (cu ")")) post
                       [(1, firstn (length s - length post) s); (2, target)]))
    by now rewrite matchHere_linkRegex, E.
  rewrite (@matchAll_hit _ linkRegex_anchor_free linkRegex_never_empty _ _ Hm).
  reflexivity.
Qed.

Lemma scanTargets_skip (c : N) (s : jsstring) :
  scanLinkAt (c :: s) = None -> scanTargets (c :: s) = scanTargets s.
Proof.
  intros E. unfold scanTargets.
  assert (Hg : forall ms, map (group 2) ms = map (fun g => match assoc 2 g with Some v => v | None => [] end) (map groups ms)).
  { intros ms. rewrite map_map. reflexivity. }
  rewrite !Hg. f_equal.
  apply (@matchAll_miss _ linkRegex_anchor_free linkRegex_never_empty).
  now rewrite matchHere_linkRegex, E.
Qed.

(** ** Maps *)

Lemma map_get_set_same (V : Type) (k : jsstring) (v : V) (m : jsmap V) :
  map_get k (map_set k v m) = Some v.
Proof.
  induction m as [|[k' v'] m IH]; simpl.
  - now rewrite str_eqb_refl.
  - destruct (str_eqb k k') eqn:E; simpl; rewrite ?str_eqb_refl, ?E; auto.
Qed.

Lemma map_get_set_other (V : Type) (k k' : jsstring) (v : V) (m : jsmap V) :
  k <> k' -> map_get k (map_set k' v m) = map_get k m.
Proof.
  intros H. induction m as [|[k'' v''] m IH]; simpl.
  - apply str_eqb_neq in H. now rewrite H.
  - destruct (str_eqb_spec k' k'') as [<-|E]; simpl.
    + apply str_eqb_neq in H. now rewrite H.
    + destruct (str_eqb k k''); auto.
Qed.

(** ** What the scanner records *)

Lemma record_class (sourcePath : jsstring) (acc : links) (target : jsstring) :
  record sourcePath acc target =
  match classify target with
  | External => acc
  | DocumentLink =>
      Links (attachmentLinks acc) (map_set target sourcePath (documentLinks acc))
  | AttachmentLink =>
      Links (map_set target sourcePath (attachmentLinks acc)) (documentLinks acc)
  end.
Proof.
  unfold record, scanMatch, classify, group. cbn [groups assoc Nat.eqb].
  destruct (startsWith target (js "http://")); cbn [negb andb orb]; [reflexivity|].
  destruct (startsWith target (js "https://")); cbn [negb andb orb]; [reflexivity|].
  destruct (endsWith target (js ".md")); reflexivity.
Qed.

Lemma fold_record_attachments (sourcePath : jsstring) (ts : list jsstring) :
  forall a d d',
    attachmentLinks (fold_left (record sourcePath) ts (Links a d)) =
    attachmentLinks (fold_left (record sourcePath) ts (Links a d')).
Proof.
  induction ts as [|t ts IH]; intros a d d'; [reflexivity|].
  simpl. rewrite !record_class. destruct (classify t); cbn [attachmentLinks documentLinks]; apply IH.
Qed.

Lemma fold_record_documents (sourcePath : jsstring) (ts : list jsstring) :
  forall a a' d,
    documentLinks (fold_left (record sourcePath) ts (Links a d)) =
    documentLinks (fold_left (record sourcePath) ts (Links a' d)).
Proof.
  induction ts as [|t ts IH]; intros a a' d; [reflexivity|].
  simpl. rewrite !record_class. destruct (classify t); cbn [attachmentLinks documentLinks]; apply IH.
Qed.

Lemma fold_record_keeps_document (sourcePath k : jsstring) (ts : list jsstring) :
  forall acc,
    map_get k (documentLinks acc) = Some sourcePath ->
    map_get k (documentLinks (fold_left (record sourcePath) ts acc)) = Some sourcePath.
Proof.
  induction ts as [|t ts IH]; intros acc H; [assumption|].
  simpl. apply IH. rewrite record_class.
  destruct (classify t); cbn [documentLinks]; try assumption.
  destruct (str_eqb_spec k t) as [->|E].
  - apply map_get_set_same.
  - now rewrite map_get_set_other.
Qed.

Lemma fold_record_keeps_attachment (sourcePath k : jsstring) (ts : list jsstring) :
  forall acc,
    map_get k (attachmentLinks acc) = Some sourcePath ->
    map_get k (attachmentLinks (fold_left (record sourcePath) ts acc)) = Some sourcePath.
Proof.
  induction ts as [|t ts IH]; intros acc H; [assumption|].
  simpl. apply IH. rewrite record_class.
  destruct (classify t); cbn [attachmentLinks]; try assumption.
  destruct (str_eqb_spec k t) as [->|E].
  - apply map_get_set_same.
  - now rewrite map_get_set_other.
Qed.

Lemma bracketAt_None (s : jsstring) : ~ opensLink s -> bracketAt s = None.
Proof.
  intros H. destruct (bracketAt s) as [[target post]|] eqn:E; [|reflexivity].
  exfalso. apply H. apply bracketAt_Some in E. destruct E as [linkText E].
  now exists linkText, target, post.
Qed.

Lemma bracketFree_cons (c : N) (pre follow : jsstring) :
  bracketFree (c :: pre) follow -> ~ opensLink (c :: pre ++ follow) /\ bracketFree pre follow.
Proof.
  intros H. split.
  - apply (H [] (c :: pre)); [reflexivity | discriminate].
  - intros p1 p2 -> Hne. apply (H (c :: p1) p2); [reflexivity | assumption].
Qed.

Lemma without_bracketFree (pre follow : jsstring) :
  without (cu "[") pre -> bracketFree pre follow.
Proof.
  intros H p1 p2 -> Hne [linkText [target [post [E _]]]].
  apply Forall_app in H. destruct H as [_ H].
  destruct p2 as [|c p2]; [congruence|]. inversion H as [|? ? Hc _]; subst.
  rewrite linkTo_cons in E. simpl in E. congruence.
Qed.

Lemma scanLinkAt_link (bang linkText target post : jsstring) :
  bang = [] \/ bang = [cu "!"] ->
  without (cu "]") linkText -> target <> [] -> without (cu ")") target ->
  scanLinkAt (bang ++ linkTo linkText target ++ post) = Some (target, post).
Proof.
  intros Hb H1 H2 H3.
  assert (E : bracketAt (linkTo linkText target ++ post) = Some (target, post)).
  { apply bracketAt_Some. exists linkText. repeat split; assumption. }
  destruct Hb as [->| ->].
  - rewrite linkTo_cons in *. exact E.
  - exact E.
Qed.

(** The scanner goes over a text in which it finds no link; an
    exclamation mark at the end of that text may be taken into the match,
    which leaves target and rest as they are. *)
Lemma scanTargets_bracketFree (pre bang linkText target post : jsstring) :
  bang = [] \/ bang = [cu "!"] ->
  bracketFree pre (bang ++ linkTo linkText target ++ post) ->
  without (cu "]") linkText -> target <> [] -> without (cu ")") target ->
  scanTargets (pre ++ bang ++ linkTo linkText target ++ post) = target :: scanTargets post.
Proof.
  intros Hb Hpre H1 H2 H3.
  assert (E0 : bracketAt (linkTo linkText target ++ post) = Some (target, post)).
  { apply bracketAt_Some. exists linkText. repeat split; assumption. }
  induction pre as [|c pre IH].
  - apply scanTargets_link. now apply scanLinkAt_link.
  - apply bracketFree_cons in Hpre. destruct Hpre as [Hc Hpre].
    specialize (IH Hpre). cbn [app].
    destruct (scanLinkAt (c :: pre ++ bang ++ linkTo linkText target ++ post))
      as [[target' post']|] eqn:E.
    + rewrite (@scanTargets_link _ _ _ E).
      unfold scanLinkAt in E.
      destruct (N.eqb c (cu "!")).
      * destruct pre as [|c' pre].
        -- cbn [app] in E. destruct Hb as [->| ->]; cbn [app] in E.
           ++ rewrite E0 in E. now injection E as <- <-.
           ++ rewrite bracketAt_not_bracket in E by discriminate. discriminate.
        -- rewrite bracketAt_None in E; [discriminate|].
           apply (Hpre [] (c' :: pre)); [reflexivity | discriminate].
      * rewrite bracketAt_None in E; [discriminate | exact Hc].
    + rewrite (@scanTargets_skip _ _ E). exact IH.
Qed.

(** The scan of a content with a link in front. *)
Lemma scanMarkdownLinks_in_context
    (pre bang linkText target post sourcePath : jsstring) :
  bang = [] \/ bang = [cu "!"] ->
  bracketFree pre (bang ++ linkTo linkText target ++ post) ->
  without (cu "]") linkText -> target <> [] -> without (cu ")") target ->
  scanMarkdownLinks (pre ++ bang ++ linkTo linkText target ++ post) sourcePath =
  fold_left (record sourcePath) (scanTargets post) (record sourcePath (Links [] []) target).
Proof.
  intros Hb Hpre H1 H2 H3.
  rewrite scanMarkdownLinks_targets.
  rewrite (@scanTargets_bracketFree pre bang linkText target post Hb Hpre H1 H2 H3).
  reflexivity.
Qed.

(** What the scan of a content with a link in front holds for that link. *)
Lemma scanMarkdownLinks_recorded
    (pre bang linkText target post sourcePath : jsstring) :
  bang = [] \/ bang = [cu "!"] ->
  bracketFree pre (bang ++ linkTo linkText target ++ post) ->
  without (cu "]") linkText -> target <> [] -> without (cu ")") target ->
  let found := scanMarkdownLinks (pre ++ bang ++ linkTo linkText target ++ post) sourcePath in
  let others := scanMarkdownLinks post sourcePath in
  match classify target with
  | External => found = others
  | DocumentLink =>
      map_get target (documentLinks found) = Some sourcePath
      /\ attachmentLinks found = attachmentLinks others
  | AttachmentLink =>
      map_get target (attachmentLinks found) = Some sourcePath
      /\ documentLinks found = documentLinks others
  end.
Proof.
  intros Hb Hpre H1 H2 H3 found others. subst found others.
  rewrite (@scanMarkdownLinks_in_context pre bang linkText target post sourcePath Hb Hpre H1 H2 H3).
  rewrite (scanMarkdownLinks_targets post), record_class.
  destruct (classify target); cbn [attachmentLinks documentLinks].
  - reflexivity.
  - split; [|apply fold_record_attachments].
    apply fold_record_keeps_document. cbn [documentLinks map_set map_get].
    now rewrite str_eqb_refl.
  - split; [|apply fold_record_documents].
    apply fold_record_keeps_attachment. cbn [attachmentLinks map_set map_get].
    now rewrite str_eqb_refl.
Qed.

(** ** C7 *)

Lemma otherKeys_set (t k v : jsstring) (m : jsmap jsstring) :
  otherKeys t (map_set k v m) =
  if str_eqb k t then otherKeys t m else map_set k v (otherKeys t m).
Proof.
  unfold otherKeys. induction m as [|[k' v'] m IH].
  - cbn [map_set filter fst]. destruct (str_eqb k t); reflexivity.
  - cbn [map_set]. destruct (str_eqb_spec k k') as [<-|Hne].
    + cbn [filter fst]. destruct (str_eqb k t) eqn:E; cbn [negb]; [reflexivity|].
      cbn [map_set]. now rewrite str_eqb_refl.
    + cbn [filter fst]. rewrite IH.
      destruct (str_eqb_spec k t) as [->|Hkt].
      * reflexivity.
      * destruct (str_eqb k' t); cbn [negb]; [reflexivity|].
        cbn [map_set]. apply str_eqb_neq in Hne. now rewrite Hne.
Qed.

Lemma map_set_first (t v k : jsstring) (m : jsmap jsstring) :
  map_set k v ((t, v) :: m) = if str_eqb k t then (t, v) :: m else (t, v) :: map_set k v m.
Proof.
  cbn [map_set]. destruct (str_eqb_spec k t) as [->|]; reflexivity.
Qed.

(** A link recorded first stays first; the links recorded after it come
    in the order in which they come without it. *)
Lemma fold_record_first (sourcePath target : jsstring) (ts : list jsstring) :
  forall acc1 acc2,
    (documentLinks acc1 = (target, sourcePath) :: otherKeys target (documentLinks acc2)
     /\ attachmentLinks acc1 = attachmentLinks acc2) ->
    let r1 := fold_left (record sourcePath) ts acc1 in
    let r2 := fold_left (record sourcePath) ts acc2 in
    documentLinks r1 = (target, sourcePath) :: otherKeys target (documentLinks r2)
    /\ attachmentLinks r1 = attachmentLinks r2.
Proof.
  induction ts as [|t ts IH]; intros acc1 acc2 H; [exact H|].
  cbn [fold_left]. apply IH. destruct H as [Hd Ha]. rewrite !record_class.
  destruct (classify t); cbn [documentLinks attachmentLinks].
  - now split.
  - split; [|exact Ha]. rewrite Hd, map_set_first, otherKeys_set.
    destruct (str_eqb t target); reflexivity.
  - split; [exact Hd|]. now rewrite Ha.
Qed.

Lemma fold_record_first_attachment (sourcePath target : jsstring) (ts : list jsstring) :
  forall acc1 acc2,
    (attachmentLinks acc1 = (target, sourcePath) :: otherKeys target (attachmentLinks acc2)
     /\ documentLinks acc1 = documentLinks acc2) ->
    let r1 := fold_left (record sourcePath) ts acc1 in
    let r2 := fold_left (record sourcePath) ts acc2 in
    attachmentLinks r1 = (target, sourcePath) :: otherKeys target (attachmentLinks r2)
    /\ documentLinks r1 = documentLinks r2.
Proof.
  induction ts as [|t ts IH]; intros acc1 acc2 H; [exact H|].
  cbn [fold_left]. apply IH. destruct H as [Ha Hd]. rewrite !record_class.
  destruct (classify t); cbn [documentLinks attachmentLinks].
  - now split.
  - split; [exact Ha|]. now rewrite Hd.
  - split; [|exact Hd]. rewrite Ha, map_set_first, otherKeys_set.
    destruct (str_eqb t target); reflexivity.
Qed.

(** What the scan of a content with a link in front is made of. *)
Lemma scanMarkdownLinks_first
    (pre bang linkText target post sourcePath : jsstring) :
  bang = [] \/ bang = [cu "!"] ->
  bracketFree pre (bang ++ linkTo linkText target ++ post) ->
  without (cu "]") linkText -> target <> [] -> without (cu ")") target ->
  let found := scanMarkdownLinks (pre ++ bang ++ linkTo linkText target ++ post) sourcePath in
  let others := scanMarkdownLinks post sourcePath in
  match classify target with
  | External => found = others
  | DocumentLink =>
      documentLinks found = (target, sourcePath) :: otherKeys target (documentLinks others)
      /\ attachmentLinks found = attachmentLinks others
  | AttachmentLink =>
      attachmentLinks found = (target, sourcePath) :: otherKeys target (attachmentLinks others)
      /\ documentLinks found = documentLinks others
  end.
Proof.
  intros Hb Hpre H1 H2 H3 found others. subst found others.
  rewrite (@scanMarkdownLinks_in_context pre bang linkText target post sourcePath Hb Hpre H1 H2 H3).
  rewrite (scanMarkdownLinks_targets post), record_class.
  destruct (classify target); cbn [attachmentLinks documentLinks].
  - reflexivity.
  - apply fold_record_first. now split.
  - apply fold_record_first_attachment. now split.
Qed.

Lemma scanTargets_bracketFree_nil (s : jsstring) :
  bracketFree s [] -> scanTargets s = [].
Proof.
  induction s as [|c s IH]; intros H; [apply scanTargets_nil|].
  apply bracketFree_cons in H. destruct H as [Hc H].
  rewrite scanTargets_skip; [now apply IH|].
  unfold scanLinkAt. destruct (N.eqb c (cu "!")).
  - destruct s as [|c' s']; [reflexivity|]. apply bracketAt_None.
    specialize (H [] (c' :: s') eq_refl). rewrite app_nil_r in H. apply H. discriminate.
  - apply bracketAt_None. now rewrite app_nil_r in Hc.
Qed.

Lemma bracketFree_or_link (content : jsstring) :
  bracketFree content []
  \/ exists pre linkText target post,
       content = pre ++ linkTo linkText target ++ post
       /\ bracketFree pre (linkTo linkText target ++ post)
       /\ without (cu "]") linkText /\ target <> [] /\ without (cu ")") target.
Proof.
  induction content as [|c s IH].
  - left. intros p1 p2 E Hne. destruct p1, p2; try discriminate. congruence.
  - destruct (bracketAt (c :: s)) as [[target post]|] eqn:E.
    + apply bracketAt_Some in E. destruct E as [linkText [E [H1 [H2 H3]]]].
      right. exists [], linkText, target, post. repeat split; try assumption.
      intros p1 p2 Ep Hne. destruct p1, p2; try discriminate. congruence.
    + assert (Hno : ~ opensLink (c :: s)).
      { intros [linkText [target [post [Es [H1 [H2 H3]]]]]].
        assert (Hs : bracketAt (c :: s) = Some (target, post)).
        { apply bracketAt_Some. exists linkText. now repeat split. }
        congruence. }
      destruct IH as [Hfree | [pre [linkText [target [post [Es [Hfree [H1 [H2 H3]]]]]]]]].
      * left. intros p1 p2 Ep Hne. destruct p1 as [|c1 p1].
        -- cbn [app] in Ep. subst p2. now rewrite app_nil_r.
        -- cbn [app] in Ep. injection Ep as _ Ep. now apply (Hfree p1 p2).
      * right. exists (c :: pre), linkText, target, post. repeat split; try assumption.
        -- cbn [app]. now rewrite Es.
        -- intros p1 p2 Ep Hne. destruct p1 as [|c1 p1].
           ++ cbn [app] in Ep. subst p2. cbn [app]. now rewrite <- Es.
           ++ cbn [app] in Ep. injection Ep as _ Ep. now apply (Hfree p1 p2).
Qed.

(** C7.  Every content either holds no link for the scanner, and then the
    scan is empty, or has a first link, with or without a leading
    exclamation mark and with any text between its brackets.  The scan is
    then that of the bare link [[](target)] followed by the same rest, and
    it is made from the scan of the rest in this way: a target that starts
    with [http://] or [https://] adds nothing; a target that ends with
    [.md] is put in front of the document links of the rest, under the
    target as written and with the source path as value, the entry that the
    rest has under the same key being left out, and the attachment links
    are those of the rest; any other target is put in front of the
    attachment links of the rest in the same way, and the document links are
    those of the rest.  The example of the specification yields one
    document link and one attachment link. *)
Theorem scanMarkdownLinks_classifies :
  (forall pre bang linkText target post sourcePath,
      bang = [] \/ bang = [cu "!"] ->
      bracketFree pre (bang ++ linkTo linkText target ++ post) ->
      without (cu "]") linkText -> target <> [] -> without (cu ")") target ->
      let found := scanMarkdownLinks (pre ++ bang ++ linkTo linkText target ++ post) sourcePath in
      let others := scanMarkdownLinks post sourcePath in
      found = scanMarkdownLinks (linkTo [] target ++ post) sourcePath
      /\ match classify target with
         | External => found = others
         | DocumentLink =>
             map_get target (documentLinks found) = Some sourcePath
             /\ attachmentLinks found = attachmentLinks others
             /\ documentLinks found
                = (target, sourcePath) :: otherKeys target (documentLinks others)
         | AttachmentLink =>
             map_get target (attachmentLinks found) = Some sourcePath
             /\ documentLinks found = documentLinks others
             /\ attachmentLinks found
                = (target, sourcePath) :: otherKeys target (attachmentLinks others)
         end)
  /\ (forall content sourcePath,
         bracketFree content [] -> scanMarkdownLinks content sourcePath = Links [] [])
  /\ (forall content,
         bracketFree content []
         \/ exists pre linkText target post,
              content = pre ++ linkTo linkText target ++ post
              /\ bracketFree pre (linkTo linkText target ++ post)
              /\ without (cu "]") linkText /\ target <> [] /\ without (cu ")") target)
  /\ (forall sourcePath,
         scanMarkdownLinks scanExample sourcePath =
         Links [(js "a.png", sourcePath)] [(js "other.md", sourcePath)]).
Proof.
  split; [|split; [|split]].
  - intros pre bang linkText target post sourcePath Hb Hpre H1 H2 H3 found others.
    subst found others. split.
    + rewrite (@scanMarkdownLinks_in_context pre bang linkText target post sourcePath
                 Hb Hpre H1 H2 H3).
      symmetry.
      apply (@scanMarkdownLinks_in_context [] [] [] target post sourcePath);
        try assumption; [now left | | constructor].
      intros p1 p2 E Hne. now destruct p1, p2.
    + pose proof (@scanMarkdownLinks_recorded pre bang linkText target post sourcePath
                    Hb Hpre H1 H2 H3) as Hr.
      pose proof (@scanMarkdownLinks_first pre bang linkText target post sourcePath
                    Hb Hpre H1 H2 H3) as Hf.
      cbv zeta in Hr, Hf. destruct (classify target).
      * exact Hr.
      * destruct Hr as [Hr1 Hr2]. destruct Hf as [Hf1 _]. now repeat split.
      * destruct Hr as [Hr1 Hr2]. destruct Hf as [Hf1 _]. now repeat split.
  - intros content sourcePath H.
    rewrite scanMarkdownLinks_targets, scanTargets_bracketFree_nil by assumption. reflexivity.
  - apply bracketFree_or_link.
  - intros sourcePath. vm_compute. reflexivity.
Qed.

(** C7 at the first link of the example. *)
Lemma scanMarkdownLinks_classifies_witness :
  let found := scanMarkdownLinks scanExample (js "/export/a.md") in
  let others :=
    scanMarkdownLinks (js " and ![pic](a.png) and [ext](https://x.com/y)") (js "/export/a.md") in
  map_get (js "other.md") (documentLinks found) = Some (js "/export/a.md")
  /\ attachmentLinks found = attachmentLinks others
  /\ documentLinks found
     = (js "other.md", js "/export/a.md") :: otherKeys (js "other.md") (documentLinks others).
Proof.
  refine (proj2 (proj1 scanMarkdownLinks_classifies [] [] (js "see") (js "other.md")
                   (js " and ![pic](a.png) and [ext](https://x.com/y)") (js "/export/a.md")
                   _ _ _ _ _)).
  - now left.
  - apply without_bracketFree. constructor.
  - unfold without. repeat constructor; discriminate.
  - discriminate.
  - unfold without. repeat constructor; discriminate.
Defined.

(** ** C9 *)








(** ** The extension of a file name *)

Lemma matchHere_extension (pv : option N) (s : jsstring) :
  matchHere extensionRegex pv s =
  match s with
  | c :: (_ :: _) as e =>
      if N.eqb c (cu ".") && forallb (notChar (cu ".")) e
      then Some (MState (lastOr (Some c) e) [] [])
      else None
  | _ => None
  end.
Proof.
  unfold matchHere.
  change (matcher (multiline_flag extensionRegex) (expr extensionRegex) (MState pv s [])
            (fun y => Some y))
    with (one (atom_match (AChar (cu "."))) (MState pv s [])
            (fun y => one (atom_match (ANotSet [cu "."])) y
               (fun z => starGreedy (atom_match (ANotSet [cu "."]))
                  (fun u => if atEnd false u then Some u else None)
                  (prev z) (caps z) (rest z)))).
  rewrite one_char. cbn [rest caps].
  destruct s as [|c e]; [reflexivity|].
  destruct (N.eqb c (cu ".")) eqn:Ec; [|destruct e; reflexivity].
  rewrite (plusGreedy_ext _ (notChar (cu "."))) by apply atom_match_notset.
  rewrite plusGreedy_commit by (intros; reflexivity).
  cbn [rest prev caps andb].
  destruct e as [|e0 e1]; [reflexivity|].
  destruct (takeWhile (notChar (cu ".")) (e0 :: e1)) as [|t0 t1] eqn:Et.
  - simpl in Et. simpl. destruct (notChar (cu ".") e0); [discriminate | reflexivity].
  - rewrite <- Et. clear Et t0 t1.
    generalize (e0 :: e1) as e. generalize (Some c) as pv'. clear.
    intros pv' e. revert pv'. induction e as [|d e IH]; intros pv'; [reflexivity|].
    simpl. destruct (notChar (cu ".") d); [apply IH | reflexivity].
Qed.

Lemma consumed_all (pv pv' : option N) (t : jsstring) cs cs' :
  consumed (MState pv t cs) (MState pv' [] cs') = t.
Proof.
  unfold consumed. cbn [rest length]. rewrite Nat.sub_0_r. apply firstn_all.
Qed.

Lemma forallb_notChar (d : N) (s : jsstring) :
  forallb (notChar d) s = true <-> without d s.
Proof.
  rewrite without_notChar, forallb_forall, Forall_forall. reflexivity.
Qed.

(** The pattern finds the part of the name from its last dot on, when
    something follows that dot. *)
Lemma exec_extension_suffix (stem e : jsstring) :
  e <> [] -> without (cu ".") e ->
  forall sk pv,
    exists l,
      execFrom extensionRegex sk pv (stem ++ cu "." :: e) =
      Some (Match (rev sk ++ stem) (cu "." :: e) [] l []).
Proof.
  intros Hne He. induction stem as [|c stem IH]; intros sk pv.
  - cbn [app execFrom]. rewrite matchHere_extension.
    destruct e as [|e0 e1]; [congruence|].
    rewrite N.eqb_refl. apply forallb_notChar in He. rewrite He. cbn [andb].
    eexists. rewrite consumed_all. now rewrite app_nil_r.
  - cbn [app execFrom].
    assert (Hf : forallb (notChar (cu ".")) (stem ++ cu "." :: e) = false).
    { apply not_true_is_false. intros H. apply forallb_notChar in H.
      apply Forall_app in H. destruct H as [_ H]. inversion H. congruence. }
    assert (Hm : matchHere extensionRegex pv (c :: stem ++ cu "." :: e) = None).
    { rewrite matchHere_extension. destruct (stem ++ cu "." :: e); [reflexivity|].
      now rewrite Hf, andb_false_r. }
    rewrite Hm.
    destruct (IH (c :: sk) (Some c)) as [l Hl]. exists l. rewrite Hl.
    simpl. now rewrite <- app_assoc.
Qed.

Lemma execFrom_extension_Some :
  forall s sk pv m,
    execFrom extensionRegex sk pv s = Some m ->
    exists e, matched m = cu "." :: e /\ e <> [] /\ without (cu ".") e /\ after m = [].
Proof.
  induction s as [|c s IH]; intros sk pv m H; cbn [execFrom] in H;
    rewrite matchHere_extension in H.
  - discriminate.
  - destruct s as [|e0 e1].
    + simpl in H. discriminate.
    + destruct (N.eqb_spec c (cu ".")) as [->|Hc]; cbn [andb] in H.
      * destruct (forallb (notChar (cu ".")) (e0 :: e1)) eqn:Hf.
        -- injection H as <-. cbn [matched after]. exists (e0 :: e1).
           rewrite consumed_all.
           repeat split; [discriminate | now apply forallb_notChar].
        -- eapply IH; eassumption.
      * eapply IH; eassumption.
Qed.

(** ** C5 *)

Lemma knownExtensions_plain (e : jsstring) :
  In e knownExtensions -> e <> [] /\ without (cu ".") e /\ has mediaExtensions (cu "." :: e) = true.
Proof.
  intros H. simpl in H.
  repeat (destruct H as [<-|H];
          [split; [discriminate | split; [unfold without; repeat constructor; discriminate
                                         | vm_compute; reflexivity]]|]).
  destruct H.
Qed.

Lemma has_mediaExtensions (s : jsstring) :
  has mediaExtensions s = true -> exists e, In e knownExtensions /\ s = cu "." :: e.
Proof.
  unfold has, mediaExtensions. cbn [existsb]. rewrite !orb_true_iff, !str_eqb_eq.
  intros [->|[->|[->|[->|[->|H]]]]]; [ | | | | | discriminate].
  - exists (js "jpg"). split; [simpl; tauto | reflexivity].
  - exists (js "jpeg"). split; [simpl; tauto | reflexivity].
  - exists (js "png"). split; [simpl; tauto | reflexivity].
  - exists (js "gif"). split; [simpl; tauto | reflexivity].
  - exists (js "pdf"). split; [simpl; tauto | reflexivity].
Qed.

Lemma isMediaFile_spec (file : dirent) :
  isMediaFile file = true <-> hasMediaExtension (name file).
Proof.
  unfold isMediaFile, hasMediaExtension, exec. split.
  - destruct (execFrom extensionRegex [] None (toLowerCase (name file))) as [m|] eqn:E;
      [|discriminate].
    rewrite andb_true_iff. intros [_ Hh].
    apply has_mediaExtensions in Hh. destruct Hh as [e [He Hm]].
    pose proof (@execFrom_split _ _ _ _ _ E) as Hs.
    destruct (@execFrom_extension_Some _ _ _ _ E) as [e' [_ [_ [_ Ha]]]].
    exists e, (before m). split; [assumption|].
    simpl in Hs. rewrite Hs, Ha, Hm. now rewrite app_nil_r.
  - intros [e [stem [He Hn]]]. rewrite Hn.
    destruct (@knownExtensions_plain e He) as [Hne [Hd Hh]].
    destruct (@exec_extension_suffix stem e Hne Hd [] None) as [l ->].
    cbn [matched]. now rewrite Hh.
Qed.

(** C5.  For a directory with a listing: [isMediaFolder] is true when the
    base name starts with [media_], whatever the listing; otherwise it is
    true when there is at least one file and every file has a known media
    extension, in any case of letters, false when there is no file, and
    false when some file has no such extension. *)
Theorem isMediaFolder_classifies (fs : filesystem) (dirPath : jsstring) (entries : list dirent) :
  readdir fs dirPath = Ok entries ->
  (startsWith (basename dirPath) (js "media_") = true ->
   isMediaFolder fs dirPath = Ok true)
  /\ (startsWith (basename dirPath) (js "media_") = false ->
      (exists file, In file entries /\ isFile file = true) ->
      (forall file, In file entries -> isFile file = true -> hasMediaExtension (name file)) ->
      isMediaFolder fs dirPath = Ok true)
  /\ (startsWith (basename dirPath) (js "media_") = false ->
      (forall file, In file entries -> isFile file = false) ->
      isMediaFolder fs dirPath = Ok false)
  /\ (startsWith (basename dirPath) (js "media_") = false ->
      (exists file, In file entries /\ isFile file = true /\ ~ hasMediaExtension (name file)) ->
      isMediaFolder fs dirPath = Ok false).
Proof.
  intros Hr. unfold isMediaFolder. repeat split.
  - intros ->. reflexivity.
  - intros -> [file [Hin Hf]] Hall. rewrite Hr. cbn [bind].
    assert (Hin' : In file (filter isFile entries)) by (apply filter_In; now split).
    destruct (filter isFile entries) as [|f fs'] eqn:E; [destruct Hin'|].
    cbn [length Nat.eqb]. f_equal. apply forallb_forall. intros x Hx.
    rewrite <- E in Hx. apply filter_In in Hx. destruct Hx as [Hx1 Hx2].
    apply isMediaFile_spec. now apply Hall.
  - intros -> Hnone. rewrite Hr. cbn [bind].
    replace (filter isFile entries) with (@nil dirent); [reflexivity|].
    symmetry. clear Hr. induction entries as [|e es IH]; [reflexivity|]. simpl.
    rewrite (Hnone e) by now left. apply IH.
    intros file Hin. apply Hnone. now right.
  - intros -> [file [Hin [Hf Hbad]]]. rewrite Hr. cbn [bind].
    assert (Hin' : In file (filter isFile entries)) by (apply filter_In; now split).
    destruct (filter isFile entries) as [|f fs'] eqn:E; [destruct Hin'|].
    cbn [length Nat.eqb]. f_equal. apply not_true_is_false. intros Hall.
    rewrite forallb_forall in Hall. apply Hbad. apply isMediaFile_spec. now apply Hall.
Qed.

(** C5 for a directory with two pictures and a subdirectory. *)
Lemma isMediaFolder_classifies_witness :
  isMediaFolder photosFs (js "export/photos") = Ok true.
Proof.
  refine (proj1 (proj2 (@isMediaFolder_classifies photosFs (js "export/photos")
                          [Dirent (js "A.PNG") KFile; Dirent (js "b.jpeg") KFile;
                           Dirent (js "old") KDirectory] _)) _ _ _).
  - reflexivity.
  - reflexivity.
  - exists (Dirent (js "A.PNG") KFile). split; [now left | reflexivity].
  - intros file [<-|[<-|[<-|[]]]] Hf.
    + exists (js "png"), (js "a"). split; [simpl; tauto | reflexivity].
    + exists (js "jpeg"), (js "b"). split; [simpl; tauto | reflexivity].
    + discriminate.
Defined.

(** ** Paths *)

Lemma split_not_nil (sep : N) (s : jsstring) : split sep s <> [].
Proof.
  induction s as [|c s IH]; simpl; [discriminate|].
  destruct (N.eqb c sep); [discriminate|]. destruct (split sep s); discriminate.
Qed.

Lemma split_app (sep : N) (x t : jsstring) :
  split sep (x ++ sep :: t) = split sep x ++ split sep t.
Proof.
  induction x as [|c x IH]; simpl.
  - now rewrite N.eqb_refl.
  - destruct (N.eqb c sep); [now rewrite IH|].
    rewrite IH. destruct (split sep x) as [|l ls] eqn:E; [|reflexivity].
    now apply split_not_nil in E.
Qed.

Lemma split_pieces (sep : N) (s : jsstring) :
  Forall (without sep) (split sep s).
Proof.
  induction s as [|c s IH]; simpl; [repeat constructor|].
  destruct (N.eqb_spec c sep) as [->|Hc].
  - constructor; [constructor | assumption].
  - destruct (split sep s) as [|l ls]; [repeat constructor; assumption|].
    inversion IH; subst. constructor; [|assumption]. constructor; assumption.
Qed.

Lemma split_without (sep : N) (s : jsstring) : without sep s -> split sep s = [s].
Proof.
  induction 1 as [|c s Hc _ IH]; simpl; [reflexivity|].
  apply N.eqb_neq in Hc. now rewrite Hc, IH.
Qed.

Lemma segments_components (path : jsstring) : Forall component (segments path).
Proof.
  unfold segments. apply Forall_forall. intros seg H. apply filter_In in H.
  destruct H as [Hin Hne]. split.
  - apply negb_true_iff, str_eqb_neq in Hne. exact Hne.
  - pose proof (split_pieces SLASH path) as Hp. rewrite Forall_forall in Hp. now apply Hp.
Qed.

Lemma segments_app (x t : jsstring) :
  segments (x ++ SLASH :: t) = segments x ++ segments t.
Proof. unfold segments. now rewrite split_app, filter_app. Qed.

Lemma segments_join (segs : list jsstring) :
  Forall component segs -> segments (join [SLASH] segs) = segs.
Proof.
  induction 1 as [|seg segs [Hne Hs] Hrest IH]; [reflexivity|].
  assert (Hone : segments seg = [seg]).
  { unfold segments. rewrite split_without by assumption. simpl.
    apply str_eqb_neq in Hne. now rewrite Hne. }
  destruct segs as [|seg' segs'].
  - exact Hone.
  - change (join [SLASH] (seg :: seg' :: segs'))
      with (seg ++ SLASH :: join [SLASH] (seg' :: segs')).
    now rewrite segments_app, Hone, IH.
Qed.

Lemma segments_rooted (segs : list jsstring) (t : jsstring) :
  Forall component segs ->
  segments ((SLASH :: join [SLASH] segs) ++ SLASH :: t) = segs ++ segments t.
Proof.
  intros H. rewrite segments_app. f_equal.
  change (SLASH :: join [SLASH] segs) with ([] ++ SLASH :: join [SLASH] segs).
  rewrite segments_app. now rewrite segments_join.
Qed.

Lemma normalizeSegments_app (al : bool) (xs ys : list jsstring) :
  forall acc,
    normalizeSegments al acc (xs ++ ys) =
    normalizeSegments al (rev (normalizeSegments al acc xs)) ys.
Proof.
  induction xs as [|x xs IH]; intros acc; simpl.
  - now rewrite rev_involutive.
  - destruct (str_eqb x (js ".")); [apply IH|].
    destruct (str_eqb x (js "..")); [|apply IH].
    destruct acc as [|top acc']; [apply IH|].
    destruct (str_eqb top (js "..")); apply IH.
Qed.

Lemma normalizeSegments_plain (al : bool) (xs : list jsstring) :
  Forall plain xs -> forall acc, normalizeSegments al acc xs = rev acc ++ xs.
Proof.
  induction 1 as [|x xs [H1 H2] _ IH]; intros acc; simpl.
  - now rewrite app_nil_r.
  - apply str_eqb_neq in H1, H2. rewrite H1, H2, IH. simpl. now rewrite <- app_assoc.
Qed.

(** Under a root nothing climbs: the result has no [.] and no [..]. *)
Lemma normalizeSegments_rooted_plain (xs : list jsstring) :
  forall acc, Forall plain acc -> Forall plain (normalizeSegments false acc xs).
Proof.
  induction xs as [|x xs IH]; intros acc Hacc; simpl.
  - now apply Forall_rev.
  - destruct (str_eqb_spec x (js ".")) as [|H1]; [now apply IH|].
    destruct (str_eqb_spec x (js "..")) as [|H2].
    + destruct acc as [|top acc']; [now apply IH|].
      inversion Hacc; subst. destruct (str_eqb top (js "..")); now apply IH.
    + apply IH. constructor; [now split | assumption].
Qed.

Lemma normalizeSegments_components (al : bool) (xs : list jsstring) :
  Forall component xs ->
  forall acc, Forall component acc -> Forall component (normalizeSegments al acc xs).
Proof.
  induction 1 as [|x xs Hx _ IH]; intros acc Hacc; simpl.
  - now apply Forall_rev.
  - destruct (str_eqb x (js ".")); [now apply IH|].
    destruct (str_eqb x (js "..")).
    + destruct acc as [|top acc'].
      * apply IH. destruct al; [constructor; [assumption | constructor] | constructor].
      * inversion Hacc; subst. destruct (str_eqb top (js "..")).
        -- apply IH. destruct al; [constructor; assumption | assumption].
        -- now apply IH.
    + apply IH. now constructor.
Qed.

Lemma resolveLoop_acc (l : list jsstring) :
  forall acc, fst (resolveLoop l acc) = fst (resolveLoop l []) ++ acc.
Proof.
  induction l as [|p l IH]; intros acc; simpl; [reflexivity|].
  destruct p as [|c p]; [apply IH|].
  destruct (isAbsolute (c :: p)).
  - simpl. now rewrite <- app_assoc.
  - rewrite IH. rewrite (IH ((c :: p) ++ [SLASH])).
    rewrite <- !app_assoc. reflexivity.
Qed.

Lemma isAbsolute_cons (path : jsstring) :
  isAbsolute path = true -> exists t, path = SLASH :: t.
Proof.
  destruct path as [|c t]; [discriminate|]. simpl. unfold isSlash.
  intros H. apply N.eqb_eq in H. subst. now exists t.
Qed.

Lemma isAbsolute_slash (t : jsstring) : isAbsolute (SLASH :: t) = true.
Proof. reflexivity. Qed.

Lemma resolveLoop_absolute (p : jsstring) (l : list jsstring) (acc : jsstring) :
  isAbsolute p = true -> resolveLoop (p :: l) acc = (p ++ [SLASH] ++ acc, []).
Proof. intros H. destruct p as [|c p]; [discriminate|]. cbn [resolveLoop]. now rewrite H. Qed.

Lemma resolveLoop_relative (c : N) (p : jsstring) (l : list jsstring) (acc : jsstring) :
  isAbsolute (c :: p) = false ->
  resolveLoop ((c :: p) :: l) acc = resolveLoop l ((c :: p) ++ [SLASH] ++ acc).
Proof. intros H. cbn [resolveLoop]. now rewrite H. Qed.

Lemma resolveLoop_rooted (cwd : jsstring) (l : list jsstring) :
  isAbsolute cwd = true ->
  exists y, fst (resolveLoop (l ++ [cwd]) []) = SLASH :: y ++ [SLASH].
Proof.
  intros Hcwd. induction l as [|p l IH].
  - cbn [app]. rewrite resolveLoop_absolute by assumption.
    destruct (isAbsolute_cons _ Hcwd) as [t ->]. exists t. reflexivity.
  - cbn [app]. destruct p as [|c p]; [exact IH|].
    destruct (isAbsolute (c :: p)) eqn:E.
    + rewrite resolveLoop_absolute by assumption.
      destruct (isAbsolute_cons _ E) as [t Ht]. rewrite Ht. exists t. reflexivity.
    + rewrite resolveLoop_relative by assumption.
      rewrite resolveLoop_acc. destruct IH as [y ->].
      exists (y ++ [SLASH] ++ c :: p). cbn [app fst]. rewrite <- !app_assoc. reflexivity.
Qed.

Lemma resolve_rooted (cwd : jsstring) (paths : list jsstring) (y : jsstring) :
  fst (resolveLoop (rev paths ++ [cwd]) []) = SLASH :: y ->
  resolve cwd paths = rooted (segments (SLASH :: y)).
Proof.
  intros H. unfold resolve, rooted. rewrite H. now rewrite isAbsolute_slash.
Qed.

(** Resolving a further path against what was resolved so far. *)
Lemma resolve_last (cwd : jsstring) (paths : list jsstring) (c : jsstring) :
  isAbsolute cwd = true ->
  resolve cwd (paths ++ [c]) = resolve cwd [resolve cwd paths; c].
Proof.
  intros Hcwd.
  destruct (@resolveLoop_rooted cwd (rev paths) Hcwd) as [y Hy].
  pose proof (@resolve_rooted cwd paths (y ++ [SLASH]) Hy) as HA.
  remember (normalizeSegments false [] (segments (SLASH :: y ++ [SLASH]))) as N0 eqn:EN.
  assert (HA' : resolve cwd paths = SLASH :: join [SLASH] N0)
    by (rewrite HA, EN; reflexivity).
  assert (HN : Forall component N0).
  { rewrite EN. apply normalizeSegments_components; [apply segments_components | constructor]. }
  assert (HP : Forall plain N0).
  { rewrite EN. apply normalizeSegments_rooted_plain. constructor. }
  assert (HAabs : isAbsolute (resolve cwd paths) = true)
    by (rewrite HA'; apply isAbsolute_slash).
  assert (Hseg : segments (SLASH :: y ++ [SLASH]) = segments (SLASH :: y)).
  { change (SLASH :: y ++ [SLASH]) with ((SLASH :: y) ++ SLASH :: []).
    rewrite segments_app. change (segments []) with (@nil jsstring). apply app_nil_r. }
  destruct c as [|c0 c'].
  - (* an empty path is skipped *)
    assert (E1 : resolve cwd (paths ++ [[]]) = resolve cwd paths).
    { unfold resolve. rewrite rev_app_distr. reflexivity. }
    transitivity (resolve cwd paths); [exact E1|].
    assert (E2 : fst (resolveLoop (rev [resolve cwd paths; []] ++ [cwd]) [])
                 = SLASH :: join [SLASH] N0 ++ [SLASH]).
    { cbn [rev app].
      change (resolveLoop [[]; resolve cwd paths; cwd] [])
        with (resolveLoop [resolve cwd paths; cwd] []).
      rewrite resolveLoop_absolute by assumption.
      rewrite HA'. reflexivity. }
    symmetry. etransitivity; [exact (@resolve_rooted cwd _ _ E2)|].
    rewrite HA'. unfold rooted.
    f_equal. f_equal.
    change (SLASH :: join [SLASH] N0 ++ [SLASH])
      with ((SLASH :: join [SLASH] N0) ++ SLASH :: []).
    rewrite segments_rooted by assumption.
    change (segments []) with (@nil jsstring). rewrite app_nil_r.
    now rewrite normalizeSegments_plain.
  - destruct (isAbsolute (c0 :: c')) eqn:Ec.
    + (* an absolute path stands alone *)
      unfold resolve. rewrite rev_app_distr. cbn [rev app].
      now rewrite !resolveLoop_absolute by assumption.
    + assert (E1 : fst (resolveLoop (rev (paths ++ [c0 :: c']) ++ [cwd]) [])
                   = SLASH :: y ++ SLASH :: (c0 :: c') ++ [SLASH]).
      { rewrite rev_app_distr. cbn [rev app]. rewrite resolveLoop_relative by assumption.
        rewrite resolveLoop_acc, Hy. cbn [app]. rewrite <- !app_assoc. reflexivity. }
      assert (E2 : fst (resolveLoop (rev [resolve cwd paths; c0 :: c'] ++ [cwd]) [])
                   = SLASH :: join [SLASH] N0 ++ SLASH :: (c0 :: c') ++ [SLASH]).
      { cbn [rev app]. rewrite resolveLoop_relative by assumption.
        rewrite resolveLoop_absolute by assumption.
        rewrite HA'. cbn [app fst]. reflexivity. }
      etransitivity; [exact (@resolve_rooted cwd _ _ E1)|].
      symmetry. etransitivity; [exact (@resolve_rooted cwd _ _ E2)|]. symmetry.
      unfold rooted. f_equal. f_equal.
      change (SLASH :: y ++ SLASH :: (c0 :: c') ++ [SLASH])
        with ((SLASH :: y) ++ SLASH :: (c0 :: c') ++ [SLASH]).
      change (SLASH :: join [SLASH] N0 ++ SLASH :: (c0 :: c') ++ [SLASH])
        with ((SLASH :: join [SLASH] N0) ++ SLASH :: (c0 :: c') ++ [SLASH]).
      rewrite segments_rooted by assumption.
      rewrite segments_app.
      rewrite normalizeSegments_app.
      rewrite (normalizeSegments_app false N0).
      rewrite (@normalizeSegments_plain false N0 HP []). cbn [rev app].
      now rewrite <- Hseg, <- EN.
Qed.

(** ** C6 *)

(** C6.  [resolveAttachmentPath] percent-decodes the reference (and throws
    what the decoding throws); a decoded reference that contains [media_]
    is resolved against the directory of the source document, any other
    against the directory [media_] + base name of the source document
    without [.md] next to the source document.  The two examples of the
    specification hold for every working directory. *)
Theorem resolveAttachmentPath_resolves :
  (forall cwd attachmentPath sourceDocPath,
      isAbsolute cwd = true ->
      resolveAttachmentPath cwd attachmentPath sourceDocPath =
      (decoded <- decodeURIComponent attachmentPath ;;
       Ok (if includes decoded (js "media_")
           then resolve cwd [dirname sourceDocPath; decoded]
           else resolve cwd [mediaDirectoryOf cwd sourceDocPath; decoded])))
  /\ (forall cwd,
         resolveAttachmentPath cwd (js "media_foo/img.png") (js "/a/b/doc.md")
         = Ok (js "/a/b/media_foo/img.png"))
  /\ (forall cwd,
         resolveAttachmentPath cwd (js "img.png") (js "/a/b/doc.md")
         = Ok (js "/a/b/media_doc/img.png")).
Proof.
  split; [|split].
  - intros cwd attachmentPath sourceDocPath Hcwd. unfold resolveAttachmentPath.
    destruct (decodeURIComponent attachmentPath) as [decoded|e]; [|reflexivity].
    cbn [bind]. destruct (includes decoded (js "media_")); [reflexivity|].
    f_equal. unfold mediaDirectoryOf.
    exact (@resolve_last cwd
             [dirname sourceDocPath; js "media_" ++ basenameWithout sourceDocPath (js ".md")]
             decoded Hcwd).
  - intros cwd. vm_compute. reflexivity.
  - intros cwd. vm_compute. reflexivity.
Qed.

(** C6 for an encoded file name and a relative source path. *)
Lemma resolveAttachmentPath_resolves_witness :
  resolveAttachmentPath (js "/home/user/project") (js "my%20file.png")
    (js "slite-backup/channels/team/notes.md")
  = Ok (js "/home/user/project/slite-backup/channels/team/media_notes/my file.png").
Proof.
  rewrite (proj1 resolveAttachmentPath_resolves (js "/home/user/project")
             (js "my%20file.png") (js "slite-backup/channels/team/notes.md")).
  - vm_compute. reflexivity.
  - reflexivity.
Defined.

(** ** Patterns that fail together

    Whether a pattern fails depends on its continuation only through the
    states on which the continuation fails. *)

Lemma orElse_None (a : option mstate) (b : unit -> option mstate) :
  orElse a b = None <-> a = None /\ b tt = None.
Proof. destruct a; simpl; split; try tauto; try (intros [H _]; discriminate); discriminate. Qed.

Lemma starGreedy_failTogether (p : N -> bool) (k1 k2 : cont) :
  failTogether k1 k2 ->
  forall s pv cs, starGreedy p k1 pv cs s = None <-> starGreedy p k2 pv cs s = None.
Proof.
  intros H. induction s as [|c s IH]; intros pv cs; simpl; [apply H|].
  destruct (p c); [|apply H]. rewrite !orElse_None, IH. now rewrite (H _).
Qed.

Lemma starLazy_failTogether (p : N -> bool) (k1 k2 : cont) :
  failTogether k1 k2 ->
  forall s pv cs, starLazy p k1 pv cs s = None <-> starLazy p k2 pv cs s = None.
Proof.
  intros H. induction s as [|c s IH]; intros pv cs; simpl; rewrite !orElse_None, (H _).
  - tauto.
  - destruct (p c); [now rewrite IH | tauto].
Qed.

Lemma one_failTogether (p : N -> bool) (k1 k2 : cont) (x : mstate) :
  failTogether k1 k2 -> one p x k1 = None <-> one p x k2 = None.
Proof.
  intros H. unfold one. destruct (rest x) as [|c s]; [tauto|]. destruct (p c); [apply H | tauto].
Qed.

Lemma matcher_failTogether (ml : bool) (r : regex) :
  forall x k1 k2,
    failTogether k1 k2 -> matcher ml r x k1 = None <-> matcher ml r x k2 = None.
Proof.
  induction r as [| a | a | a | a | a | | | r1 IH1 r2 IH2 | r1 IH1 r2 IH2 | i r IH];
    intros x k1 k2 H; simpl.
  - apply H.
  - now apply one_failTogether.
  - now apply starGreedy_failTogether.
  - apply one_failTogether. intros y. now apply starGreedy_failTogether.
  - apply one_failTogether. intros y. now apply starLazy_failTogether.
  - rewrite !orElse_None, (H x). now rewrite (one_failTogether _ x H).
  - destruct (atStart ml x); [apply H | tauto].
  - destruct (atEnd ml x); [apply H | tauto].
  - apply IH1. intros y. now apply IH2.
  - rewrite !orElse_None. now rewrite (IH1 x k1 k2 H), (IH2 x k1 k2 H).
  - apply IH. intros y. apply H.
Qed.

Lemma seq_failTogether (ml : bool) (r r2 r2' : regex) (k k' : cont) :
  (forall y, matcher ml r2 y k = None <-> matcher ml r2' y k' = None) ->
  forall x, matcher ml (RSeq r r2) x k = None <-> matcher ml (RSeq r r2') x k' = None.
Proof. intros H x. cbn [matcher]. now apply matcher_failTogether. Qed.

Lemma starGreedy_total (p : N -> bool) (k : cont) :
  (forall y, k y <> None) -> forall s pv cs, starGreedy p k pv cs s <> None.
Proof.
  intros H. induction s as [|c s IH]; intros pv cs; simpl; [apply H|].
  destruct (p c); [|apply H]. rewrite orElse_None. intros [E _]. now apply IH in E.
Qed.

(** The two header patterns differ in their last piece only, and the two
    last pieces fail on the same states. *)
Lemma header_tails_failTogether :
  failTogether
    (fun y => matcher true (rseq [RAlt (RAtom (AChar LF)) REol]) y (fun z => Some z))
    (fun y => matcher true (rseq [RAlt (RPlus (AChar LF)) REol]) y (fun z => Some z)).
Proof.
  intros y. cbn [rseq fold_right matcher]. rewrite !orElse_None.
  assert (E : one (atom_match (AChar LF)) y (fun y0 => Some y0) = None <->
              one (atom_match (AChar LF)) y
                (fun y0 => starGreedy (atom_match (AChar LF)) (fun y1 => Some y1)
                             (prev y0) (caps y0) (rest y0)) = None).
  { unfold one. destruct (rest y) as [|c s]; [tauto|].
    destruct (atom_match (AChar LF) c); [|tauto]. split; [discriminate|].
    intros H. exfalso. revert H. apply starGreedy_total. discriminate. }
  now rewrite E.
Qed.

Lemma header_matchHere_failTogether (pv : option N) (s : jsstring) :
  matchHere headerMatchRegex pv s = None <-> matchHere headerReplaceRegex pv s = None.
Proof.
  unfold matchHere, headerMatchRegex, headerReplaceRegex. cbn [expr multiline_flag].
  change (rseq [RBol; RStar (ASet [cu " "; 9%N]); chr "#"; RStar ASpace;
                RGroup 1 (RPlusLazy ADot); RAlt (RAtom (AChar LF)) REol])
    with (RSeq RBol (RSeq (RStar (ASet [cu " "; 9%N])) (RSeq (chr "#") (RSeq (RStar ASpace)
            (RSeq (RGroup 1 (RPlusLazy ADot)) (rseq [RAlt (RAtom (AChar LF)) REol])))))).
  change (rseq [RBol; RStar (ASet [cu " "; 9%N]); chr "#"; RStar ASpace;
                RGroup 1 (RPlusLazy ADot); RAlt (RPlus (AChar LF)) REol])
    with (RSeq RBol (RSeq (RStar (ASet [cu " "; 9%N])) (RSeq (chr "#") (RSeq (RStar ASpace)
            (RSeq (RGroup 1 (RPlusLazy ADot)) (rseq [RAlt (RPlus (AChar LF)) REol])))))).
  do 5 (apply seq_failTogether; intros ?).
  apply header_tails_failTogether.
Qed.

Lemma header_exec_failTogether :
  forall s sk pv,
    execFrom headerMatchRegex sk pv s = None <-> execFrom headerReplaceRegex sk pv s = None.
Proof.
  induction s as [|c s IH]; intros sk pv; cbn [execFrom].
  - pose proof (header_matchHere_failTogether pv []) as H.
    destruct (matchHere headerMatchRegex pv []);
      destruct (matchHere headerReplaceRegex pv []); try tauto.
    + split; discriminate.
    + destruct H as [_ H]. specialize (H eq_refl). discriminate.
    + destruct H as [H _]. specialize (H eq_refl). discriminate.
  - pose proof (header_matchHere_failTogether pv (c :: s)) as H.
    destruct (matchHere headerMatchRegex pv (c :: s));
      destruct (matchHere headerReplaceRegex pv (c :: s)).
    + split; discriminate.
    + destruct H as [_ H]. specialize (H eq_refl). discriminate.
    + destruct H as [H _]. specialize (H eq_refl). discriminate.
    + apply IH.
Qed.

(** ** Leading newlines *)

Lemma starGreedy_accept (p : N -> bool) :
  forall s pv cs,
    starGreedy p (fun y => Some y) pv cs s =
    Some (MState (lastOr pv (takeWhile p s)) (dropWhile p s) cs).
Proof.
  induction s as [|c s IH]; intros pv cs; simpl; [reflexivity|].
  destruct (p c); [|reflexivity]. now rewrite IH.
Qed.

Lemma execFrom_leadingNewlines_later :
  forall s sk c, execFrom leadingNewlinesRegex sk (Some c) s = None.
Proof.
  induction s as [|d s IH]; intros sk c; cbn [execFrom]; [reflexivity|].
  change (matchHere leadingNewlinesRegex (Some c) (d :: s)) with (@None mstate).
  apply IH.
Qed.

Lemma replace_leadingNewlines (s : jsstring) :
  replaceFirst leadingNewlinesRegex [] s = dropWhile isLF s.
Proof.
  unfold replaceFirst, exec. destruct s as [|c s]; [reflexivity|].
  cbn [execFrom]. unfold matchHere.
  change (matcher (multiline_flag leadingNewlinesRegex) (expr leadingNewlinesRegex)
            (MState None (c :: s) []) (fun y => Some y))
    with (one (atom_match (AChar LF)) (MState None (c :: s) [])
            (fun y => starGreedy (atom_match (AChar LF)) (fun z => Some z)
                        (prev y) (caps y) (rest y))).
  rewrite one_char. cbn [rest caps prev dropWhile]. unfold isLF.
  destruct (N.eqb c LF) eqn:E.
  - rewrite starGreedy_accept. cbn [before after rest app rev].
    clear. induction s as [|d s IH]; [reflexivity|]. simpl.
    unfold atom_match. destruct (N.eqb d LF); reflexivity.
  - now rewrite execFrom_leadingNewlines_later.
Qed.

Lemma trimStart_dropWhile (p : N -> bool) (s : jsstring) :
  (forall c, p c = true -> isSpace c = true) ->
  trimStart (dropWhile p s) = trimStart s.
Proof.
  intros H. induction s as [|c s IH]; simpl; [reflexivity|].
  destruct (p c) eqn:E; [|reflexivity]. now rewrite (H c E).
Qed.

Lemma trim_leadingNewlines (s : jsstring) : trim (dropWhile isLF s) = trim s.
Proof.
  unfold trim. rewrite trimStart_dropWhile; [reflexivity|].
  intros c H. unfold isLF in H. apply N.eqb_eq in H. subst. reflexivity.
Qed.

(** ** C2 *)

(** C2 as stated fails on a content that ends with a newline. *)
Lemma cleanedContent_not_parsed_body :
  cleanedContent trailingNewlineExample = js "Body text" ++ [LF]
  /\ content (parseDocumentContent trailingNewlineExample (js "doc.md")) = js "Body text"
  /\ cleanedContent trailingNewlineExample
     <> content (parseDocumentContent trailingNewlineExample (js "doc.md")).
Proof. vm_compute. repeat split. discriminate. Qed.

(** C2, as amended.  The body that [parseDocumentContent] returns is the
    cleaned content of [updateMarkdownLinks], trimmed: the two discard the
    same six lines and the same heading, and only [parseDocumentContent]
    trims what is left. *)
Theorem parsed_body_is_trimmed_cleanedContent (rawContent fileName : jsstring) :
  content (parseDocumentContent rawContent fileName) = trim (cleanedContent rawContent).
Proof.
  unfold parseDocumentContent, cleanedContent.
  set (mainContent := join [LF] (slice 6 (split LF rawContent))).
  destruct (exec headerMatchRegex mainContent) as [headerMatch|] eqn:E; cbn [content].
  - reflexivity.
  - assert (E' : exec headerReplaceRegex mainContent = None)
      by (apply header_exec_failTogether; exact E).
    unfold replaceFirst at 2. rewrite E'.
    now rewrite replace_leadingNewlines, trim_leadingNewlines.
Qed.

(** ** C4 *)

Lemma parseDocumentContent_example :
  parseDocumentContent titleExample (js "doc.md")
  = Document (js "My Title") (js "Body text")
  /\ parseDocumentContent (withPreamble (js "No heading here")) (js "notes.md")
     = Document (js "notes") (js "No heading here").
Proof. vm_compute. split; reflexivity. Qed.

(** C4, at the failing input: the heading line is [#] alone, yet the title
    is the text of the next line and that line is removed from the body
    too. *)
Lemma parseDocumentContent_bare_hash :
  parseDocumentContent bareHashExample (js "x.md") = Document (js "foo") (js "bar").
Proof. vm_compute. reflexivity. Qed.

(** A second-level heading is taken for the title when it comes first. *)
Lemma parseDocumentContent_second_level :
  parseDocumentContent
    (withPreamble (js "## Overview" ++ [LF] ++ js "text" ++ [LF] ++ js "# Real title"))
    (js "x.md")
  = Document (js "# Overview") (js "text" ++ [LF] ++ js "# Real title").
Proof. vm_compute. reflexivity. Qed.

(** ** Rewriting twice *)

Lemma rewriteLinkAt_bracket (x : jsstring) :
  rewriteLinkAt (cu "[" :: x) = None <->
  takeWhile (notChar (cu "]")) x = [] \/ closingAt x = false.
Proof.
  unfold closingAt, targetAt. cbn [rewriteLinkAt]. rewrite N.eqb_refl.
  destruct (takeWhile (notChar (cu "]")) x) as [|t0 t1]; [tauto|].
  destruct (dropWhile (notChar (cu "]")) x) as [|c1 [|c2 y]];
    [split; auto | split; auto |].
  destruct (N.eqb c2 (cu "(")); cbn [andb]; [|split; auto].
  destruct (takeWhile (notChar (cu ")")) y) as [|u0 u1]; [split; auto|].
  destruct (dropWhile (notChar (cu ")")) y) as [|c5 s5]; [split; auto|].
  split; [discriminate | intros [H|H]; discriminate].
Qed.

Lemma linkTo_closers (linkText url : jsstring) :
  In (cu "]") (linkTo linkText url) /\ In (cu ")") (linkTo linkText url).
Proof.
  rewrite linkTo_cons. split.
  - right. apply in_or_app. right. now left.
  - right. apply in_or_app. right. right. right. apply in_or_app. right. now left.
Qed.

Lemma Rewritten_without (ok : jsstring -> Prop) (d : N) (s out : jsstring) :
  d = cu ")" \/ d = cu "]" ->
  Rewritten ok s out -> without d s -> out = s.
Proof.
  intros Hd H. induction H as [| linkText target url post out _ _ _ _ _ _ _ _ _ | c s out _ _ IH];
    intros Hw.
  - reflexivity.
  - exfalso. unfold without in Hw. rewrite Forall_forall in Hw.
    destruct (linkTo_closers linkText target) as [Hb Hp].
    destruct Hd as [-> | ->].
    + apply (Hw (cu ")")); [apply in_or_app; now left | reflexivity].
    + apply (Hw (cu "]")); [apply in_or_app; now left | reflexivity].
  - inversion Hw; subst. f_equal. now apply IH.
Qed.

Lemma Rewritten_head (ok : jsstring -> Prop) (s out : jsstring) :
  Rewritten ok s out ->
  match s, out with
  | [], [] => True
  | c :: _, d :: _ => c = d
  | _, _ => False
  end.
Proof.
  intros H. destruct H; [exact I | now rewrite !linkTo_cons | reflexivity].
Qed.

Lemma Rewritten_tail (ok : jsstring -> Prop) (c d : N) (s out : jsstring) :
  Rewritten ok (c :: s) (d :: out) -> c <> cu "[" -> Rewritten ok s out.
Proof.
  intros H Hc. remember (c :: s) as x eqn:Ex. remember (d :: out) as o eqn:Eo.
  destruct H as [| linkText target url post out' _ _ _ _ _ _ _ _ | c' s' out' _ H].
  - discriminate.
  - rewrite linkTo_cons in Ex. cbn [app] in Ex. congruence.
  - injection Ex as -> ->. injection Eo as _ ->. exact H.
Qed.

Lemma targetAt_false (y : jsstring) :
  targetAt y = false <->
  y = [] \/ (exists t, y = cu ")" :: t) \/ without (cu ")") y.
Proof.
  unfold targetAt. split.
  - destruct y as [|c t]; [now left|]. simpl.
    destruct (notChar (cu ")") c) eqn:Ec.
    + destruct (dropWhile (notChar (cu ")")) t) as [|d r] eqn:Ed; [|discriminate].
      intros _. right. right. constructor; [now apply notChar_true|].
      apply without_notChar. rewrite <- (takeWhile_dropWhile (notChar (cu ")")) t), Ed, app_nil_r.
      apply takeWhile_all.
    + intros _. right. left. apply notChar_false in Ec. subst. now exists t.
  - intros [->|[[t ->]|H]]; [reflexivity | reflexivity |].
    apply without_notChar in H.
    rewrite <- (app_nil_r y). rewrite dropWhile_app by assumption. simpl.
    destruct (takeWhile (notChar (cu ")")) (y ++ [])); reflexivity.
Qed.

Lemma Rewritten_targetAt (ok : jsstring -> Prop) (y out : jsstring) :
  Rewritten ok y out -> targetAt y = false -> targetAt out = false.
Proof.
  intros H Hf. apply targetAt_false in Hf. apply targetAt_false.
  destruct Hf as [->|[[t ->]|Hw]].
  - pose proof (Rewritten_head H) as Hh. destruct out as [|d o]; [now left | contradiction].
  - pose proof (Rewritten_head H) as Hh. destruct out as [|d o]; [now left|].
    subst d. right. left. now exists o.
  - right. right. rewrite (@Rewritten_without ok (cu ")") y out); auto.
Qed.

Lemma closingAt_cons (c : N) (x : jsstring) :
  c <> cu "]" -> closingAt (c :: x) = closingAt x.
Proof.
  intros H. unfold closingAt. simpl. apply notChar_true in H. now rewrite H.
Qed.

Lemma closingAt_link (linkText target post : jsstring) :
  without (cu "]") linkText -> target <> [] -> without (cu ")") target ->
  closingAt (linkTo linkText target ++ post) = true.
Proof.
  intros H1 H2 H3. rewrite linkTo_cons. cbn [app].
  rewrite closingAt_cons by discriminate. unfold closingAt.
  rewrite <- app_assoc. cbn [app].
  destruct (span_until (cu "(" :: (target ++ [cu ")"]) ++ post) H1) as [_ ->].
  rewrite N.eqb_refl. cbn [andb]. unfold targetAt. rewrite <- app_assoc. cbn [app].
  destruct (span_until post H3) as [-> ->].
  destruct target; [congruence | reflexivity].
Qed.

Lemma Rewritten_closingAt (ok : jsstring -> Prop) (x out : jsstring) :
  Rewritten ok x out -> closingAt x = false -> closingAt out = false.
Proof.
  intros H. induction H as [| linkText target url post out H1 H2 H3 H4 H5 H6 H7 H _
                            | c s out Hc H IH]; intros Hf.
  - reflexivity.
  - rewrite closingAt_link in Hf by assumption. discriminate.
  - destruct (N.eqb_spec c (cu "]")) as [->|Hne].
    + unfold closingAt in *. cbn [dropWhile] in *.
      replace (notChar (cu "]") (cu "]")) with false in * by reflexivity.
      pose proof (Rewritten_head H) as Hh.
      destruct s as [|c2 y]; destruct out as [|d2 y']; try contradiction; [reflexivity|].
      subst d2. destruct (N.eqb c2 (cu "(")) eqn:E2; [|reflexivity].
      cbn [andb] in *. apply N.eqb_eq in E2. subst c2.
      apply Rewritten_tail in H; [|discriminate].
      eapply Rewritten_targetAt; eassumption.
    + rewrite closingAt_cons in * by assumption. now apply IH.
Qed.

(** A position where no link starts in the input starts none in the
    output. *)
Lemma Rewritten_no_link (ok : jsstring -> Prop) (c : N) (s out : jsstring) :
  rewriteLinkAt (c :: s) = None -> Rewritten ok s out -> rewriteLinkAt (c :: out) = None.
Proof.
  intros Hn H. destruct (N.eqb_spec c (cu "[")) as [->|Hc];
    [|now apply rewriteLinkAt_not_bracket].
  apply rewriteLinkAt_bracket in Hn. apply rewriteLinkAt_bracket.
  destruct Hn as [Ht|Hcl].
  - left. pose proof (Rewritten_head H) as Hh.
    destruct s as [|c1 s1]; destruct out as [|d1 o1]; try contradiction; [reflexivity|].
    subst d1. simpl in *. destruct (notChar (cu "]") c1); [discriminate | reflexivity].
  - right. eapply Rewritten_closingAt; eassumption.
Qed.

(** ** C3 *)

Lemma map_get_In (V : Type) (k : jsstring) (v : V) (m : jsmap V) :
  map_get k m = Some v -> In v (map snd m).
Proof.
  induction m as [|[k' v'] m IH]; simpl; [discriminate|].
  destruct (str_eqb k k'); [intros H; injection H as ->; now left | auto].
Qed.

Lemma present_Some (v : option jsstring) (u : jsstring) :
  present v = Some u -> v = Some u /\ u <> [].
Proof.
  destruct v as [[|c w]|]; simpl; try discriminate.
  intros H; injection H as <-. split; [reflexivity | discriminate].
Qed.

Lemma rewrittenTarget_cases (reg : registry) (target url : jsstring) :
  rewrittenTarget reg target = Ok url ->
  url = target \/ (In url (urls reg) /\ url <> []).
Proof.
  unfold rewrittenTarget, urls.
  destruct (startsWith target (js "http")); [intros H; injection H as <-; now left|].
  destruct (decodeURIComponent (stripLeadingSlash target)) as [d|e]; [|discriminate].
  cbn [bind]. unfold resolvedTarget. intros H. injection H as <-.
  destruct (present (map_get (stripMdSuffix d) (documentUrlMap reg))) as [u|] eqn:E1.
  { apply present_Some in E1. destruct E1 as [E1 Hne]. right. split; [|assumption].
    apply in_or_app. left. eapply map_get_In; eassumption. }
  destruct (present (map_get (stripMdSuffix d ++ js ".md") (documentUrlMap reg))) as [u|] eqn:E2.
  { apply present_Some in E2. destruct E2 as [E2 Hne]. right. split; [|assumption].
    apply in_or_app. left. eapply map_get_In; eassumption. }
  destruct (present (map_get target (attachmentUrlMap reg))) as [u|] eqn:E3.
  { apply present_Some in E3. destruct E3 as [E3 Hne]. right. split; [|assumption].
    apply in_or_app. right. eapply map_get_In; eassumption. }
  now left.
Qed.

Lemma rewriteLinks_Rewritten (reg : registry) :
  stable reg ->
  forall n s out,
    length s < n -> rewriteLinks reg s = Ok out -> Rewritten (settled reg) s out.
Proof.
  intros Hst. induction n as [|n IH]; intros s out Hn H; [lia|].
  destruct s as [|c s'].
  - rewrite rewriteLinks_nil in H. injection H as <-. constructor.
  - destruct (rewriteLinkAt (c :: s')) as [[[linkText target] post]|] eqn:E.
    + rewrite (@rewriteLinks_link reg _ _ _ _ E), rewriteLink_linkMatch in H.
      destruct (rewrittenTarget reg target) as [url|e] eqn:Eu; [|discriminate].
      cbn [bind] in H.
      destruct (rewriteLinks reg post) as [t|e] eqn:Et; [|discriminate].
      cbn [bind] in H. injection H as <-.
      apply rewriteLinkAt_Some in E. destruct E as [Es [H1 [H2 [H3 H4]]]].
      rewrite Es. rewrite Es in Hn.
      assert (Hlen : length post < n).
      { rewrite linkTo_cons in Hn. simpl in Hn. rewrite length_app in Hn. lia. }
      destruct (rewrittenTarget_cases _ _ Eu) as [->|[Hin Hne]].
      * apply Rewritten_link; auto; now apply (IH post).
      * destruct (Hst url Hin) as [Hw Hs].
        apply Rewritten_link; auto; now apply (IH post).
    + rewrite (@rewriteLinks_skip reg _ _ E) in H.
      destruct (rewriteLinks reg s') as [t|e] eqn:Et; [|discriminate].
      cbn [bind] in H. injection H as <-.
      apply Rewritten_skip; [assumption|]. apply (IH s'); [simpl in Hn; lia | assumption].
Qed.

Lemma Rewritten_fixed (reg : registry) (s out : jsstring) :
  Rewritten (settled reg) s out -> rewriteLinks reg out = Ok out.
Proof.
  intros H. induction H as [| linkText target url post out H1 H2 H3 H4 H5 H6 H7 H IH
                            | c s out Hc H IH].
  - apply rewriteLinks_nil.
  - rewrite (@rewriteLinks_link reg _ linkText url out)
      by (apply rewriteLinkAt_Some; repeat split; assumption).
    rewrite rewriteLink_linkMatch. unfold settled in H7. rewrite H7. cbn [bind].
    now rewrite IH.
  - rewrite rewriteLinks_skip by (eapply Rewritten_no_link; eassumption).
    now rewrite IH.
Qed.

(** C3, as amended.  For a registry whose URLs hold no closing parenthesis
    and are themselves left alone as link targets, what
    [updateMarkdownLinks] returns is a fixed point of its link
    substitution. *)
Theorem rewriteLinks_idempotent (reg : registry) (rawContent out : jsstring) :
  stable reg ->
  updateMarkdownLinks reg rawContent = Ok out ->
  rewriteLinks reg out = Ok out.
Proof.
  intros Hst H. unfold updateMarkdownLinks in H.
  apply (@Rewritten_fixed reg (cleanedContent rawContent)).
  eapply rewriteLinks_Rewritten; [assumption | | exact H]. apply Nat.lt_succ_diag_r.
Qed.

Lemma exampleRegistry_stable : stable exampleRegistry.
Proof.
  intros url [<-|[<-|[]]]; split; try (vm_compute; reflexivity);
    unfold without; vm_compute; repeat constructor; discriminate.
Qed.

(** C3 for the registry and the content of the round-trip example. *)
Lemma rewriteLinks_idempotent_witness :
  rewriteLinks exampleRegistry exampleRewritten = Ok exampleRewritten.
Proof.
  apply (@rewriteLinks_idempotent exampleRegistry (withPreamble exampleContent)
           exampleRewritten).
  - intros url [<-|[<-|[]]]; split; try (vm_compute; reflexivity);
      unfold without; vm_compute; repeat constructor; discriminate.
  - vm_compute. reflexivity.
Defined.

(** C3 as stated fails: applied to its own output, [updateMarkdownLinks]
    discards six lines again. *)
Lemma updateMarkdownLinks_not_idempotent :
  updateMarkdownLinks exampleRegistry (withPreamble exampleContent) = Ok exampleRewritten
  /\ updateMarkdownLinks exampleRegistry exampleRewritten = Ok []
  /\ updateMarkdownLinks exampleRegistry exampleRewritten <> Ok exampleRewritten.
Proof. vm_compute. repeat split. discriminate. Qed.

Lemma rewriteLinks_chained :
  rewriteLinks chainedRegistry (js "[x](a)") = Ok (js "[x](b)")
  /\ rewriteLinks chainedRegistry (js "[x](b)") = Ok (js "[x](c)").
Proof. vm_compute. split; reflexivity. Qed.

(** ** Computations *)

Lemma bindM_ext (A B : Type) (c : M A) (f g : A -> M B) (w : world) :
  (forall a w', f a w' = g a w') -> bindM c f w = bindM c g w.
Proof. intros H. unfold bindM. destruct (c w) as [[a|e] w']; [apply H | reflexivity]. Qed.

Lemma forOf_ext (A : Type) (f g : A -> M unit) (l : list A) :
  (forall a w, f a w = g a w) -> forall w, forOf f l w = forOf g l w.
Proof.
  intros H. induction l as [|a l IH]; intros w; [reflexivity|].
  cbn [forOf]. unfold bindM. rewrite H. destruct (g a w) as [[u|e] w']; [apply IH | reflexivity].
Qed.

Lemma forOf_app (A : Type) (f : A -> M unit) (l1 l2 : list A) (w : world) :
  forOf f (l1 ++ l2) w = (forOf f l1 ;;; forOf f l2) w.
Proof.
  revert w. induction l1 as [|a l1 IH]; intros w.
  - cbn [app forOf]. unfold bindM, ret. reflexivity.
  - cbn [app forOf]. unfold bindM in *. destruct (f a w) as [[u|e] w']; [|reflexivity].
    apply IH.
Qed.

Lemma forOf_skip (A : Type) (f : A -> M unit) (l1 l2 : list A) (a : A) :
  (forall w, f a w = (Ok tt, w)) ->
  forall w, forOf f (l1 ++ a :: l2) w = forOf f (l1 ++ l2) w.
Proof.
  intros H w. rewrite !forOf_app. unfold bindM.
  destruct (forOf f l1 w) as [[u|e] w']; [|reflexivity].
  cbn [forOf]. unfold bindM. now rewrite H.
Qed.

(** ** C8 *)

Section MediaFolderSkipped.

Variables (cwd : jsstring) (remote : service) (fs : filesystem).
Variables (dirPath : jsstring) (before after : list dirent) (entry : dirent).

Hypothesis listing : readdir fs dirPath = Ok (before ++ entry :: after).
Hypothesis directory : isDirectory entry = true.
Hypothesis media : isMediaFolder fs (pathJoin [dirPath; name entry]) = Ok true.

Lemma media_entry_untouched (recurse : jsstring -> jsstring -> option jsstring -> M unit)
    (collectionId : jsstring) (parentDocumentId : option jsstring) (w : world) :
  createDirectoryDocument cwd remote fs recurse dirPath collectionId parentDocumentId entry w
  = (Ok tt, w).
Proof.
  unfold createDirectoryDocument. rewrite directory. unfold bindM, lift. now rewrite media.
Qed.

Lemma directory_not_file : isFile entry = false.
Proof. unfold isDirectory in directory. unfold isFile. destruct (entryKind entry); congruence. Qed.

Lemma isMediaFolder_withListing (q : jsstring) :
  isMediaFolder (withListing fs dirPath (before ++ after)) q = isMediaFolder fs q.
Proof.
  unfold isMediaFolder. destruct (startsWith (basename q) (js "media_")); [reflexivity|].
  cbn [readdir withListing]. destruct (str_eqb_spec q dirPath) as [->|Hq]; [|reflexivity].
  rewrite listing. cbn [bind]. rewrite !filter_app. cbn [filter].
  now rewrite directory_not_file.
Qed.

Lemma createFileDocument_directory (collectionId : jsstring)
    (parentDocumentId : option jsstring) (w : world) :
  createFileDocument cwd remote fs dirPath collectionId parentDocumentId entry w = (Ok tt, w).
Proof. unfold createFileDocument. now rewrite directory_not_file. Qed.

Lemma createDirectoryDocument_withListing
    (rec1 rec2 : jsstring -> jsstring -> option jsstring -> M unit)
    (p collectionId : jsstring) (parentDocumentId : option jsstring) (e : dirent) (w : world) :
  (forall a b c w', rec1 a b c w' = rec2 a b c w') ->
  createDirectoryDocument cwd remote (withListing fs dirPath (before ++ after)) rec1
    p collectionId parentDocumentId e w
  = createDirectoryDocument cwd remote fs rec2 p collectionId parentDocumentId e w.
Proof.
  intros H. unfold createDirectoryDocument. destruct (isDirectory e); [|reflexivity].
  rewrite isMediaFolder_withListing.
  apply bindM_ext. intros [|] w1; [reflexivity|].
  apply bindM_ext. intros dirDoc w2.
  apply bindM_ext. intros _ w3.
  apply bindM_ext. intros _ w4. apply H.
Qed.

Lemma createDocumentStructure_withListing :
  forall fuel p collectionId parentDocumentId w,
    createDocumentStructure cwd remote (withListing fs dirPath (before ++ after)) fuel
      p collectionId parentDocumentId w
    = createDocumentStructure cwd remote fs fuel p collectionId parentDocumentId w.
Proof.
  induction fuel as [|fuel IH]; intros p collectionId parentDocumentId w; [reflexivity|].
  cbn [createDocumentStructure].
  assert (Hbody : forall es w1,
    forOf (createDirectoryDocument cwd remote (withListing fs dirPath (before ++ after))
             (createDocumentStructure cwd remote (withListing fs dirPath (before ++ after)) fuel)
             p collectionId parentDocumentId) es w1
    = forOf (createDirectoryDocument cwd remote fs
               (createDocumentStructure cwd remote fs fuel)
               p collectionId parentDocumentId) es w1).
  { intros es w1. apply forOf_ext. intros e w2.
    apply createDirectoryDocument_withListing. intros a b c w'. apply IH. }
  cbn [readdir withListing]. destruct (str_eqb_spec p dirPath) as [->|Hp].
  - rewrite listing. unfold bindM, lift.
    change (createFileDocument cwd remote (withListing fs dirPath (before ++ after)))
      with (createFileDocument cwd remote fs).
    rewrite (@forOf_skip _ (createFileDocument cwd remote fs dirPath collectionId
                              parentDocumentId) before after entry)
      by (intros w'; apply createFileDocument_directory).
    destruct (forOf (createFileDocument cwd remote fs dirPath collectionId parentDocumentId)
                (before ++ after) w) as [[u|e] w1]; [|reflexivity].
    rewrite Hbody.
    symmetry. apply forOf_skip. intros w'. apply media_entry_untouched.
  - apply bindM_ext. intros es w1.
    change (createFileDocument cwd remote (withListing fs dirPath (before ++ after)))
      with (createFileDocument cwd remote fs).
    apply bindM_ext. intros _ w2. apply Hbody.
Qed.

End MediaFolderSkipped.

(** C8.  A subdirectory that [isMediaFolder] classifies as a media folder:
    the pass of the second loop of [createDocumentStructure] for it changes
    nothing (no call of the service, no entry in a map) and does not depend
    on the recursive call, which it never makes; and the whole run is the
    run on the same export without that entry in the listing. *)
Theorem media_folder_is_skipped
    (cwd : jsstring) (remote : service) (fs : filesystem)
    (dirPath collectionId : jsstring) (parentDocumentId : option jsstring)
    (before after : list dirent) (entry : dirent) :
  readdir fs dirPath = Ok (before ++ entry :: after) ->
  isDirectory entry = true ->
  isMediaFolder fs (pathJoin [dirPath; name entry]) = Ok true ->
  (forall recurse w,
      createDirectoryDocument cwd remote fs recurse dirPath collectionId parentDocumentId
        entry w = (Ok tt, w))
  /\ (forall fuel w,
         createDocumentStructure cwd remote fs fuel dirPath collectionId parentDocumentId w
         = createDocumentStructure cwd remote (withListing fs dirPath (before ++ after)) fuel
             dirPath collectionId parentDocumentId w).
Proof.
  intros Hl Hd Hm. split.
  - intros recurse w. exact (@media_entry_untouched cwd remote fs dirPath entry Hd Hm
                               recurse collectionId parentDocumentId w).
  - intros fuel w. symmetry.
    exact (@createDocumentStructure_withListing cwd remote fs dirPath before after entry
             Hl Hd Hm fuel dirPath collectionId parentDocumentId w).
Qed.

(** C8 for the media folder of the example export. *)
Lemma media_folder_is_skipped_witness :
  createDirectoryDocument (js "/home/user/project") deadService exportFs
    (fun _ _ _ => throw OutOfFuel) teamDir (js "collection-1") None
    (Dirent (js "media_a") KDirectory) emptyWorld
  = (Ok tt, emptyWorld).
Proof.
  refine (proj1 (@media_folder_is_skipped (js "/home/user/project") deadService exportFs
                   teamDir (js "collection-1") None
                   [Dirent (js "a.md") KFile] [Dirent (js "b") KDirectory]
                   (Dirent (js "media_a") KDirectory) _ _ _) _ _).
  - vm_compute. reflexivity.
  - reflexivity.
  - vm_compute. reflexivity.
Defined.

(** ** C10 *)

Section UnregisteredSource.

Variables (cwd domain : jsstring) (remote : service) (fs : filesystem).

(** What one pass of the loop of phase 2 can do to the state: at most one
    entry of [attachmentUrlMap], under the link at hand. *)
Lemma uploadReference_effect (link sourcePath : jsstring) (w : world) :
  let w' := snd (tryCatch (uploadReference cwd domain remote fs (link, sourcePath)) w) in
  fst (tryCatch (uploadReference cwd domain remote fs (link, sourcePath)) w) = Ok tt
  /\ documentIdMap (maps w') = documentIdMap (maps w)
  /\ documentUrlMap (maps w') = documentUrlMap (maps w)
  /\ (attachmentUrlMap (maps w') = attachmentUrlMap (maps w)
      \/ exists url,
           attachmentUrlMap (maps w') = map_set link url (attachmentUrlMap (maps w))).
Proof.
  unfold tryCatch, uploadReference, getDocumentId, bindM, lift, ret.
  destruct (negb (truthy (map_get (relative cwd SLITE_BACKUP_PATH sourcePath)
                            (documentIdMap (maps w))))); [cbn; auto|].
  destruct (resolveAttachmentPath cwd link sourcePath) as [fullPath|e]; [|cbn; auto].
  destruct (negb (fileExists fs fullPath)); [cbn; auto|].
  unfold uploadAttachment, bindM, lift, call, ret, throw.
  destruct (fileBytes fs fullPath) as [size|e]; [|cbn; auto].
  cbn [sent maps].
  destruct (remote (sent w) _) as [responseData|e]; [|cbn; auto].
  destruct (truthy (dataUploadUrl responseData)); [|cbn; auto].
  cbn [sent maps].
  destruct (remote _ _) as [uploaded|e]; [|cbn; auto].
  cbn. repeat split; auto. right. eexists. reflexivity.
Qed.

Lemma uploadReference_unregistered (link sourcePath : jsstring) (w : world) :
  truthy (map_get (relative cwd SLITE_BACKUP_PATH sourcePath) (documentIdMap (maps w)))
  = false ->
  tryCatch (uploadReference cwd domain remote fs (link, sourcePath)) w = (Ok tt, w).
Proof.
  intros H. unfold tryCatch, uploadReference, getDocumentId, bindM, ret. now rewrite H.
Qed.

Lemma uploadReferences_cons (entry : jsstring * jsstring) (l : jsmap jsstring) (w : world) :
  uploadReferences cwd domain remote fs (entry :: l) w =
  uploadReferences cwd domain remote fs l
    (snd (tryCatch (uploadReference cwd domain remote fs entry) w)).
Proof.
  unfold uploadReferences. cbn [forOf]. unfold bindM at 1.
  destruct entry as [link sourcePath].
  destruct (uploadReference_effect link sourcePath w) as [H _].
  destruct (tryCatch (uploadReference cwd domain remote fs (link, sourcePath)) w) as [r w'].
  cbn [fst snd] in *. now rewrite H.
Qed.

Lemma NoDup_keys (V : Type) (k : jsstring) (v v' : V) (m : jsmap V) :
  NoDup (map fst m) -> In (k, v) m -> In (k, v') m -> v = v'.
Proof.
  induction m as [|[k0 v0] m IH]; intros Hnd H1 H2; [destruct H1|].
  cbn [map fst] in Hnd. inversion Hnd as [|? ? Hnotin Hnd']; subst.
  destruct H1 as [E1|H1]; destruct H2 as [E2|H2].
  - congruence.
  - injection E1 as -> ->. exfalso. apply Hnotin. apply (in_map fst) in H2. exact H2.
  - injection E2 as -> ->. exfalso. apply Hnotin. apply (in_map fst) in H1. exact H1.
  - now apply IH.
Qed.

Lemma uploadReferences_keeps (link sourcePath : jsstring) :
  forall (l : jsmap jsstring) (w : world),
    NoDup (map fst l) ->
    (forall sourcePath', In (link, sourcePath') l -> sourcePath' = sourcePath) ->
    map_get (relative cwd SLITE_BACKUP_PATH sourcePath) (documentIdMap (maps w)) = None ->
    map_get link (attachmentUrlMap (maps w)) = None ->
    map_get link
      (attachmentUrlMap (maps (snd (uploadReferences cwd domain remote fs l w)))) = None.
Proof.
  induction l as [|[link' sourcePath'] l IH]; intros w Hnd Hsrc Hreg Hatt; [exact Hatt|].
  rewrite uploadReferences_cons.
  cbn [map fst] in Hnd. inversion Hnd as [|? ? Hnotin Hnd']; subst.
  destruct (uploadReference_effect link' sourcePath' w) as [_ [Hid [_ Hat]]].
  apply IH.
  - assumption.
  - intros s Hs. apply Hsrc. now right.
  - now rewrite Hid.
  - destruct (str_eqb_spec link link') as [<-|Hne].
    + rewrite (Hsrc sourcePath') by now left.
      rewrite uploadReference_unregistered by now rewrite Hreg. exact Hatt.
    + destruct Hat as [-> | [url ->]]; [exact Hatt|].
      now rewrite map_get_set_other.
Qed.

Lemma uploadReferences_documentIdMap :
  forall (l : jsmap jsstring) (w : world),
    documentIdMap (maps (snd (uploadReferences cwd domain remote fs l w)))
    = documentIdMap (maps w).
Proof.
  induction l as [|[link sourcePath] l IH]; intros w; [reflexivity|].
  rewrite uploadReferences_cons, IH.
  now destruct (uploadReference_effect link sourcePath w) as [_ [Hid _]].
Qed.

Lemma uploadReferences_documentUrlMap :
  forall (l : jsmap jsstring) (w : world),
    documentUrlMap (maps (snd (uploadReferences cwd domain remote fs l w)))
    = documentUrlMap (maps w).
Proof.
  induction l as [|[link sourcePath] l IH]; intros w; [reflexivity|].
  rewrite uploadReferences_cons, IH.
  now destruct (uploadReference_effect link sourcePath w) as [_ [_ [Hu _]]].
Qed.

End UnregisteredSource.

Lemma map_get_None (V : Type) (k : jsstring) (m : jsmap V) :
  map_get k m = None -> forall v, ~ In (k, v) m.
Proof.
  induction m as [|[k' v'] m IH]; intros H v; [intros []|].
  simpl in H. destruct (str_eqb_spec k k') as [->|Hne]; [discriminate|].
  intros [E|Hin]; [congruence | now apply (IH H v)].
Qed.

Lemma rewrittenTarget_no_attachment (reg : registry) (link : jsstring) :
  map_get link (attachmentUrlMap reg) = None ->
  rewrittenTarget reg link =
  rewrittenTarget (Registry [] (documentUrlMap reg) (documentIdMap reg)) link.
Proof.
  intros H. unfold rewrittenTarget, resolvedTarget. cbn [attachmentUrlMap documentUrlMap map_get].
  now rewrite H.
Qed.

(** With no attachment URL for a target, the rewriting has the document
    URLs alone to go by. *)
Lemma rewrittenTarget_documents (reg : registry) (link : jsstring) :
  map_get link (attachmentUrlMap reg) = None ->
  rewrittenTarget reg link =
  if startsWith link (js "http") then Ok link
  else
    decoded <- decodeURIComponent (replaceFirst leadingSlashRegex [] link) ;;
    let normalizedPath := replaceFirst mdSuffixRegex [] decoded in
    let docUrl :=
      orJs (map_get normalizedPath (documentUrlMap reg))
           (map_get (normalizedPath ++ js ".md") (documentUrlMap reg)) in
    Ok (if truthy docUrl then text docUrl else link).
Proof.
  intros H. unfold rewrittenTarget.
  destruct (startsWith link (js "http")); [reflexivity|].
  rewrite replace_leadingSlash.
  destruct (decodeURIComponent (stripLeadingSlash link)) as [d|e]; [|reflexivity].
  cbn [bind]. rewrite replace_mdSuffix. unfold resolvedTarget, orJs. rewrite H.
  cbn [present].
  rewrite (truthy_present (map_get (stripMdSuffix d) (documentUrlMap reg))).
  destruct (present (map_get (stripMdSuffix d) (documentUrlMap reg))) as [u|] eqn:E1.
  - rewrite truthy_present, E1. now rewrite (text_present _ E1).
  - rewrite truthy_present.
    destruct (present (map_get (stripMdSuffix d ++ js ".md") (documentUrlMap reg))) as [u|] eqn:E2.
    + now rewrite (text_present _ E2).
    + reflexivity.
Qed.

(** C10, as amended.  In phase 2, a scanned attachment reference whose
    source document has no entry in [documentIdMap] is passed over: the
    state is unchanged (no call of the service, no entry in a map), and a
    pass that changes the state at all is one whose source document has an
    entry.  After the whole loop [attachmentUrlMap] still has nothing for
    the link, and the source document is not among the entries of
    [documentIdMap] that phase 3 goes through.  In the documents that
    phase 3 does rewrite, a link with this target is resolved by the
    document URLs alone: it stays as it is when the target starts with
    [http]; otherwise the target is decoded, which throws [URIError] on a
    malformed escape, and it is replaced by the document URL registered
    for the normalized target, or for the normalized target followed by
    [.md], when there is one that is not empty, and stays as it is when
    there is none. *)
Theorem unregistered_source_is_skipped
    (cwd domain : jsstring) (remote : service) (fs : filesystem)
    (attachmentLinks : jsmap jsstring) (link sourcePath : jsstring) (w : world) :
  NoDup (map fst attachmentLinks) ->
  In (link, sourcePath) attachmentLinks ->
  map_get (relative cwd SLITE_BACKUP_PATH sourcePath) (documentIdMap (maps w)) = None ->
  map_get link (attachmentUrlMap (maps w)) = None ->
  let after := snd (uploadReferences cwd domain remote fs attachmentLinks w) in
  tryCatch (uploadReference cwd domain remote fs (link, sourcePath)) w = (Ok tt, w)
  /\ map_get link (attachmentUrlMap (maps after)) = None
  /\ rewrittenTarget (maps after) link
     = rewrittenTarget
         (Registry [] (documentUrlMap (maps after)) (documentIdMap (maps after))) link
  /\ (forall docId,
         ~ In (relative cwd SLITE_BACKUP_PATH sourcePath, docId) (documentIdMap (maps after)))
  /\ (forall link' sourcePath' w1,
         snd (tryCatch (uploadReference cwd domain remote fs (link', sourcePath')) w1) <> w1 ->
         exists documentId,
           map_get (relative cwd SLITE_BACKUP_PATH sourcePath') (documentIdMap (maps w1))
           = Some documentId)
  /\ (forall pre linkText post,
         linkFree pre (linkTo linkText link ++ post) ->
         linkText <> [] -> without (cu "]") linkText ->
         link <> [] -> without (cu ")") link ->
         rewriteLinks (maps after) (pre ++ linkTo linkText link ++ post) =
         (url <- (if startsWith link (js "http") then Ok link
                  else
                    decoded <- decodeURIComponent (replaceFirst leadingSlashRegex [] link) ;;
                    let normalizedPath := replaceFirst mdSuffixRegex [] decoded in
                    let docUrl :=
                      orJs (map_get normalizedPath (documentUrlMap (maps w)))
                           (map_get (normalizedPath ++ js ".md") (documentUrlMap (maps w))) in
                    Ok (if truthy docUrl then text docUrl else link)) ;;
          t <- rewriteLinks (maps after) post ;;
          Ok (pre ++ linkTo linkText url ++ t))).
Proof.
  intros Hnd Hin Hreg Hatt after.
  assert (Hafter : map_get link (attachmentUrlMap (maps after)) = None).
  { apply uploadReferences_keeps with (sourcePath := sourcePath); try assumption.
    intros s Hs. eapply NoDup_keys; eassumption. }
  split; [|split; [|split; [|split; [|split]]]].
  - apply uploadReference_unregistered. now rewrite Hreg.
  - exact Hafter.
  - now apply rewrittenTarget_no_attachment.
  - intros docId. apply map_get_None. subst after.
    now rewrite uploadReferences_documentIdMap.
  - intros link' sourcePath' w1 Hchg.
    destruct (map_get (relative cwd SLITE_BACKUP_PATH sourcePath') (documentIdMap (maps w1)))
      as [documentId|] eqn:E; [now exists documentId|].
    exfalso. apply Hchg. rewrite uploadReference_unregistered; [reflexivity|].
    now rewrite E.
  - intros pre linkText post Hfree H1 H2 H3 H4.
    rewrite rewriteLinks_in_context by assumption.
    rewrite (@rewrittenTarget_documents (maps after) link Hafter).
    subst after. now rewrite uploadReferences_documentUrlMap.
Qed.

(** C10 for a document inside the media folder of the example export. *)
Lemma unregistered_source_is_skipped_witness :
  tryCatch (uploadReference (js "/home/user/project") (js "https://outline.example")
              deadService exportFs
              (js "x.png", js "slite-backup/channels/team/media_a/n.md"))
    emptyWorld
  = (Ok tt, emptyWorld).
Proof.
  refine (proj1 (@unregistered_source_is_skipped (js "/home/user/project")
                   (js "https://outline.example") deadService exportFs
                   [(js "x.png", js "slite-backup/channels/team/media_a/n.md")]
                   (js "x.png") (js "slite-backup/channels/team/media_a/n.md") emptyWorld
                   _ _ _ _)).
  - repeat constructor. intros [].
  - now left.
  - reflexivity.
  - reflexivity.
Defined.

(** C10 as stated fails: in a run on an export whose document [a.md] and
    whose document [n.md], inside a media folder, both hold the link
    [[see](team/a)], the scan records the reference [team/a] with [n.md]
    as its source, which has no entry in [documentIdMap]; phase 2 passes it
    over, without a call and without an entry in [attachmentUrlMap]; and
    yet phase 3 sends [a.md] with the link rewritten to the URL of the
    document registered under [team/a.md]. *)
Lemma unregistered_reference_rewritten :
  let run := migrate (js "/home/user/project") (js "https://outline.example")
               constantService shadowedFs 5 emptyWorld in
  scanDirectory shadowedFs 5 SLITE_BACKUP_PATH
  = Ok (Links [(js "team/a", js "slite-backup/channels/team/media_a/n.md")] [])
  /\ fst run = Ok tt
  /\ maps (snd run)
     = Registry [] [(js "team/a.md", js "/doc/D1")] [(js "team/a.md", js "D1")]
  /\ map_get (relative (js "/home/user/project") SLITE_BACKUP_PATH
                (js "slite-backup/channels/team/media_a/n.md"))
       (documentIdMap (maps (snd run))) = None
  /\ sent (snd run)
     = [CollectionsCreate (js "team");
        DocumentsCreate (js "a") (js "[see](team/a)") (js "D1") None;
        DocumentsUpdate (js "D1") (js "[see](/doc/D1)")].
Proof. vm_compute. repeat split. Qed.

(** ** The keys of a scan are distinct *)

Lemma map_set_keys (V : Type) (k : jsstring) (v : V) (m : jsmap V) :
  map fst (map_set k v m) = map fst m \/ (~ In k (map fst m) /\ map fst (map_set k v m) = map fst m ++ [k]).
Proof.
  induction m as [|[k' v'] m IH]; simpl.
  - right. split; [tauto | reflexivity].
  - destruct (str_eqb_spec k k') as [->|Hne]; simpl; [now left|].
    destruct IH as [->|[Hnot ->]]; [now left|].
    right. split; [|reflexivity]. intros [E|Hin]; [congruence | contradiction].
Qed.

Lemma map_set_NoDup (V : Type) (k : jsstring) (v : V) (m : jsmap V) :
  NoDup (map fst m) -> NoDup (map fst (map_set k v m)).
Proof.
  intros H. destruct (map_set_keys k v m) as [->|[Hnot ->]]; [assumption|].
  apply NoDup_app; [assumption | repeat constructor; intros [] |].
  intros x Hx [<-|[]]. contradiction.
Qed.

Lemma mergeInto_NoDup (all m : jsmap jsstring) :
  NoDup (map fst all) -> NoDup (map fst (mergeInto all m)).
Proof.
  unfold mergeInto. revert all. induction m as [|[k v] m IH]; intros all H; [assumption|].
  simpl. apply IH. now apply map_set_NoDup.
Qed.

Lemma scanMarkdownLinks_distinct (content sourcePath : jsstring) :
  distinctKeys (scanMarkdownLinks content sourcePath).
Proof.
  unfold scanMarkdownLinks.
  assert (H : distinctKeys (Links [] [])) by (split; constructor).
  revert H. generalize (Links [] []).
  induction (matchAll linkRegex content) as [|m ms IH]; intros acc H; [assumption|].
  simpl. apply IH. unfold scanMatch. destruct H as [Ha Hd].
  destruct (negb _ && negb _); [|now split].
  destruct (endsWith _ _); split; cbn [attachmentLinks documentLinks];
    try assumption; now apply map_set_NoDup.
Qed.

Lemma mergeLinks_distinct (all found : links) :
  distinctKeys all -> distinctKeys (mergeLinks all found).
Proof. intros [Ha Hd]. split; cbn; now apply mergeInto_NoDup. Qed.

Lemma scanEntries_distinct (fs : filesystem) (scan : jsstring -> result links)
    (dirPath : jsstring) (entries : list dirent) :
  forall all found,
    distinctKeys all -> scanEntries fs scan dirPath entries all = Ok found ->
    distinctKeys found.
Proof.
  induction entries as [|entry entries IH]; intros all found Hall H; cbn [scanEntries] in H.
  - now injection H as <-.
  - destruct (isFile entry && endsWith (name entry) (js ".md")).
    + destruct (readFile fs _) as [content|e]; [|discriminate]. cbn [bind] in H.
      eapply IH; [|exact H]. now apply mergeLinks_distinct.
    + destruct (isDirectory entry).
      * destruct (scan _) as [sub|e]; [|discriminate]. cbn [bind] in H.
        eapply IH; [|exact H]. now apply mergeLinks_distinct.
      * eapply IH; eassumption.
Qed.

(** The map that phase 2 goes through has one entry for each link text. *)
Lemma scanDirectory_distinct (fs : filesystem) (fuel : nat) (dirPath : jsstring)
    (found : links) :
  scanDirectory fs fuel dirPath = Ok found -> distinctKeys found.
Proof.
  destruct fuel as [|fuel]; [discriminate|]. cbn [scanDirectory].
  destruct (readdir fs dirPath) as [entries|e]; [|discriminate]. cbn [bind].
  apply scanEntries_distinct. split; constructor.
Qed.

(** * Further properties *)

(** ** Lines *)

Lemma join_cons (sep l : jsstring) (ls : list jsstring) :
  ls <> [] -> join sep (l :: ls) = l ++ sep ++ join sep ls.
Proof. destruct ls; [congruence | reflexivity]. Qed.

Lemma join_split (sep : N) (s : jsstring) : join [sep] (split sep s) = s.
Proof.
  induction s as [|c s IH]; [reflexivity|].
  pose proof (split_not_nil sep s) as Hn. simpl.
  destruct (N.eqb_spec c sep) as [->|Hc].
  - rewrite join_cons by assumption. simpl. now rewrite IH.
  - destruct (split sep s) as [|l ls]; [congruence|].
    destruct ls as [|l' ls].
    + simpl in *. now rewrite IH.
    + rewrite join_cons by discriminate. rewrite join_cons in IH by discriminate.
      simpl. simpl in IH. now rewrite IH.
Qed.

Lemma split_line (sep : N) (l s : jsstring) :
  without sep l -> split sep (l ++ sep :: s) = l :: split sep s.
Proof. intros H. now rewrite split_app, split_without. Qed.

Lemma split_withLines (ls : list jsstring) (body : jsstring) :
  Forall (without LF) ls -> split LF (withLines ls body) = ls ++ split LF body.
Proof.
  induction 1 as [|l ls Hl _ IH]; [reflexivity|].
  cbn [withLines fold_right]. fold (withLines ls body).
  now rewrite split_line, IH.
Qed.

(** What both functions go on with, after six lines of metadata. *)
Lemma remainder_withLines (ls : list jsstring) (body : jsstring) :
  length ls = 6 -> Forall (without LF) ls ->
  join [LF] (slice 6 (split LF (withLines ls body))) = body.
Proof.
  intros Hlen H. rewrite split_withLines by assumption.
  unfold slice. rewrite <- Hlen, skipn_app, skipn_all, Nat.sub_diag.
  cbn [skipn app]. apply join_split.
Qed.

(** ** Trimming *)

Lemma trimStart_idempotent (s : jsstring) : trimStart (trimStart s) = trimStart s.
Proof.
  induction s as [|c s IH]; [reflexivity|].
  simpl. destruct (isSpace c) eqn:E; [assumption|]. simpl. now rewrite E.
Qed.

Lemma trimStart_fixed (c : N) (s : jsstring) :
  isSpace c = false -> trimStart (c :: s) = c :: s.
Proof. intros H. simpl. now rewrite H. Qed.

Lemma trimEnd_head (c : N) (s : jsstring) :
  isSpace c = false -> exists t, trimEnd (c :: s) = c :: t.
Proof.
  intros Hc. unfold trimEnd. simpl.
  assert (H : forall r, exists t, rev (trimStart (r ++ [c])) = c :: t).
  { induction r as [|d r IH]; simpl.
    - rewrite Hc. now exists [].
    - destruct (isSpace d); [exact IH|].
      simpl. rewrite rev_app_distr. simpl. now eexists. }
  apply H.
Qed.

Lemma trim_idempotent (s : jsstring) : trim (trim s) = trim s.
Proof.
  unfold trim.
  assert (H : trimStart (trimEnd (trimStart s)) = trimEnd (trimStart s)).
  { destruct (trimStart s) as [|c t] eqn:E; [reflexivity|].
    assert (Hc : isSpace c = false).
    { destruct (isSpace c) eqn:Ec; [|reflexivity].
      pose proof (trimStart_idempotent s) as Hi. rewrite E in Hi.
      simpl in Hi. rewrite Ec in Hi.
      assert (Hl : length (trimStart t) <= length t).
      { clear. induction t as [|c t IH]; simpl; [lia|]. destruct (isSpace c); simpl; lia. }
      rewrite Hi in Hl. simpl in Hl. lia. }
    destruct (@trimEnd_head c t Hc) as [u ->]. now apply trimStart_fixed. }
  rewrite H. unfold trimEnd. rewrite rev_involutive. now rewrite trimStart_idempotent.
Qed.

(** ** The heading of a document *)

(** A greedy star that takes all it can and is followed by a match, has
    matched. *)
Lemma starGreedy_longest (p : N -> bool) (k : cont) (r : mstate) :
  forall s pv cs,
    k (MState (lastOr pv (takeWhile p s)) (dropWhile p s) cs) = Some r ->
    starGreedy p k pv cs s = Some r.
Proof.
  induction s as [|c s IH]; intros pv cs H; simpl in *; [assumption|].
  destruct (p c); [|assumption]. now rewrite (IH _ _ H).
Qed.

(** A lazy star runs over the characters of its class before which what
    follows it fails. *)
Lemma starLazy_skip (p : N -> bool) (k : cont) (cs : list (nat * jsstring)) :
  forall t s pv,
    Forall (fun c => p c = true /\ forall pv' u, k (MState pv' (c :: u) cs) = None) t ->
    starLazy p k pv cs (t ++ s) = starLazy p k (lastOr pv t) cs s.
Proof.
  induction t as [|c t IH]; intros s pv H; [reflexivity|].
  inversion H as [|? ? [Hp Hk] Ht]; subst.
  cbn [app]. destruct s as [|d s]; cbn [starLazy app lastOr].
  - rewrite app_nil_r in *. simpl. rewrite Hk. cbn [orElse]. rewrite Hp.
    rewrite <- (app_nil_r t) at 1. now rewrite IH.
  - simpl. rewrite Hk. cbn [orElse]. rewrite Hp. now rewrite IH.
Qed.

Lemma isBlank_not_hash (c : N) : isBlank c = true -> N.eqb c (cu "#") = false.
Proof.
  unfold isBlank, atom_match, mem. cbn [existsb]. rewrite !orb_true_iff.
  intros [H|[H|H]]; [| |discriminate]; apply N.eqb_eq in H; subst; reflexivity.
Qed.

Lemma headed_matchHere (r : regex) (indent gap : jsstring) (c : N) (T' tail : jsstring)
    (z : mstate) :
  Forall (fun b => isBlank b = true) indent ->
  Forall (fun b => isSpace b = true) gap ->
  isSpace c = false ->
  Forall (fun d => isLineTerminator d = false) (c :: T') ->
  (forall d u pv cs, isLineTerminator d = false ->
     matcher true r (MState pv (d :: u) cs) (fun y => Some y) = None) ->
  matcher true r (MState (lastOr (Some c) T') tail [(1, c :: T')]) (fun y => Some y) = Some z ->
  matcher true (headed r) (MState None (indent ++ cu "#" :: gap ++ (c :: T') ++ tail) [])
    (fun y => Some y) = Some z.
Proof.
  intros Hi Hg Hc HT Hfail Hz.
  unfold headed. cbn [rseq fold_right matcher atStart prev rest caps].
  (* the indentation *)
  rewrite starGreedy_commit.
  2:{ intros pv cs b s Hb. unfold chr. cbn [matcher]. rewrite one_char. cbn [rest].
      now rewrite (isBlank_not_hash _ Hb). }
  fold isBlank.
  rewrite (dropWhile_app _ _ Hi).
  cbn [dropWhile]. replace (isBlank (cu "#")) with false by reflexivity.
  unfold chr at 1. cbn [matcher]. rewrite one_char. cbn [rest caps]. rewrite N.eqb_refl.
  (* the gap *)
  apply starGreedy_longest.
  assert (Hd : dropWhile (atom_match ASpace) (gap ++ (c :: T') ++ tail) = (c :: T') ++ tail).
  { rewrite dropWhile_app by exact Hg. cbn [app dropWhile].
    unfold atom_match. now rewrite Hc. }
  rewrite Hd. cbn [matcher prev rest caps].
  (* the text *)
  inversion HT as [|? ? Hc' HT']; subst.
  unfold one. cbn [rest app]. unfold atom_match at 1. rewrite Hc'. cbn [negb prev caps rest].
  rewrite starLazy_skip.
  2:{ apply Forall_forall. intros d Hd'. rewrite Forall_forall in HT'. specialize (HT' d Hd').
      split; [unfold atom_match; now rewrite HT'|].
      intros pv' u. cbn [prev rest caps]. now apply Hfail. }
  destruct tail as [|e tail'].
  - cbn [starLazy]. cbn [prev rest caps].
    change (c :: T' ++ []) with ((c :: T') ++ []).
    rewrite consumed_app.
    match goal with |- orElse ?a _ = _ => replace a with (Some z) by (symmetry; exact Hz) end.
    reflexivity.
  - cbn [starLazy]. cbn [prev rest caps].
    change (c :: T' ++ e :: tail') with ((c :: T') ++ e :: tail').
    rewrite consumed_app.
    match goal with |- orElse ?a _ = _ => replace a with (Some z) by (symmetry; exact Hz) end.
    reflexivity.
Qed.

Lemma not_terminator_not_LF (d : N) : isLineTerminator d = false -> N.eqb d LF = false.
Proof.
  intros H. destruct (N.eqb_spec d LF) as [->|]; [discriminate H | reflexivity].
Qed.

Lemma heading_match (indent gap : jsstring) (c : N) (T' tail : jsstring) :
  Forall (fun b => isBlank b = true) indent ->
  Forall (fun b => isSpace b = true) gap ->
  isSpace c = false ->
  Forall (fun d => isLineTerminator d = false) (c :: T') ->
  lineEnd tail ->
  exists m,
    exec headerMatchRegex (indent ++ cu "#" :: gap ++ (c :: T') ++ tail) = Some m
    /\ group 1 m = c :: T'.
Proof.
  intros Hi Hg Hc HT Hend.
  assert (Hfail : forall d u pv cs, isLineTerminator d = false ->
            matcher true (RAlt (RAtom (AChar LF)) REol) (MState pv (d :: u) cs)
              (fun y => Some y) = None).
  { intros d u pv cs Hd. cbn [matcher]. rewrite one_char. cbn [rest atEnd].
    rewrite (not_terminator_not_LF _ Hd), Hd. reflexivity. }
  assert (Hz : exists z,
            matcher true (RAlt (RAtom (AChar LF)) REol)
              (MState (lastOr (Some c) T') tail [(1, c :: T')]) (fun y => Some y) = Some z
            /\ caps z = [(1, c :: T')]).
  { cbn [matcher]. rewrite one_char. cbn [rest atEnd caps].
    destruct tail as [|e tail']; [eexists; split; reflexivity|].
    destruct (N.eqb e LF); [eexists; split; reflexivity|].
    simpl in Hend. cbn [orElse atEnd rest andb]. rewrite Hend. eexists; split; reflexivity. }
  destruct Hz as [z [Hz Hcaps]].
  pose proof (@headed_matchHere _ indent gap c T' tail z Hi Hg Hc HT Hfail Hz) as H.
  unfold exec.
  destruct (indent ++ cu "#" :: gap ++ (c :: T') ++ tail) as [|c0 s0] eqn:Es.
  - destruct indent; discriminate.
  - cbn [execFrom]. unfold matchHere.
    change (matcher (multiline_flag headerMatchRegex) (expr headerMatchRegex)
              (MState None (c0 :: s0) []) (fun y => Some y))
      with (matcher true (headed (RAlt (RAtom (AChar LF)) REol))
              (MState None (c0 :: s0) []) (fun y => Some y)).
    rewrite H. eexists. split; [reflexivity|].
    unfold group. cbn [groups]. rewrite Hcaps. reflexivity.
Qed.

Lemma heading_removed (indent gap : jsstring) (c : N) (T' tail : jsstring) :
  Forall (fun b => isBlank b = true) indent ->
  Forall (fun b => isSpace b = true) gap ->
  isSpace c = false ->
  Forall (fun d => isLineTerminator d = false) (c :: T') ->
  lineEnd tail ->
  replaceFirst leadingNewlinesRegex []
    (replaceFirst headerReplaceRegex [] (indent ++ cu "#" :: gap ++ (c :: T') ++ tail))
  = dropWhile isLF tail.
Proof.
  intros Hi Hg Hc HT Hend.
  assert (Hfail : forall d u pv cs, isLineTerminator d = false ->
            matcher true (RAlt (RPlus (AChar LF)) REol) (MState pv (d :: u) cs)
              (fun y => Some y) = None).
  { intros d u pv cs Hd. cbn [matcher]. rewrite one_char. cbn [rest atEnd].
    rewrite (not_terminator_not_LF _ Hd), Hd. reflexivity. }
  assert (Hz : exists z,
            matcher true (RAlt (RPlus (AChar LF)) REol)
              (MState (lastOr (Some c) T') tail [(1, c :: T')]) (fun y => Some y) = Some z
            /\ dropWhile isLF (rest z) = dropWhile isLF tail).
  { cbn [matcher]. rewrite one_char. cbn [rest atEnd caps prev].
    destruct tail as [|e tail']; [eexists; split; reflexivity|].
    destruct (N.eqb e LF) eqn:Ee.
    - rewrite starGreedy_accept. eexists; split; [reflexivity|]. cbn [rest dropWhile].
      replace (isLF e) with true by (symmetry; exact Ee).
      clear. induction tail' as [|d t IH]; [reflexivity|].
      cbn [dropWhile]. change (atom_match (AChar LF) d) with (isLF d).
      destruct (isLF d) eqn:E; [exact IH|]. cbn [dropWhile]. now rewrite E.
    - simpl in Hend. cbn [orElse atEnd rest andb]. rewrite Hend.
      eexists; split; reflexivity. }
  destruct Hz as [z [Hz Hrest]].
  pose proof (@headed_matchHere _ indent gap c T' tail z Hi Hg Hc HT Hfail Hz) as H.
  rewrite replace_leadingNewlines. unfold replaceFirst at 1, exec.
  destruct (indent ++ cu "#" :: gap ++ (c :: T') ++ tail) as [|c0 s0] eqn:Es.
  - destruct indent; discriminate.
  - cbn [execFrom]. unfold matchHere.
    change (matcher (multiline_flag headerReplaceRegex) (expr headerReplaceRegex)
              (MState None (c0 :: s0) []) (fun y => Some y))
      with (matcher true (headed (RAlt (RPlus (AChar LF)) REol))
              (MState None (c0 :: s0) []) (fun y => Some y)).
    rewrite H. cbn [before after rev app]. exact Hrest.
Qed.

Lemma starGreedy_none (p : N -> bool) (k : cont) (P : N -> Prop) :
  (forall pv cs u, Forall P u -> k (MState pv u cs) = None) ->
  forall s pv cs, Forall P s -> starGreedy p k pv cs s = None.
Proof.
  intros Hk. induction s as [|c s IH]; intros pv cs H; simpl; [now apply Hk|].
  destruct (p c); [|now apply Hk].
  inversion H; subst. rewrite IH by assumption. simpl. now apply Hk.
Qed.

Lemma headerMatch_needs_hash (s : jsstring) :
  without (cu "#") s -> forall sk pv, execFrom headerMatchRegex sk pv s = None.
Proof.
  assert (Hm : forall s pv, without (cu "#") s -> matchHere headerMatchRegex pv s = None).
  { intros u pv Hu. unfold matchHere, headerMatchRegex. cbn [expr multiline_flag].
    cbn [rseq fold_right matcher]. destruct (atStart true _); [|reflexivity].
    cbn [prev rest caps].
    apply starGreedy_none with (P := fun c => c <> cu "#"); [|exact Hu].
    intros pv' cs v Hv. unfold chr. cbn [matcher]. rewrite one_char. cbn [rest].
    destruct v as [|d v]; [reflexivity|]. inversion Hv as [|? ? Hd _]; subst.
    apply N.eqb_neq in Hd. now rewrite Hd. }
  induction s as [|c s IH]; intros H sk pv; cbn [execFrom]; rewrite Hm by assumption;
    [reflexivity|].
  inversion H; subst. now apply IH.
Qed.

Lemma without_join (d sep : N) (ls : list jsstring) :
  sep <> d -> Forall (without d) ls -> without d (join [sep] ls).
Proof.
  intros Hs. induction 1 as [|l ls Hl Hls IH]; [constructor|].
  destruct ls as [|l' ls]; [exact Hl|].
  change (join [sep] (l :: l' :: ls)) with (l ++ [sep] ++ join [sep] (l' :: ls)).
  apply Forall_app. split; [exact Hl|]. apply Forall_app. split; [|exact IH].
  now repeat constructor.
Qed.

Lemma without_split (d sep : N) (s : jsstring) :
  without d s -> Forall (without d) (split sep s).
Proof.
  induction 1 as [|c s Hc Hs IH]; [repeat constructor|].
  simpl. destruct (N.eqb c sep); [constructor; [constructor | exact IH]|].
  destruct (split sep s) as [|l ls]; [repeat constructor; assumption|].
  inversion IH; subst. constructor; [now constructor | assumption].
Qed.

Lemma Forall_skipn (A : Type) (P : A -> Prop) (n : nat) (l : list A) :
  Forall P l -> Forall P (skipn n l).
Proof.
  revert l. induction n as [|n IH]; intros l H; [exact H|].
  destruct l as [|a l]; [constructor|]. inversion H; subst. now apply IH.
Qed.

Lemma without_remainder (d : N) (raw : jsstring) :
  d <> LF -> without d raw -> without d (join [LF] (slice 6 (split LF raw))).
Proof.
  intros Hd H. apply without_join; [congruence|].
  unfold slice. apply Forall_skipn. now apply without_split.
Qed.

Lemma basename_component (seg : jsstring) : component seg -> basename seg = seg.
Proof.
  intros [Hne Hw]. unfold basename.
  assert (Hr : Forall (fun c => negb (isSlash c) = true) (rev seg)).
  { apply Forall_rev. eapply Forall_impl; [|exact Hw]. intros c Hc. cbv beta.
    unfold isSlash. apply negb_true_iff. now apply N.eqb_neq. }
  assert (Hd : dropWhile isSlash (rev seg) = rev seg).
  { destruct (rev seg) as [|c r]; [reflexivity|]. inversion Hr as [|? ? Hc _]; subst.
    cbn [dropWhile]. apply negb_true_iff in Hc. now rewrite Hc. }
  rewrite Hd. rewrite <- (app_nil_r (rev seg)) at 1.
  rewrite takeWhile_app by exact Hr. cbn [takeWhile]. rewrite app_nil_r.
  apply rev_involutive.
Qed.

Lemma basenameWithout_md (stem : jsstring) :
  component stem -> basenameWithout (stem ++ js ".md") (js ".md") = stem.
Proof.
  intros [Hne Hw]. unfold basenameWithout.
  rewrite length_app. change (length (js ".md")) with 3.
  replace (Nat.ltb (length stem + 3) 3) with false by (symmetry; apply Nat.ltb_ge; lia).
  destruct (str_eqb_spec (js ".md") (stem ++ js ".md")) as [E|_].
  { apply (f_equal (@length _)) in E. rewrite length_app in E. simpl in E.
    destruct stem; [congruence | simpl in E; lia]. }
  rewrite basename_component.
  2:{ split; [now destruct stem|]. apply Forall_app. split; [exact Hw|].
      unfold without. repeat constructor; discriminate. }
  replace (endsWith (stem ++ js ".md") (js ".md")) with true
    by (symmetry; apply endsWith_suffix; now exists stem).
  rewrite length_app. change (length (js ".md")) with 3.
  replace (Nat.eqb (length stem + 3) 3) with false
    by (symmetry; apply Nat.eqb_neq; destruct stem; [congruence | simpl; lia]).
  rewrite Nat.add_sub, firstn_app, Nat.sub_diag, firstn_all. simpl. apply app_nil_r.
Qed.

(** ** [parseDocumentContent] *)

(** X1.  What the first six lines hold has no influence on what
    [parseDocumentContent] and [updateMarkdownLinks] return, and the cleaned
    content is made from the rest of the input alone. *)
Theorem preamble_is_discarded
    (reg : registry) (ls ls' : list jsstring) (body fileName : jsstring) :
  length ls = 6 -> length ls' = 6 ->
  Forall (without LF) ls -> Forall (without LF) ls' ->
  parseDocumentContent (withLines ls body) fileName
  = parseDocumentContent (withLines ls' body) fileName
  /\ updateMarkdownLinks reg (withLines ls body) = updateMarkdownLinks reg (withLines ls' body)
  /\ cleanedContent (withLines ls body)
     = replaceFirst leadingNewlinesRegex [] (replaceFirst headerReplaceRegex [] body).
Proof.
  intros H1 H2 H3 H4.
  unfold updateMarkdownLinks, parseDocumentContent, cleanedContent.
  now rewrite !remainder_withLines by assumption.
Qed.

(** X1 for two preambles in front of a heading. *)
Lemma preamble_is_discarded_witness :
  parseDocumentContent
    (withLines [js "a"; js "b"; js "c"; js "d"; js "e"; js "f"] (js "# T")) (js "x.md")
  = parseDocumentContent (withLines [[]; []; []; []; []; []] (js "# T")) (js "x.md").
Proof.
  refine (proj1 (@preamble_is_discarded (Registry [] [] []) _ _ _ _ _ _ _ _));
    try reflexivity; unfold without; repeat constructor; discriminate.
Defined.

(** X2.  For a content of at most six lines nothing is left:
    [parseDocumentContent] returns the file name without [.md], trimmed, as
    title and an empty body, and [updateMarkdownLinks] the empty string. *)
Theorem short_content_has_no_body (reg : registry) (rawContent fileName : jsstring) :
  length (split LF rawContent) <= 6 ->
  parseDocumentContent rawContent fileName
  = Document (trim (basenameWithout fileName (js ".md"))) []
  /\ updateMarkdownLinks reg rawContent = Ok [].
Proof.
  intros H. unfold updateMarkdownLinks, parseDocumentContent, cleanedContent, slice.
  rewrite (skipn_all2 _ H). split; reflexivity.
Qed.

(** X2 for a content of one line. *)
Lemma short_content_has_no_body_witness :
  parseDocumentContent (js "only one line") (js "notes.md") = Document (js "notes") [].
Proof.
  refine (proj1 (@short_content_has_no_body (Registry [] [] []) _ _ _)).
  vm_compute. repeat constructor.
Defined.

(** X3.  When the rest of the input starts with a heading (blanks
    or tabs, [#], white space, then a text that starts with a character
    that is no white space, holds no line terminator, and stands before a
    line terminator or the end), the title is that text, trimmed, and the
    body is what follows the text, trimmed; the cleaned content of
    [updateMarkdownLinks] is what follows the text without its leading
    newlines.  The white space after [#] may hold line breaks. *)
Theorem parseDocumentContent_heading
    (ls : list jsstring) (indent gap : jsstring) (c : N) (heading tail fileName : jsstring) :
  length ls = 6 -> Forall (without LF) ls ->
  Forall (fun b => b = cu " " \/ b = 9%N) indent ->
  Forall (fun b => isSpace b = true) gap ->
  isSpace c = false ->
  Forall (fun d => isLineTerminator d = false) (c :: heading) ->
  lineEnd tail ->
  parseDocumentContent (withLines ls (indent ++ cu "#" :: gap ++ (c :: heading) ++ tail)) fileName
  = Document (trim (c :: heading)) (trim tail)
  /\ cleanedContent (withLines ls (indent ++ cu "#" :: gap ++ (c :: heading) ++ tail))
     = dropWhile isLF tail.
Proof.
  intros Hlen Hls Hi Hg Hc HT Hend.
  assert (Hi' : Forall (fun b => isBlank b = true) indent).
  { eapply Forall_impl; [|exact Hi]. intros b [->| ->]; reflexivity. }
  unfold parseDocumentContent, cleanedContent.
  rewrite remainder_withLines by assumption.
  rewrite (@heading_removed indent gap c heading tail Hi' Hg Hc HT Hend).
  destruct (@heading_match indent gap c heading tail Hi' Hg Hc HT Hend) as [m [-> Hm]].
  rewrite Hm, trim_idempotent, trim_leadingNewlines.
  split; reflexivity.
Qed.

(** X3 for an indented heading with a trailing blank and an empty line after it. *)
Lemma parseDocumentContent_heading_witness :
  parseDocumentContent
    (withLines [js "a"; js "b"; js "c"; js "d"; js "e"; js "f"]
       (js "  #" ++ js " " ++ js "My Title " ++ (LF :: LF :: js "Body")))
    (js "x.md")
  = Document (js "My Title") (js "Body").
Proof.
  refine (proj1 (@parseDocumentContent_heading
                   [js "a"; js "b"; js "c"; js "d"; js "e"; js "f"]
                   (js "  ") (js " ") (cu "M") (js "y Title ") (LF :: LF :: js "Body")
                   (js "x.md") _ _ _ _ _ _ _)).
  - reflexivity.
  - unfold without. repeat constructor; discriminate.
  - repeat constructor; now left.
  - repeat constructor.
  - reflexivity.
  - repeat constructor.
  - reflexivity.
Defined.

(** X4.  A content without [#] has no heading: the title is the
    file name without [.md], trimmed ([stem] for a file name [stem.md]
    without slash), and the body is the rest of the input, trimmed. *)
Theorem parseDocumentContent_without_hash (rawContent fileName : jsstring) :
  without (cu "#") rawContent ->
  parseDocumentContent rawContent fileName
  = Document (trim (basenameWithout fileName (js ".md")))
      (trim (join [LF] (slice 6 (split LF rawContent))))
  /\ forall stem, stem <> [] -> without SLASH stem ->
       title (parseDocumentContent rawContent (stem ++ js ".md")) = trim stem.
Proof.
  intros H.
  assert (E : forall f, parseDocumentContent rawContent f
                = Document (trim (basenameWithout f (js ".md")))
                    (trim (join [LF] (slice 6 (split LF rawContent))))).
  { intros f. unfold parseDocumentContent, exec.
    rewrite headerMatch_needs_hash; [reflexivity|].
    apply without_remainder; [discriminate | exact H]. }
  split; [apply E|].
  intros stem Hne Hw. rewrite E. cbn [title]. rewrite basenameWithout_md; [reflexivity|].
  now split.
Qed.

(** X4 for a plain text. *)
Lemma parseDocumentContent_without_hash_witness :
  parseDocumentContent (withPreamble (js " plain text ")) (js "dir/notes.md")
  = Document (js "notes") (js "plain text").
Proof.
  refine (proj1 (@parseDocumentContent_without_hash _ _ _)).
  unfold without. vm_compute. repeat constructor; discriminate.
Defined.

(** X5.  The title and the body that [parseDocumentContent] returns
    have no white space at either end: trimming them changes nothing. *)
Theorem parsed_document_is_trimmed (rawContent fileName : jsstring) :
  trim (title (parseDocumentContent rawContent fileName))
  = title (parseDocumentContent rawContent fileName)
  /\ trim (content (parseDocumentContent rawContent fileName))
     = content (parseDocumentContent rawContent fileName).
Proof.
  unfold parseDocumentContent.
  destruct (exec headerMatchRegex _); cbn [title content]; split; apply trim_idempotent.
Qed.

(** ** Percent signs *)

Lemma decodeLoop_plain (s : jsstring) :
  without (cu "%") s -> forall fuel, length s <= fuel -> decodeLoop fuel s = Ok s.
Proof.
  induction 1 as [|c s Hc Hs IH]; intros fuel Hf; [destruct fuel; reflexivity|].
  destruct fuel as [|fuel]; [simpl in Hf; lia|].
  cbn [decodeLoop]. apply N.eqb_neq in Hc. rewrite Hc.
  rewrite IH by (simpl in Hf; lia). reflexivity.
Qed.

Lemma decodeURIComponent_plain (s : jsstring) :
  without (cu "%") s -> decodeURIComponent s = Ok s.
Proof. intros H. now apply decodeLoop_plain. Qed.

Lemma without_app (d : N) (a b : jsstring) :
  without d (a ++ b) <-> without d a /\ without d b.
Proof. apply Forall_app. Qed.

Lemma without_stripLeadingSlash (d : N) (s : jsstring) :
  without d s -> without d (stripLeadingSlash s).
Proof.
  intros H. destruct s as [|c s]; [exact H|]. simpl.
  destruct (N.eqb c (cu "/")); [now inversion H | exact H].
Qed.

Lemma without_replaceFirst (d : N) (p : pattern) (s : jsstring) :
  without d s -> without d (replaceFirst p [] s).
Proof.
  intros H. unfold replaceFirst, exec.
  destruct (execFrom p [] None s) as [m|] eqn:E; [|exact H].
  apply execFrom_split in E. simpl in E. rewrite E in H.
  apply without_app in H. destruct H as [Hb H]. apply without_app in H.
  apply without_app. split; [exact Hb | apply H].
Qed.

Lemma without_cleanedContent (d : N) (raw : jsstring) :
  d <> LF -> without d raw -> without d (cleanedContent raw).
Proof.
  intros Hd H. unfold cleanedContent.
  do 2 apply without_replaceFirst. now apply without_remainder.
Qed.

Lemma rewrittenTarget_plain (reg : registry) (target : jsstring) :
  without (cu "%") target -> exists url, rewrittenTarget reg target = Ok url.
Proof.
  intros H. unfold rewrittenTarget.
  destruct (startsWith target (js "http")); [now eexists|].
  rewrite decodeURIComponent_plain by now apply without_stripLeadingSlash.
  now eexists.
Qed.

Lemma without_linkTo (d : N) (linkText target post : jsstring) :
  without d (linkTo linkText target ++ post) -> without d target /\ without d post.
Proof.
  rewrite linkTo_cons. intros H. cbn [app] in H.
  inversion H as [|? ? _ H']; subst.
  rewrite <- app_assoc in H'. apply without_app in H'. destruct H' as [_ H'].
  cbn [app] in H'. inversion H' as [|? ? _ H'']; subst. inversion H'' as [|? ? _ H3]; subst.
  rewrite <- app_assoc in H3. apply without_app in H3. destruct H3 as [Ht H3].
  split; [exact Ht|]. now inversion H3.
Qed.

Lemma rewriteLinks_plain (reg : registry) :
  forall n s, length s < n -> without (cu "%") s -> exists out, rewriteLinks reg s = Ok out.
Proof.
  induction n as [|n IH]; intros s Hn H; [lia|].
  destruct s as [|c s'].
  - exists []. apply rewriteLinks_nil.
  - destruct (rewriteLinkAt (c :: s')) as [[[linkText target] post]|] eqn:E.
    + rewrite (@rewriteLinks_link reg _ _ _ _ E), rewriteLink_linkMatch.
      apply rewriteLinkAt_Some in E. destruct E as [Es _].
      rewrite Es in H, Hn. destruct (without_linkTo H) as [Ht Hp].
      destruct (rewrittenTarget_plain reg Ht) as [url ->]. cbn [bind].
      destruct (IH post) as [t ->]; [|exact Hp|now eexists].
      rewrite linkTo_cons in Hn. simpl in Hn. rewrite length_app in Hn. lia.
    + rewrite (@rewriteLinks_skip reg _ _ E).
      inversion H; subst.
      destruct (IH s') as [t ->]; [simpl in Hn; lia | assumption | now eexists].
Qed.

Lemma rewriteLinks_unmapped (reg : registry) :
  documentUrlMap reg = [] -> attachmentUrlMap reg = [] ->
  forall n s out, length s < n -> rewriteLinks reg s = Ok out -> out = s.
Proof.
  intros Hd Ha. induction n as [|n IH]; intros s out Hn H; [lia|].
  destruct s as [|c s'].
  - rewrite rewriteLinks_nil in H. now injection H.
  - destruct (rewriteLinkAt (c :: s')) as [[[linkText target] post]|] eqn:E.
    + rewrite (@rewriteLinks_link reg _ _ _ _ E), rewriteLink_linkMatch in H.
      apply rewriteLinkAt_Some in E. destruct E as [Es _].
      rewrite Es in Hn. rewrite Es.
      destruct (rewrittenTarget reg target) as [url|e] eqn:Eu; [|discriminate].
      cbn [bind] in H.
      destruct (rewriteLinks reg post) as [t|e] eqn:Et; [|discriminate].
      cbn [bind] in H. injection H as <-.
      assert (Hlen : length post < n).
      { rewrite linkTo_cons in Hn. simpl in Hn. rewrite length_app in Hn. lia. }
      rewrite (IH post t Hlen Et).
      destruct (rewrittenTarget_cases _ _ Eu) as [->|[Hin _]]; [reflexivity|].
      unfold urls in Hin. rewrite Hd, Ha in Hin. destruct Hin.
    + rewrite (@rewriteLinks_skip reg _ _ E) in H.
      destruct (rewriteLinks reg s') as [t|e] eqn:Et; [|discriminate].
      cbn [bind] in H. injection H as <-. f_equal.
      apply (IH s'); [simpl in Hn; lia | exact Et].
Qed.

Lemma decodeLoop_error (e : error) :
  forall fuel s, decodeLoop fuel s = Throw e -> e = URIError.
Proof.
  induction fuel as [|fuel IH]; intros s H.
  - destruct s; simpl in H; [discriminate | congruence].
  - destruct s as [|c s]; [discriminate|]. cbn [decodeLoop] in H.
    destruct (N.eqb c (cu "%")).
    + destruct (escapeAt (c :: s)) as [[b s1]|]; [|congruence].
      destruct (N.ltb b 128).
      * destruct (decodeLoop fuel s1) eqn:E; [discriminate|].
        cbn [bind] in H. injection H as ->. now apply (IH s1).
      * destruct (sequenceLength b) as [n|]; [|congruence].
        destruct (escapesAt (n - 1) s1) as [[bs s2]|]; [|congruence].
        destruct (utf8CodePoint b bs); [|congruence].
        destruct (decodeLoop fuel s2) eqn:E; [discriminate|].
        cbn [bind] in H. injection H as ->. now apply (IH s2).
    + destruct (decodeLoop fuel s) eqn:E; [discriminate|].
      cbn [bind] in H. injection H as ->. now apply (IH s).
Qed.

Lemma rewrittenTarget_error (reg : registry) (target : jsstring) (e : error) :
  rewrittenTarget reg target = Throw e -> e = URIError.
Proof.
  unfold rewrittenTarget. destruct (startsWith target (js "http")); [discriminate|].
  destruct (decodeURIComponent (stripLeadingSlash target)) eqn:E; [discriminate|].
  cbn [bind]. intros H. injection H as ->. now apply decodeLoop_error in E.
Qed.

Lemma rewriteLinks_error (reg : registry) (e : error) :
  forall n s, length s < n -> rewriteLinks reg s = Throw e -> e = URIError.
Proof.
  induction n as [|n IH]; intros s Hn H; [lia|].
  destruct s as [|c s'].
  - rewrite rewriteLinks_nil in H. discriminate.
  - destruct (rewriteLinkAt (c :: s')) as [[[linkText target] post]|] eqn:E.
    + rewrite (@rewriteLinks_link reg _ _ _ _ E), rewriteLink_linkMatch in H.
      apply rewriteLinkAt_Some in E. destruct E as [Es _]. rewrite Es in Hn.
      destruct (rewrittenTarget reg target) as [url|e'] eqn:Eu.
      * cbn [bind] in H.
        destruct (rewriteLinks reg post) as [t|e'] eqn:Et; [discriminate|].
        cbn [bind] in H. injection H as ->. apply (IH post); [|exact Et].
        rewrite linkTo_cons in Hn. simpl in Hn. rewrite length_app in Hn. lia.
      * cbn [bind] in H. injection H as ->. now apply rewrittenTarget_error in Eu.
    + rewrite (@rewriteLinks_skip reg _ _ E) in H.
      destruct (rewriteLinks reg s') as [t|e'] eqn:Et; [discriminate|].
      cbn [bind] in H. injection H as ->. apply (IH s'); [simpl in Hn; lia | exact Et].
Qed.

(** ** [updateMarkdownLinks] *)

(** X6.  A cleaned content without an opening bracket is
    returned as it is, for every registry. *)
Theorem updateMarkdownLinks_without_bracket (reg : registry) (rawContent : jsstring) :
  without (cu "[") (cleanedContent rawContent) ->
  updateMarkdownLinks reg rawContent = Ok (cleanedContent rawContent).
Proof.
  intros H. unfold updateMarkdownLinks.
  rewrite <- (app_nil_r (cleanedContent rawContent)) at 1.
  rewrite rewriteLinks_linkFree by now apply without_linkFree.
  rewrite rewriteLinks_nil. cbn [bind]. now rewrite app_nil_r.
Qed.

(** X6 for a text with parentheses but no bracket. *)
Lemma updateMarkdownLinks_without_bracket_witness :
  updateMarkdownLinks exampleRegistry (withPreamble (js "# T" ++ [LF] ++ js "no links (here)"))
  = Ok (cleanedContent (withPreamble (js "# T" ++ [LF] ++ js "no links (here)"))).
Proof.
  refine (@updateMarkdownLinks_without_bracket _ _ _).
  unfold without. vm_compute. repeat constructor; discriminate.
Defined.

(** X7.  The only error that [updateMarkdownLinks] throws is
    [URIError], and it throws none on a content without a percent sign. *)
Theorem updateMarkdownLinks_errors (reg : registry) (rawContent : jsstring) :
  (forall e, updateMarkdownLinks reg rawContent = Throw e -> e = URIError)
  /\ (without (cu "%") rawContent -> exists out, updateMarkdownLinks reg rawContent = Ok out).
Proof.
  unfold updateMarkdownLinks. split.
  - intros e. apply (@rewriteLinks_error reg e (S (length (cleanedContent rawContent)))). lia.
  - intros H. apply (@rewriteLinks_plain reg (S (length (cleanedContent rawContent)))); [lia|].
    apply without_cleanedContent; [discriminate | exact H].
Qed.

(** X7 for the round-trip example. *)
Lemma updateMarkdownLinks_errors_witness :
  exists out, updateMarkdownLinks exampleRegistry (withPreamble exampleContent) = Ok out.
Proof.
  refine (proj2 (@updateMarkdownLinks_errors exampleRegistry (withPreamble exampleContent)) _).
  unfold without. vm_compute. repeat constructor; discriminate.
Defined.

(** X8.  With no document URL and no attachment URL registered,
    what [updateMarkdownLinks] returns is the cleaned content, unchanged. *)
Theorem updateMarkdownLinks_unmapped (reg : registry) (rawContent out : jsstring) :
  documentUrlMap reg = [] -> attachmentUrlMap reg = [] ->
  updateMarkdownLinks reg rawContent = Ok out ->
  out = cleanedContent rawContent.
Proof.
  intros Hd Ha H. unfold updateMarkdownLinks in H.
  eapply rewriteLinks_unmapped; [exact Hd | exact Ha | | exact H]. apply Nat.lt_succ_diag_r.
Qed.

(** X8 for a content with two links. *)
Lemma updateMarkdownLinks_unmapped_witness :
  js "[a](b.md) ![c](d.png)" = cleanedContent (withPreamble (js "[a](b.md) ![c](d.png)")).
Proof.
  refine (@updateMarkdownLinks_unmapped (Registry [] [] [(js "b.md", js "B")])
            (withPreamble (js "[a](b.md) ![c](d.png)")) _ _ _ _); reflexivity.
Defined.

(** ** Links to what was registered *)

Lemma stripMdSuffix_app (p : jsstring) : stripMdSuffix (p ++ js ".md") = p.
Proof.
  unfold stripMdSuffix.
  replace (endsWith (p ++ js ".md") (js ".md")) with true
    by (symmetry; apply endsWith_suffix; now exists p).
  rewrite length_app. change (length (js ".md")) with 3.
  rewrite Nat.add_sub, firstn_app, Nat.sub_diag, firstn_all. simpl. apply app_nil_r.
Qed.

Lemma present_truthy (v : option jsstring) : truthy v = false -> present v = None.
Proof. destruct v as [[|c u]|]; simpl; [reflexivity | discriminate | reflexivity]. Qed.

Lemma rewrittenTarget_registered (reg : registry) (target p url : jsstring) :
  startsWith target (js "http") = false ->
  decodeURIComponent (stripLeadingSlash target) = Ok (p ++ js ".md") ->
  truthy (map_get p (documentUrlMap reg)) = false ->
  map_get (p ++ js ".md") (documentUrlMap reg) = Some url -> url <> [] ->
  rewrittenTarget reg target = Ok url.
Proof.
  intros Hh Hd Hp Hu Hne. unfold rewrittenTarget. rewrite Hh, Hd. cbn [bind].
  unfold resolvedTarget. rewrite stripMdSuffix_app, (present_truthy _ Hp), Hu.
  destruct url; [congruence | reflexivity].
Qed.

(** A link on its own. *)
Lemma rewriteLinks_single (reg : registry) (linkText target : jsstring) :
  linkText <> [] -> without (cu "]") linkText ->
  target <> [] -> without (cu ")") target ->
  rewriteLinks reg (linkTo linkText target)
  = (url <- rewrittenTarget reg target ;; Ok (linkTo linkText url)).
Proof.
  intros H1 H2 H3 H4.
  pose proof (@rewriteLinks_in_context reg [] linkText target []) as H.
  cbn [app] in H. rewrite !app_nil_r in H. rewrite H; try assumption.
  - destruct (rewrittenTarget reg target); cbn [bind]; [|reflexivity].
    rewrite rewriteLinks_nil. cbn [bind]. now rewrite app_nil_r.
  - intros p1 p2 E Hn. now destruct p1, p2.
Qed.

(** X9.  A document registered under [p.md] is found by the links
    [p.md] and [/p.md]: the target is replaced by the document's URL, when
    [p] holds no percent sign and no URL is registered under [p] itself. *)
Theorem link_to_registered_document (reg : registry) (linkText p url : jsstring) :
  linkText <> [] -> without (cu "]") linkText ->
  without (cu ")") p -> without (cu "%") p ->
  isAbsolute p = false ->
  startsWith (p ++ js ".md") (js "http") = false ->
  truthy (map_get p (documentUrlMap reg)) = false ->
  map_get (p ++ js ".md") (documentUrlMap reg) = Some url -> url <> [] ->
  rewriteLinks reg (linkTo linkText (p ++ js ".md")) = Ok (linkTo linkText url)
  /\ rewriteLinks reg (linkTo linkText (cu "/" :: p ++ js ".md")) = Ok (linkTo linkText url).
Proof.
  intros H1 H2 Hp Hpc Habs Hh Hd Hu Hne.
  assert (Hplain : without (cu "%") (p ++ js ".md")).
  { apply without_app. split; [exact Hpc|]. unfold without. repeat constructor; discriminate. }
  assert (Hparen : without (cu ")") (p ++ js ".md")).
  { apply without_app. split; [exact Hp|]. unfold without. repeat constructor; discriminate. }
  assert (Hstrip : stripLeadingSlash (p ++ js ".md") = p ++ js ".md").
  { destruct p as [|c p']; [reflexivity|]. cbn [app stripLeadingSlash].
    simpl in Habs. unfold isSlash, SLASH in Habs. now rewrite Habs. }
  split.
  - rewrite rewriteLinks_single; try assumption; [|destruct p; discriminate].
    rewrite (@rewrittenTarget_registered reg (p ++ js ".md") p url); try assumption.
    + reflexivity.
    + rewrite Hstrip. now apply decodeURIComponent_plain.
  - rewrite rewriteLinks_single; try assumption;
      [|discriminate | constructor; [discriminate | exact Hparen]].
    rewrite (@rewrittenTarget_registered reg (cu "/" :: p ++ js ".md") p url);
      try assumption.
    + reflexivity.
    + reflexivity.
    + cbn [stripLeadingSlash]. rewrite N.eqb_refl. now apply decodeURIComponent_plain.
Qed.

(** X9 for a document of the channel [team]. *)
Lemma link_to_registered_document_witness :
  rewriteLinks (Registry [] [(js "team/a.md", js "/doc/A1")] [(js "team/a.md", js "A1")])
    (js "[see](team/a.md)")
  = Ok (js "[see](/doc/A1)").
Proof.
  refine (proj1 (@link_to_registered_document
                   (Registry [] [(js "team/a.md", js "/doc/A1")] [(js "team/a.md", js "A1")])
                   (js "see") (js "team/a") (js "/doc/A1") _ _ _ _ _ _ _ _ _));
    try reflexivity; try discriminate;
    unfold without; repeat constructor; discriminate.
Defined.

Lemma decodeLoop_app (t s r : jsstring) :
  without (cu "%") t ->
  forall fuel fuel',
    decodeLoop fuel s = Ok r -> length t + fuel <= fuel' ->
    decodeLoop fuel' (t ++ s) = Ok (t ++ r).
Proof.
  induction 1 as [|c t Hc Ht IH]; intros fuel fuel' Hs Hf.
  - cbn [app]. revert Hs Hf. revert s r fuel'.
    induction fuel as [|fuel IHf]; intros s r fuel' Hs Hf.
    + destruct s; [destruct fuel'; simpl in *; congruence | discriminate].
    + destruct fuel' as [|fuel']; [simpl in Hf; lia|].
      destruct s as [|c s]; [simpl in *; exact Hs|].
      cbn [decodeLoop] in *.
      destruct (N.eqb c (cu "%")).
      * destruct (escapeAt (c :: s)) as [[b s1]|]; [|discriminate].
        destruct (N.ltb b 128).
        -- destruct (decodeLoop fuel s1) as [r1|] eqn:E; [|discriminate].
           rewrite (IHf s1 r1 fuel' E) by (simpl in *; lia). exact Hs.
        -- destruct (sequenceLength b) as [n|]; [|discriminate].
           destruct (escapesAt (n - 1) s1) as [[bs s2]|]; [|discriminate].
           destruct (utf8CodePoint b bs); [|discriminate].
           destruct (decodeLoop fuel s2) as [r2|] eqn:E; [|discriminate].
           rewrite (IHf s2 r2 fuel' E) by (simpl in *; lia). exact Hs.
      * destruct (decodeLoop fuel s) as [r1|] eqn:E; [|discriminate].
        rewrite (IHf s r1 fuel' E) by (simpl in *; lia). exact Hs.
  - destruct fuel' as [|fuel']; [simpl in Hf; lia|].
    cbn [app decodeLoop]. apply N.eqb_neq in Hc. rewrite Hc.
    rewrite (IH fuel fuel' Hs) by (simpl in *; lia). reflexivity.
Qed.

Lemma decode_encoded_space (p1 p2 : jsstring) :
  without (cu "%") p1 -> without (cu "%") p2 ->
  decodeURIComponent (p1 ++ js "%20" ++ p2) = Ok (p1 ++ cu " " :: p2).
Proof.
  intros H1 H2. unfold decodeURIComponent.
  apply (@decodeLoop_app p1 (js "%20" ++ p2) (cu " " :: p2) H1 (S (length p2))).
  - change (js "%20" ++ p2) with (cu "%" :: cu "2" :: cu "0" :: p2).
    cbn [decodeLoop]. rewrite N.eqb_refl.
    change (escapeAt (cu "%" :: cu "2" :: cu "0" :: p2)) with (Some (32%N, p2)).
    cbn [N.ltb N.compare]. change (N.ltb 32 128) with true. cbv iota.
    rewrite decodeLoop_plain by (assumption || lia). reflexivity.
  - rewrite !length_app. simpl. lia.
Qed.

Lemma stripLeadingSlash_relative (s : jsstring) :
  isAbsolute s = false -> stripLeadingSlash s = s.
Proof.
  destruct s as [|c s]; [reflexivity|]. simpl. unfold isSlash, SLASH. now intros ->.
Qed.

(** X27.  A space written [%20] in a link target finds the document
    whose registered path has the space: the target is decoded before the
    lookup. *)
Theorem link_with_encoded_space (reg : registry) (linkText p1 p2 url : jsstring) :
  linkText <> [] -> without (cu "]") linkText ->
  without (cu ")") p1 -> without (cu ")") p2 ->
  without (cu "%") p1 -> without (cu "%") p2 ->
  isAbsolute (p1 ++ js "%20" ++ p2 ++ js ".md") = false ->
  startsWith (p1 ++ js "%20" ++ p2 ++ js ".md") (js "http") = false ->
  truthy (map_get (p1 ++ cu " " :: p2) (documentUrlMap reg)) = false ->
  map_get (p1 ++ cu " " :: p2 ++ js ".md") (documentUrlMap reg) = Some url -> url <> [] ->
  rewriteLinks reg (linkTo linkText (p1 ++ js "%20" ++ p2 ++ js ".md"))
  = Ok (linkTo linkText url).
Proof.
  intros H1 H2 Hp1 Hp2 Hc1 Hc2 Habs Hh Hd Hu Hne.
  rewrite rewriteLinks_single; try assumption.
  - rewrite (@rewrittenTarget_registered reg _ (p1 ++ cu " " :: p2) url); try assumption.
    + reflexivity.
    + rewrite stripLeadingSlash_relative by assumption.
      rewrite decode_encoded_space.
      * now rewrite <- app_assoc.
      * assumption.
      * apply without_app. split; [assumption|]. unfold without. repeat constructor; discriminate.
    + now rewrite <- app_assoc.
  - destruct p1; discriminate.
  - apply without_app. split; [assumption|].
    apply without_app. split; [unfold without; repeat constructor; discriminate|].
    apply without_app. split; [assumption|]. unfold without. repeat constructor; discriminate.
Qed.

(** X27 for a document named [my doc.md]. *)
Lemma link_with_encoded_space_witness :
  rewriteLinks (Registry [] [(js "team/my doc.md", js "/doc/M1")] [])
    (js "[see](team/my%20doc.md)")
  = Ok (js "[see](/doc/M1)").
Proof.
  refine (@link_with_encoded_space (Registry [] [(js "team/my doc.md", js "/doc/M1")] [])
            (js "see") (js "team/my") (js "doc") (js "/doc/M1") _ _ _ _ _ _ _ _ _ _ _);
    try reflexivity; try discriminate; unfold without; repeat constructor; discriminate.
Defined.

(** X10.  An attachment registered under a link as written is found
    by that link: the target is replaced by the attachment's URL, when the
    link decodes and its normalized form names no document. *)
Theorem link_to_uploaded_attachment
    (reg : registry) (linkText link decoded url : jsstring) :
  linkText <> [] -> without (cu "]") linkText ->
  link <> [] -> without (cu ")") link ->
  startsWith link (js "http") = false ->
  decodeURIComponent (replaceFirst leadingSlashRegex [] link) = Ok decoded ->
  truthy (map_get (replaceFirst mdSuffixRegex [] decoded) (documentUrlMap reg)) = false ->
  truthy (map_get (replaceFirst mdSuffixRegex [] decoded ++ js ".md") (documentUrlMap reg))
  = false ->
  map_get link (attachmentUrlMap reg) = Some url -> url <> [] ->
  rewriteLinks reg (linkTo linkText link) = Ok (linkTo linkText url).
Proof.
  intros H1 H2 H3 H4 Hh Hd Hn Hm Hu Hne.
  rewrite rewriteLinks_single by assumption.
  rewrite replace_leadingSlash in Hd. rewrite replace_mdSuffix in Hn, Hm.
  unfold rewrittenTarget. rewrite Hh, Hd. cbn [bind]. unfold resolvedTarget.
  rewrite (present_truthy _ Hn), (present_truthy _ Hm), Hu.
  destruct url; [congruence | reflexivity].
Qed.

(** X10 for the picture of the round-trip example. *)
Lemma link_to_uploaded_attachment_witness :
  rewriteLinks exampleRegistry (js "[pic](img.png)") = Ok (js "[pic](https://files/ID2)").
Proof.
  refine (@link_to_uploaded_attachment exampleRegistry (js "pic") (js "img.png") (js "img.png")
            (js "https://files/ID2") _ _ _ _ _ _ _ _ _ _);
    try reflexivity; try discriminate; unfold without; repeat constructor; discriminate.
Defined.

(** X11.  A target that starts with [http] but with neither
    [http://] nor [https://] is recorded by the scanner and yet never
    rewritten, whatever the registry holds for it. *)
Theorem http_prefixed_reference_is_kept
    (reg : registry) (linkText target sourcePath : jsstring) :
  linkText <> [] -> without (cu "]") linkText ->
  without (cu ")") target ->
  startsWith target (js "http") = true ->
  startsWith target (js "http://") = false ->
  startsWith target (js "https://") = false ->
  rewriteLinks reg (linkTo linkText target) = Ok (linkTo linkText target)
  /\ (map_get target (documentLinks (scanMarkdownLinks (linkTo linkText target) sourcePath))
      = Some sourcePath
      \/ map_get target (attachmentLinks (scanMarkdownLinks (linkTo linkText target) sourcePath))
         = Some sourcePath).
Proof.
  intros H1 H2 H4 Hh Hs1 Hs2.
  assert (H3 : target <> []) by (intros ->; discriminate).
  split.
  - rewrite rewriteLinks_single by assumption.
    unfold rewrittenTarget. now rewrite Hh.
  - pose proof (@scanMarkdownLinks_recorded [] [] linkText target [] sourcePath) as H.
    cbn [app] in H. rewrite app_nil_r in H.
    specialize (H (or_introl eq_refl)).
    assert (Hfree : bracketFree [] (linkTo linkText target)).
    { intros p1 p2 E Hn. now destruct p1, p2. }
    specialize (H Hfree H2 H3 H4). cbv zeta in H.
    unfold classify in H. rewrite Hs1, Hs2 in H. cbn [orb] in H.
    destruct (endsWith target (js ".md")); [left | right]; apply H.
Qed.

(** X11 for a directory named [httpdocs]. *)
Lemma http_prefixed_reference_is_kept_witness :
  rewriteLinks (Registry [(js "httpdocs/a.png", js "https://files/ID9")] [] [])
    (js "[pic](httpdocs/a.png)")
  = Ok (js "[pic](httpdocs/a.png)").
Proof.
  refine (proj1 (@http_prefixed_reference_is_kept
                   (Registry [(js "httpdocs/a.png", js "https://files/ID9")] [] [])
                   (js "pic") (js "httpdocs/a.png") (js "x.md") _ _ _ _ _ _));
    try reflexivity; try discriminate; unfold without; repeat constructor; discriminate.
Defined.

(** ** What a scan holds *)

Lemma map_set_In (V : Type) (k k' : jsstring) (v v' : V) (m : jsmap V) :
  In (k, v) (map_set k' v' m) -> (k = k' /\ v = v') \/ In (k, v) m.
Proof.
  induction m as [|[k0 v0] m IH]; simpl.
  - intros [E|[]]. injection E as <- <-. now left.
  - destruct (str_eqb k' k0).
    + intros [E|H]; [injection E as <- <-; now left | right; now right].
    + intros [E|H]; [right; now left|]. destruct (IH H) as [?|?]; [now left | right; now right].
Qed.

Lemma scanTargets_wellformed :
  forall n s, length s < n ->
    Forall (fun t => t <> [] /\ without (cu ")") t) (scanTargets s).
Proof.
  induction n as [|n IH]; intros s Hn; [lia|].
  destruct s as [|c s']; [rewrite scanTargets_nil; constructor|].
  destruct (scanLinkAt (c :: s')) as [[target post]|] eqn:E.
  - rewrite (@scanTargets_link _ _ _ E). constructor.
    + unfold scanLinkAt in E.
      destruct (N.eqb c (cu "!")); apply bracketAt_Some in E;
        destruct E as [linkText [_ [_ [Hne Hw]]]]; now split.
    + apply IH. apply scanLinkAt_shorter in E. simpl in *. lia.
  - rewrite (@scanTargets_skip _ _ E). apply IH. simpl in Hn. lia.
Qed.

Lemma record_scanned (sourcePath : jsstring) (acc : links) (target : jsstring) :
  target <> [] -> without (cu ")") target ->
  wellScanned sourcePath acc -> wellScanned sourcePath (record sourcePath acc target).
Proof.
  intros Hne Hw Hacc. rewrite record_class. unfold classify.
  destruct (startsWith target (js "http://")) eqn:E1; cbn [orb]; [exact Hacc|].
  destruct (startsWith target (js "https://")) eqn:E2; cbn [orb]; [exact Hacc|].
  destruct Hacc as [Hd [Ha Hk]].
  destruct (endsWith target (js ".md")) eqn:E3; unfold wellScanned; cbn [documentLinks attachmentLinks].
  - split; [|split].
    + intros k v H. apply map_set_In in H. destruct H as [[-> ->]|H]; [now split | now apply Hd].
    + exact Ha.
    + intros k v H. apply in_app_or in H. destruct H as [H|H].
      * apply map_set_In in H. destruct H as [[-> ->]|H]; [now repeat split|].
        apply (Hk k v). apply in_or_app. now left.
      * apply (Hk k v). apply in_or_app. now right.
  - split; [|split].
    + exact Hd.
    + intros k v H. apply map_set_In in H. destruct H as [[-> ->]|H]; [now split | now apply Ha].
    + intros k v H. apply in_app_or in H. destruct H as [H|H].
      * apply (Hk k v). apply in_or_app. now left.
      * apply map_set_In in H. destruct H as [[-> ->]|H]; [now repeat split|].
        apply (Hk k v). apply in_or_app. now right.
Qed.

Lemma scanMarkdownLinks_src (content sourcePath : jsstring) :
  wellScanned sourcePath (scanMarkdownLinks content sourcePath).
Proof.
  rewrite scanMarkdownLinks_targets.
  assert (H0 : wellScanned sourcePath (Links [] [])).
  { split; [|split]; intros k v H; destruct H. }
  pose proof (@scanTargets_wellformed (S (length content)) content (Nat.lt_succ_diag_r _)) as Hw.
  revert H0. generalize (Links [] []).
  induction Hw as [|t ts [Hne Ht] _ IH]; intros acc Hacc; [exact Hacc|].
  cbn [fold_left]. apply IH. now apply record_scanned.
Qed.

(** X12.  In the result of [scanMarkdownLinks], every key of
    [documentLinks] ends with [.md] and no key of [attachmentLinks] does,
    every value is the source path, and no key is empty, holds a closing
    parenthesis or starts with [http://] or [https://]. *)
Theorem scanMarkdownLinks_entries (content sourcePath : jsstring) :
  let found := scanMarkdownLinks content sourcePath in
  (forall k v, In (k, v) (documentLinks found) ->
     v = sourcePath /\ endsWith k (js ".md") = true)
  /\ (forall k v, In (k, v) (attachmentLinks found) ->
        v = sourcePath /\ endsWith k (js ".md") = false)
  /\ (forall k v, In (k, v) (documentLinks found ++ attachmentLinks found) ->
        startsWith k (js "http://") = false /\ startsWith k (js "https://") = false
        /\ k <> [] /\ without (cu ")") k).
Proof. exact (scanMarkdownLinks_src content sourcePath). Qed.

(** X12 at the document link of the example. *)
Lemma scanMarkdownLinks_entries_witness :
  js "/export/a.md" = js "/export/a.md" /\ endsWith (js "other.md") (js ".md") = true.
Proof.
  refine (proj1 (@scanMarkdownLinks_entries scanExample (js "/export/a.md"))
            (js "other.md") (js "/export/a.md") _).
  vm_compute. now left.
Defined.

Lemma mergeInto_In (k v : jsstring) (m all : jsmap jsstring) :
  In (k, v) (mergeInto all m) -> In (k, v) all \/ In (k, v) m.
Proof.
  unfold mergeInto. revert all. induction m as [|[k0 v0] m IH]; intros all H; [now left|].
  cbn [fold_left fst snd] in H. apply IH in H. destruct H as [H|H]; [|right; now right].
  apply map_set_In in H. destruct H as [[-> ->]|H]; [right; now left | now left].
Qed.

Lemma mergeLinks_fromFiles (fs : filesystem) (all found : links) :
  fromFiles fs all -> fromFiles fs found -> fromFiles fs (mergeLinks all found).
Proof.
  intros [Ha Hd] [Ha' Hd']. split; intros k v H; cbn [mergeLinks attachmentLinks documentLinks] in H;
    apply mergeInto_In in H; destruct H as [H|H]; auto.
Qed.

Lemma scanEntries_fromFiles (fs : filesystem) (scan : jsstring -> result links)
    (dirPath : jsstring) :
  (forall p found, scan p = Ok found -> fromFiles fs found) ->
  forall entries all found,
    fromFiles fs all -> scanEntries fs scan dirPath entries all = Ok found ->
    fromFiles fs found.
Proof.
  intros Hscan. induction entries as [|entry entries IH]; intros all found Hall H;
    cbn [scanEntries] in H.
  - now injection H as <-.
  - destruct (isFile entry && endsWith (name entry) (js ".md")).
    + destruct (readFile fs (pathJoin [dirPath; name entry])) as [content|e] eqn:Er;
        [|discriminate].
      cbn [bind] in H. eapply IH; [|exact H]. apply mergeLinks_fromFiles; [exact Hall|].
      split; intros k v Hin.
      * assert (v = pathJoin [dirPath; name entry]) as ->.
        { destruct (@scanMarkdownLinks_src content (pathJoin [dirPath; name entry]))
            as [_ [Hs _]]. now destruct (Hs k v Hin). }
        exists content. now split.
      * assert (v = pathJoin [dirPath; name entry]) as ->.
        { destruct (@scanMarkdownLinks_src content (pathJoin [dirPath; name entry]))
            as [Hs _]. now destruct (Hs k v Hin). }
        exists content. now split.
    + destruct (isDirectory entry).
      * destruct (scan (pathJoin [dirPath; name entry])) as [sub|e] eqn:Es; [|discriminate].
        cbn [bind] in H. eapply IH; [|exact H].
        apply mergeLinks_fromFiles; [exact Hall | eapply Hscan; exact Es].
      * eapply IH; eassumption.
Qed.

(** X13.  Every entry that [scanDirectory] returns comes from a file
    that it read: the value is the path of a readable file, and the scan of
    that file's content has the entry. *)
Theorem scanDirectory_sources (fs : filesystem) (fuel : nat) (dirPath : jsstring)
    (found : links) :
  scanDirectory fs fuel dirPath = Ok found ->
  (forall k v, In (k, v) (attachmentLinks found) ->
     exists content, readFile fs v = Ok content
       /\ In (k, v) (attachmentLinks (scanMarkdownLinks content v)))
  /\ (forall k v, In (k, v) (documentLinks found) ->
        exists content, readFile fs v = Ok content
          /\ In (k, v) (documentLinks (scanMarkdownLinks content v))).
Proof.
  revert dirPath found. induction fuel as [|fuel IH]; intros dirPath found H; [discriminate|].
  cbn [scanDirectory] in H.
  destruct (readdir fs dirPath) as [entries|e]; [|discriminate]. cbn [bind] in H.
  eapply (@scanEntries_fromFiles fs (scanDirectory fs fuel) dirPath); [|  |exact H].
  - intros p sub Hp. exact (IH p sub Hp).
  - split; intros k v [].
Qed.

(** X13 for the document in the subdirectory of the example export. *)
Lemma scanDirectory_sources_witness :
  exists content,
    readFile exportFs (js "slite-backup/channels/team/b/c.md") = Ok content
    /\ In (js "x.png", js "slite-backup/channels/team/b/c.md")
         (attachmentLinks (scanMarkdownLinks content (js "slite-backup/channels/team/b/c.md"))).
Proof.
  refine (proj1 (@scanDirectory_sources exportFs 3 teamDir _ _) _ _ _).
  - vm_compute. reflexivity.
  - now left.
Defined.

Lemma map_get_mergeInto (k : jsstring) (m all : jsmap jsstring) :
  NoDup (map fst m) ->
  map_get k (mergeInto all m) =
  match map_get k m with
  | Some v => Some v
  | None => map_get k all
  end.
Proof.
  unfold mergeInto. revert all. induction m as [|[k0 v0] m IH]; intros all Hnd; [reflexivity|].
  cbn [map fst] in Hnd. inversion Hnd as [|? ? Hnot Hnd']; subst.
  cbn [fold_left fst snd map_get]. rewrite IH by assumption.
  destruct (str_eqb_spec k k0) as [->|Hne].
  - destruct (map_get k0 m) as [v|] eqn:E.
    + exfalso. apply Hnot. clear -E. induction m as [|[k' v'] m IH]; [discriminate|].
      simpl in E. destruct (str_eqb_spec k0 k') as [->|]; [now left | right; now apply IH].
    + apply map_get_set_same.
  - destruct (map_get k m); [reflexivity|]. now apply map_get_set_other.
Qed.

Lemma scanEntries_app (fs : filesystem) (scan : jsstring -> result links) (dirPath : jsstring)
    (l1 l2 : list dirent) :
  forall all,
    scanEntries fs scan dirPath (l1 ++ l2) all =
    (found <- scanEntries fs scan dirPath l1 all ;; scanEntries fs scan dirPath l2 found).
Proof.
  induction l1 as [|entry l1 IH]; intros all; [reflexivity|].
  cbn [app scanEntries].
  destruct (isFile entry && endsWith (name entry) (js ".md")).
  - destruct (readFile fs (pathJoin [dirPath; name entry])); [apply IH | reflexivity].
  - destruct (isDirectory entry); [|apply IH].
    destruct (scan (pathJoin [dirPath; name entry])); [apply IH | reflexivity].
Qed.

(** X28.  The maps of a scan have one entry for each link text: an
    attachment link of the document listed last in a directory is recorded
    with that document as its source, whichever documents scanned before
    hold the same link. *)
Theorem scanDirectory_last_document_wins
    (fs : filesystem) (fuel : nat) (dirPath : jsstring) (earlier : list dirent)
    (entry : dirent) (fileContent : jsstring) (found : links) (link : jsstring) :
  readdir fs dirPath = Ok (earlier ++ [entry]) ->
  isFile entry = true -> endsWith (name entry) (js ".md") = true ->
  readFile fs (pathJoin [dirPath; name entry]) = Ok fileContent ->
  scanDirectory fs (S fuel) dirPath = Ok found ->
  map_get link (attachmentLinks (scanMarkdownLinks fileContent (pathJoin [dirPath; name entry])))
  = Some (pathJoin [dirPath; name entry]) ->
  map_get link (attachmentLinks found) = Some (pathJoin [dirPath; name entry]).
Proof.
  intros Hr Hf Hm Hc H Hl. cbn [scanDirectory] in H. rewrite Hr in H. cbn [bind] in H.
  rewrite scanEntries_app in H.
  destruct (scanEntries fs (scanDirectory fs fuel) dirPath earlier (Links [] []))
    as [before|e]; [|discriminate].
  cbn [bind scanEntries] in H. rewrite Hf, Hm in H. cbn [andb] in H.
  rewrite Hc in H. cbn [bind] in H. injection H as <-.
  cbn [mergeLinks attachmentLinks]. rewrite map_get_mergeInto.
  - now rewrite Hl.
  - apply scanMarkdownLinks_distinct.
Qed.

(** X28 for the document in the media folder of the example export. *)
Lemma scanDirectory_last_document_wins_witness :
  map_get (js "x.png")
    (attachmentLinks (match scanDirectory exportFs 1 (js "slite-backup/channels/team/media_a")
                      with Ok found => found | Throw _ => Links [] [] end))
  = Some (js "slite-backup/channels/team/media_a/n.md").
Proof.
  refine (@scanDirectory_last_document_wins exportFs 0
            (js "slite-backup/channels/team/media_a") [Dirent (js "x.png") KFile]
            (Dirent (js "n.md") KFile)
            (withPreamble (js "# Doc" ++ [LF] ++ js "![img](x.png)")) _ (js "x.png")
            _ _ _ _ _ _); reflexivity.
Defined.

(** ** Resolved paths *)

Lemma resolve_absolute (cwd : jsstring) (paths : list jsstring) :
  isAbsolute cwd = true ->
  isAbsolute (resolve cwd paths) = true
  /\ resolve cwd [resolve cwd paths] = resolve cwd paths.
Proof.
  intros Hcwd. split.
  - destruct (@resolveLoop_rooted cwd (rev paths) Hcwd) as [y Hy].
    rewrite (@resolve_rooted cwd paths (y ++ [SLASH]) Hy). reflexivity.
  - pose proof (@resolve_last cwd paths [] Hcwd) as H.
    assert (E1 : resolve cwd (paths ++ [[]]) = resolve cwd paths).
    { unfold resolve. rewrite rev_app_distr. reflexivity. }
    transitivity (resolve cwd (paths ++ [[]])); [symmetry; exact H | exact E1].
Qed.

(** X14.  For an absolute working directory,
    [resolveAttachmentPath] throws nothing but [URIError], returns for every
    reference without a percent sign, and what it returns is an absolute
    path that [resolve] leaves as it is. *)
Theorem resolveAttachmentPath_absolute
    (cwd attachmentPath sourceDocPath : jsstring) :
  isAbsolute cwd = true ->
  (forall e, resolveAttachmentPath cwd attachmentPath sourceDocPath = Throw e -> e = URIError)
  /\ (without (cu "%") attachmentPath ->
      exists path, resolveAttachmentPath cwd attachmentPath sourceDocPath = Ok path)
  /\ (forall path,
        resolveAttachmentPath cwd attachmentPath sourceDocPath = Ok path ->
        isAbsolute path = true /\ resolve cwd [path] = path).
Proof.
  intros Hcwd. unfold resolveAttachmentPath. split; [|split].
  - intros e. destruct (decodeURIComponent attachmentPath) as [d|e'] eqn:E; cbn [bind].
    + destruct (includes d (js "media_")); discriminate.
    + intros H. injection H as ->. now apply decodeLoop_error in E.
  - intros Hp. rewrite decodeURIComponent_plain by assumption. cbn [bind].
    destruct (includes attachmentPath (js "media_")); now eexists.
  - intros path. destruct (decodeURIComponent attachmentPath) as [d|e']; [|discriminate].
    cbn [bind]. destruct (includes d (js "media_")); intros H; injection H as <-;
      now apply resolve_absolute.
Qed.

(** X14 for a reference that climbs out of the media folder. *)
Lemma resolveAttachmentPath_absolute_witness :
  exists path,
    resolveAttachmentPath (js "/home/user") (js "../img.png") (js "export/team/a.md") = Ok path.
Proof.
  refine (proj1 (proj2 (@resolveAttachmentPath_absolute (js "/home/user") (js "../img.png")
                          (js "export/team/a.md") _)) _).
  - reflexivity.
  - unfold without. repeat constructor; discriminate.
Defined.

(** X15.  A reference that decodes to an absolute path is
    resolved on its own: neither the source document nor the working
    directory has a part in the result. *)
Theorem resolveAttachmentPath_absolute_reference
    (cwd cwd' attachmentPath decoded sourceDocPath sourceDocPath' : jsstring) :
  decodeURIComponent attachmentPath = Ok decoded ->
  isAbsolute decoded = true ->
  resolveAttachmentPath cwd attachmentPath sourceDocPath = Ok (resolve cwd [decoded])
  /\ resolveAttachmentPath cwd attachmentPath sourceDocPath
     = resolveAttachmentPath cwd' attachmentPath sourceDocPath'.
Proof.
  intros Hd Habs. destruct (isAbsolute_cons _ Habs) as [t ->].
  unfold resolveAttachmentPath. rewrite Hd. cbn [bind].
  destruct (includes (SLASH :: t) (js "media_")); split; reflexivity.
Qed.

(** X15 for an encoded absolute reference. *)
Lemma resolveAttachmentPath_absolute_reference_witness :
  resolveAttachmentPath (js "/home/user") (js "/srv/files/a%20b.png") (js "export/team/a.md")
  = Ok (js "/srv/files/a b.png").
Proof.
  refine (proj1 (@resolveAttachmentPath_absolute_reference (js "/home/user") (js "/")
                   (js "/srv/files/a%20b.png") (js "/srv/files/a b.png")
                   (js "export/team/a.md") (js "x.md") _ _)).
  - vm_compute. reflexivity.
  - reflexivity.
Defined.

(** ** Paths under the export *)

Lemma join_last (segs : list jsstring) :
  segs <> [] -> Forall component segs ->
  exists t c, join [SLASH] segs = t ++ [c] /\ c <> SLASH.
Proof.
  intros Hne H. induction H as [|seg segs [Hs Hw] Hrest IH]; [congruence|].
  destruct segs as [|seg' segs'].
  - cbn [join]. destruct (exists_last Hs) as [t [c ->]]. exists t, c. split; [reflexivity|].
    apply Forall_app in Hw. destruct Hw as [_ Hw]. now inversion Hw.
  - destruct IH as [t [c [E Hc]]]; [discriminate|].
    rewrite join_cons by discriminate. rewrite E.
    exists (seg ++ [SLASH] ++ t), c. split; [now rewrite <- !app_assoc | exact Hc].
Qed.

Lemma endsWith_last (x : jsstring) (c d : N) :
  c <> d -> endsWith (x ++ [c]) [d] = false.
Proof.
  intros H. unfold endsWith. rewrite rev_app_distr. cbn [rev app startsWith].
  apply N.eqb_neq in H. rewrite N.eqb_sym. now rewrite H.
Qed.

Lemma join_components_nonempty (segs : list jsstring) :
  segs <> [] -> Forall component segs -> join [SLASH] segs <> [].
Proof.
  intros Hne H. destruct (join_last Hne H) as [t [c [-> _]]]. now destruct t.
Qed.

Lemma normalize_relative (path : jsstring) (segs : list jsstring) :
  isAbsolute path = false ->
  normalizeSegments true [] (segments path) = segs ->
  segs <> [] -> Forall component segs ->
  (exists t c, path = t ++ [c] /\ c <> SLASH) ->
  normalize path = join [SLASH] segs.
Proof.
  intros Habs Hn Hne Hc [t [c [Hp Hs]]].
  unfold normalize. destruct path as [|c0 p0]; [now destruct t|].
  rewrite Habs. cbn [negb]. rewrite Hn.
  pose proof (join_components_nonempty Hne Hc) as Hb.
  destruct (join [SLASH] segs) as [|b0 b] eqn:Eb; [congruence|].
  rewrite Hp, endsWith_last by assumption. cbn [app]. now rewrite app_nil_r.
Qed.

Lemma pathJoin_two (a b : jsstring) :
  a <> [] -> b <> [] -> pathJoin [a; b] = normalize (a ++ SLASH :: b).
Proof.
  intros Ha Hb. unfold pathJoin. cbn [filter].
  apply str_eqb_neq in Ha, Hb. rewrite Ha, Hb. reflexivity.
Qed.

Lemma segments_one (seg : jsstring) : component seg -> segments seg = [seg].
Proof.
  intros H. apply (@segments_join [seg]). now constructor.
Qed.

Lemma dropCommon_prefix (a b : list jsstring) : dropCommon a (a ++ b) = ([], b).
Proof.
  induction a as [|x a IH]; [now destruct b|].
  cbn [dropCommon app]. now rewrite str_eqb_refl.
Qed.

Lemma resolve_relative_path (cwd x : jsstring) :
  isAbsolute cwd = true -> x <> [] -> isAbsolute x = false ->
  resolve cwd [x]
  = SLASH :: join [SLASH]
      (normalizeSegments false (rev (normalizeSegments false [] (segments cwd))) (segments x)).
Proof.
  intros Hcwd Hx Hrel. destruct x as [|c x']; [congruence|].
  destruct (isAbsolute_cons _ Hcwd) as [t ->].
  assert (E : fst (resolveLoop (rev [c :: x'] ++ [SLASH :: t]) [])
              = SLASH :: t ++ SLASH :: (c :: x') ++ [SLASH]).
  { cbn [rev app]. rewrite resolveLoop_relative by assumption.
    rewrite resolveLoop_absolute by reflexivity. reflexivity. }
  etransitivity; [exact (@resolve_rooted (SLASH :: t) [c :: x'] _ E)|].
  unfold rooted. f_equal. f_equal.
  change (SLASH :: t ++ SLASH :: (c :: x') ++ [SLASH])
    with ((SLASH :: t) ++ SLASH :: (c :: x') ++ SLASH :: []).
  rewrite !segments_app. change (segments []) with (@nil jsstring). rewrite app_nil_r.
  apply normalizeSegments_app.
Qed.

Lemma components_root (segs : list jsstring) :
  Forall component segs -> Forall component (js "slite-backup" :: js "channels" :: segs).
Proof.
  intros H. constructor; [|constructor; [|exact H]];
    (split; [discriminate | unfold without; repeat constructor; discriminate]).
Qed.

Lemma plain_root (segs : list jsstring) :
  Forall plain segs -> Forall plain (js "slite-backup" :: js "channels" :: segs).
Proof.
  intros H. constructor; [|constructor; [|exact H]]; split; discriminate.
Qed.

Lemma exportPath_shape (segs : list jsstring) :
  exists t, exportPath segs = cu "s" :: t.
Proof.
  unfold exportPath. rewrite join_cons by discriminate. now eexists.
Qed.

(** X16.  For the path of a file or directory under the export
    (plain components below [slite-backup/channels]) and an absolute
    working directory: the key under which phase 1 registers it is the path
    below the root of the export, joining the root and that key gives the
    path back, as phase 3 does, and joining the path and an entry name gives
    the path of the entry. *)
Theorem registered_path_round_trip (cwd : jsstring) (segs : list jsstring) :
  isAbsolute cwd = true ->
  segs <> [] -> Forall component segs -> Forall plain segs ->
  relative cwd SLITE_BACKUP_PATH (exportPath segs) = join [SLASH] segs
  /\ pathJoin [SLITE_BACKUP_PATH; join [SLASH] segs] = exportPath segs
  /\ (forall entryName, component entryName -> plain entryName ->
        pathJoin [exportPath segs; entryName] = exportPath (segs ++ [entryName])).
Proof.
  intros Hcwd Hne Hc Hp.
  pose proof (components_root Hc) as Hc'. pose proof (plain_root Hp) as Hp'.
  split; [|split].
  - (* relative *)
    unfold relative.
    destruct (exportPath_shape segs) as [t0 Et0].
    replace (str_eqb SLITE_BACKUP_PATH (exportPath segs)) with false
      by (rewrite Et0; reflexivity).
    rewrite (@resolve_relative_path cwd SLITE_BACKUP_PATH Hcwd) by (discriminate || reflexivity).
    rewrite (@resolve_relative_path cwd (exportPath segs) Hcwd)
      by (rewrite Et0; (discriminate || reflexivity)).
    set (N0 := normalizeSegments false [] (segments cwd)).
    assert (HN : Forall component N0).
    { apply normalizeSegments_components; [apply segments_components | constructor]. }
    assert (E1 : normalizeSegments false (rev N0) (segments SLITE_BACKUP_PATH)
                 = N0 ++ [js "slite-backup"; js "channels"]).
    { change (segments SLITE_BACKUP_PATH) with [js "."; js "slite-backup"; js "channels"].
      change (normalizeSegments false (rev N0) [js "."; js "slite-backup"; js "channels"])
        with (normalizeSegments false (rev N0) [js "slite-backup"; js "channels"]).
      rewrite normalizeSegments_plain by (apply (plain_root (@Forall_nil _ _))).
      now rewrite rev_involutive. }
    assert (E2 : normalizeSegments false (rev N0) (segments (exportPath segs))
                 = (N0 ++ [js "slite-backup"; js "channels"]) ++ segs).
    { unfold exportPath. rewrite segments_join by assumption.
      rewrite normalizeSegments_plain by assumption.
      rewrite rev_involutive, <- app_assoc. reflexivity. }
    rewrite E1, E2.
    set (F := N0 ++ [js "slite-backup"; js "channels"]).
    assert (HF : Forall component F).
    { apply Forall_app. split; [exact HN|]. apply (components_root (@Forall_nil _ _)). }
    assert (HFs : Forall component (F ++ segs)) by (apply Forall_app; now split).
    assert (S1 : segments (SLASH :: join [SLASH] F) = F).
    { change (SLASH :: join [SLASH] F) with ([] ++ SLASH :: join [SLASH] F).
      rewrite segments_app. now rewrite segments_join. }
    assert (S2 : segments (SLASH :: join [SLASH] (F ++ segs)) = F ++ segs).
    { change (SLASH :: join [SLASH] (F ++ segs)) with ([] ++ SLASH :: join [SLASH] (F ++ segs)).
      rewrite segments_app. now rewrite segments_join. }
    destruct (str_eqb_spec (SLASH :: join [SLASH] F) (SLASH :: join [SLASH] (F ++ segs)))
      as [E|_].
    + exfalso. rewrite <- E in S2. rewrite S1 in S2.
      apply (f_equal (@length _)) in S2. rewrite length_app in S2.
      destruct segs; [congruence | simpl in S2; lia].
    + rewrite S1, S2, dropCommon_prefix. reflexivity.
  - (* join with the root *)
    rewrite pathJoin_two by (discriminate || now apply join_components_nonempty).
    apply normalize_relative.
    + reflexivity.
    + change (SLITE_BACKUP_PATH ++ SLASH :: join [SLASH] segs)
        with (js "./slite-backup/channels" ++ SLASH :: join [SLASH] segs).
      rewrite segments_app, segments_join by assumption.
      change (segments (js "./slite-backup/channels"))
        with [js "."; js "slite-backup"; js "channels"].
      change (normalizeSegments true [] ([js "."; js "slite-backup"; js "channels"] ++ segs))
        with (normalizeSegments true [] (js "slite-backup" :: js "channels" :: segs)).
      now rewrite normalizeSegments_plain.
    + discriminate.
    + exact Hc'.
    + destruct (join_last Hne Hc) as [t [c [E Hs]]]. rewrite E.
      exists (SLITE_BACKUP_PATH ++ SLASH :: t), c. split; [|exact Hs].
      now rewrite <- app_assoc.
  - (* join with an entry *)
    intros entryName Hn Hpl.
    destruct (exportPath_shape segs) as [t0 Et0].
    assert (Hen : entryName <> []) by apply Hn.
    rewrite pathJoin_two by (rewrite ?Et0; (discriminate || assumption)).
    assert (Hall : Forall component (js "slite-backup" :: js "channels" :: segs ++ [entryName])).
    { apply components_root. apply Forall_app. split; [exact Hc | now constructor]. }
    apply normalize_relative.
    + rewrite Et0. reflexivity.
    + rewrite segments_app, (@segments_one entryName Hn).
      unfold exportPath. rewrite segments_join by assumption.
      rewrite normalizeSegments_plain.
      * reflexivity.
      * apply Forall_app. split; [exact Hp' | now constructor].
    + discriminate.
    + exact Hall.
    + destruct (exists_last Hen) as [t [c E]]. rewrite E.
      exists (exportPath segs ++ SLASH :: t), c. split; [now rewrite <- app_assoc|].
      destruct Hn as [_ Hw]. rewrite E in Hw. apply Forall_app in Hw.
      destruct Hw as [_ Hw]. now inversion Hw.
Qed.

(** X16 for a document of the channel [team]. *)
Lemma registered_path_round_trip_witness :
  relative (js "/home/user/project") SLITE_BACKUP_PATH (js "slite-backup/channels/team/a.md")
  = js "team/a.md".
Proof.
  refine (proj1 (@registered_path_round_trip (js "/home/user/project")
                   [js "team"; js "a.md"] _ _ _ _)).
  - reflexivity.
  - discriminate.
  - repeat constructor; try discriminate; unfold without; repeat constructor; discriminate.
  - repeat constructor; discriminate.
Defined.

(** ** What a run does to the state *)

Section Effects.

Variable allowed : request -> bool.
Variable keeps : registry -> registry -> Prop.
Hypothesis keeps_refl : forall r, keeps r r.
Hypothesis keeps_trans : forall r1 r2 r3, keeps r1 r2 -> keeps r2 r3 -> keeps r1 r3.

Lemma follows_refl (w : world) : follows allowed keeps w w.
Proof.
  split; [|apply keeps_refl]. exists []. now rewrite app_nil_r.
Qed.

Lemma follows_trans (w1 w2 w3 : world) :
  follows allowed keeps w1 w2 -> follows allowed keeps w2 w3 -> follows allowed keeps w1 w3.
Proof.
  intros [[q1 [E1 H1]] K1] [[q2 [E2 H2]] K2]. split; [|eapply keeps_trans; eassumption].
  exists (q1 ++ q2). rewrite E2, E1, app_assoc. split; [reflexivity|].
  rewrite forallb_app. now rewrite H1, H2.
Qed.

Lemma follows_bindM (A B : Type) (c : M A) (f : A -> M B) (w : world) :
  follows allowed keeps w (snd (c w)) ->
  (forall a w', follows allowed keeps w' (snd (f a w'))) ->
  follows allowed keeps w (snd (bindM c f w)).
Proof.
  intros Hc Hf. unfold bindM. destruct (c w) as [[a|e] w']; cbn [snd] in *; [|exact Hc].
  eapply follows_trans; [exact Hc | apply Hf].
Qed.

Lemma follows_forOf (A : Type) (f : A -> M unit) (l : list A) :
  (forall a w, In a l -> follows allowed keeps w (snd (f a w))) ->
  forall w, follows allowed keeps w (snd (forOf f l w)).
Proof.
  induction l as [|a l IH]; intros H w; [apply follows_refl|].
  cbn [forOf]. apply follows_bindM; [apply H; now left|].
  intros _ w'. apply IH. intros b w'' Hb. apply H. now right.
Qed.

Lemma follows_lift (A : Type) (r : result A) (w : world) :
  follows allowed keeps w (snd (lift r w)).
Proof. apply follows_refl. Qed.

Lemma follows_tryCatch (c : M unit) (w : world) :
  follows allowed keeps w (snd (c w)) -> follows allowed keeps w (snd (tryCatch c w)).
Proof. unfold tryCatch. now destruct (c w) as [[u|e] w']. Qed.

Lemma follows_call (remote : service) (q : request) (w : world) :
  allowed q = true -> follows allowed keeps w (snd (call remote q w)).
Proof.
  intros H. unfold call. cbn [snd]. split; [|apply keeps_refl].
  exists [q]. cbn [sent forallb]. now rewrite H.
Qed.

End Effects.

Lemma follows_weaken (allowed allowed' : request -> bool)
    (keeps keeps' : registry -> registry -> Prop) (w w' : world) :
  (forall q, allowed q = true -> allowed' q = true) ->
  (forall r r', keeps r r' -> keeps' r r') ->
  follows allowed keeps w w' -> follows allowed' keeps' w w'.
Proof.
  intros Ha Hk [[qs [E H]] K]. split; [|now apply Hk].
  exists qs. split; [exact E|]. rewrite forallb_forall in *. intros q Hq. apply Ha. now apply H.
Qed.

(** A loop whose body is a [try] with a [catch] does not throw. *)
Lemma forOf_tryCatch (A : Type) (f : A -> M unit) (l : list A) (w : world) :
  fst (forOf (fun a => tryCatch (f a)) l w) = Ok tt.
Proof.
  revert w. induction l as [|a l IH]; intros w; [reflexivity|].
  cbn [forOf]. unfold bindM at 1, tryCatch at 1.
  destruct (f a w) as [[u|e] w']; apply IH.
Qed.

(** ** Building the structure *)

(** X17.  For a markdown file that can be read,
    [createFileDocument] sends one [documents.create] call with the parsed
    title and body; when it is answered, the document's ID and the URL
    [/doc/] + ID are registered under the path of the file below the root
    of the export; when it fails, the error is thrown and no map changes. *)
Theorem createFileDocument_registers
    (cwd : jsstring) (remote : service) (fs : filesystem)
    (dirPath collectionId : jsstring) (parentDocumentId : option jsstring)
    (entry : dirent) (rawContent : jsstring) (w : world) :
  isFile entry = true -> endsWith (name entry) (js ".md") = true ->
  readFile fs (pathJoin [dirPath; name entry]) = Ok rawContent ->
  let parsed := parseDocumentContent rawContent (name entry) in
  let q := DocumentsCreate (title parsed) (content parsed) collectionId
             (if truthy parentDocumentId then parentDocumentId else None) in
  let key := relative cwd SLITE_BACKUP_PATH (pathJoin [dirPath; name entry]) in
  let r := createFileDocument cwd remote fs dirPath collectionId parentDocumentId entry w in
  sent (snd r) = sent w ++ [q]
  /\ match remote (sent w) q with
     | Ok doc =>
         fst r = Ok tt
         /\ map_get key (documentIdMap (maps (snd r))) = Some (dataId doc)
         /\ map_get key (documentUrlMap (maps (snd r))) = Some (js "/doc/" ++ dataId doc)
     | Throw e => fst r = Throw e /\ maps (snd r) = maps w
     end.
Proof.
  intros Hf Hm Hr parsed q key r. subst r.
  unfold createFileDocument. rewrite Hf, Hm. cbn [andb].
  unfold bindM, lift. rewrite Hr. unfold createDocument, call. fold parsed. fold q.
  destruct (remote (sent w) q) as [doc|e]; [|now split].
  unfold setDocumentId, setDocumentUrl. cbn [fst snd maps sent documentIdMap documentUrlMap].
  fold key. split; [reflexivity|]. split; [reflexivity|].
  split; apply map_get_set_same.
Qed.

(** X17 for the document of the example export. *)
Lemma createFileDocument_registers_witness :
  sent (snd (createFileDocument (js "/home/user/project") deadService exportFs teamDir
               (js "collection-1") None (Dirent (js "a.md") KFile) emptyWorld))
  = [DocumentsCreate (js "Doc") (js "![img](x.png)") (js "collection-1") None].
Proof.
  refine (proj1 (@createFileDocument_registers (js "/home/user/project") deadService exportFs
                   teamDir (js "collection-1") None (Dirent (js "a.md") KFile)
                   (withPreamble (js "# Doc" ++ [LF] ++ js "![img](x.png)")) emptyWorld
                   _ _ _)); reflexivity.
Defined.

(** X18.  For a directory that holds no markdown file and no
    subdirectory (an empty one, say), [createDocumentStructure] returns
    without a call and without a change. *)
Theorem createDocumentStructure_nothing_to_do
    (cwd : jsstring) (remote : service) (fs : filesystem) (fuel : nat)
    (dirPath collectionId : jsstring) (parentDocumentId : option jsstring)
    (entries : list dirent) (w : world) :
  readdir fs dirPath = Ok entries ->
  (forall entry, In entry entries ->
     isDirectory entry = false
     /\ (isFile entry = false \/ endsWith (name entry) (js ".md") = false)) ->
  createDocumentStructure cwd remote fs (S fuel) dirPath collectionId parentDocumentId w
  = (Ok tt, w).
Proof.
  intros Hr H. cbn [createDocumentStructure]. unfold bindM, lift. rewrite Hr. clear Hr.
  assert (H1 : forall l w1,
             (forall entry, In entry l ->
                isFile entry = false \/ endsWith (name entry) (js ".md") = false) ->
             forOf (createFileDocument cwd remote fs dirPath collectionId parentDocumentId)
               l w1 = (Ok tt, w1)).
  { induction l as [|entry l IH]; intros w1 Hl; [reflexivity|].
    cbn [forOf]. unfold bindM. unfold createFileDocument at 1.
    destruct (Hl entry (or_introl eq_refl)) as [Hf|Hm].
    - rewrite Hf. cbn [andb]. apply IH. intros e He. apply Hl. now right.
    - rewrite Hm, andb_false_r. apply IH. intros e He. apply Hl. now right. }
  rewrite H1 by (intros entry He; now apply H).
  clear H1. induction entries as [|entry entries IH]; [reflexivity|].
  cbn [forOf]. unfold bindM. unfold createDirectoryDocument at 1.
  destruct (H entry (or_introl eq_refl)) as [Hd _]. rewrite Hd.
  apply IH. intros e He. apply H. now right.
Qed.

(** X18 for a directory of assets. *)
Lemma createDocumentStructure_nothing_to_do_witness :
  createDocumentStructure (js "/home/user/project") deadService assetsFs 1
    (js "export/assets") (js "collection-1") None emptyWorld
  = (Ok tt, emptyWorld).
Proof.
  refine (@createDocumentStructure_nothing_to_do _ _ assetsFs 0 (js "export/assets") _ _
            [Dirent (js "logo.svg") KFile; Dirent (js "notes.txt") KFile;
             Dirent (js "latest") KOther] _ _ _).
  - reflexivity.
  - intros entry [<-|[<-|[<-|[]]]]; split; try reflexivity; (now right) || (now left).
Defined.

Lemma structureKeeps_refl (r : registry) : structureKeeps r r.
Proof. now split. Qed.

Lemma structureKeeps_trans (r1 r2 r3 : registry) :
  structureKeeps r1 r2 -> structureKeeps r2 r3 -> structureKeeps r1 r3.
Proof. intros [A1 C1] [A2 C2]. split; [congruence | auto]. Qed.

Lemma map_urlOf_set (k v : jsstring) (m : jsmap jsstring) :
  map urlOf (map_set k v m) = map_set k (js "/doc/" ++ v) (map urlOf m).
Proof.
  induction m as [|[k' v'] m IH]; [reflexivity|].
  cbn [map_set map urlOf fst snd]. destruct (str_eqb k k'); [reflexivity|].
  cbn [map urlOf fst snd]. now rewrite IH.
Qed.

Lemma register_follows (k id : jsstring) (w : world) :
  follows isDocumentsCreate structureKeeps w
    (snd ((setDocumentId k id ;;; setDocumentUrl k (js "/doc/" ++ id)) w)).
Proof.
  unfold bindM, setDocumentId, setDocumentUrl. cbn [snd maps sent].
  split; [exists []; now rewrite app_nil_r|].
  split; cbn [maps attachmentUrlMap documentUrlMap documentIdMap]; [reflexivity|].
  unfold consistent. cbn [maps documentUrlMap documentIdMap]. intros ->. now rewrite map_urlOf_set.
Qed.

Lemma createDocument_follows (remote : service) (t x c : jsstring) (p : option jsstring)
    (w : world) :
  follows isDocumentsCreate structureKeeps w (snd (createDocument remote t x c p w)).
Proof. apply follows_call; [apply structureKeeps_refl | reflexivity]. Qed.

Lemma createFileDocument_follows (cwd : jsstring) (remote : service) (fs : filesystem)
    (dirPath collectionId : jsstring) (parentDocumentId : option jsstring)
    (entry : dirent) (w : world) :
  follows isDocumentsCreate structureKeeps w
    (snd (createFileDocument cwd remote fs dirPath collectionId parentDocumentId entry w)).
Proof.
  unfold createFileDocument.
  destruct (isFile entry && endsWith (name entry) (js ".md"));
    [|apply follows_refl; apply structureKeeps_refl].
  apply follows_bindM; [apply structureKeeps_trans | apply follows_lift; apply structureKeeps_refl|].
  intros rawContent w1.
  apply follows_bindM; [apply structureKeeps_trans | apply createDocument_follows|].
  intros doc w2. apply register_follows.
Qed.

Lemma createDirectoryDocument_follows (cwd : jsstring) (remote : service) (fs : filesystem)
    (recurse : jsstring -> jsstring -> option jsstring -> M unit)
    (dirPath collectionId : jsstring) (parentDocumentId : option jsstring)
    (entry : dirent) (w : world) :
  (forall a b c w', follows isDocumentsCreate structureKeeps w' (snd (recurse a b c w'))) ->
  follows isDocumentsCreate structureKeeps w
    (snd (createDirectoryDocument cwd remote fs recurse dirPath collectionId parentDocumentId
            entry w)).
Proof.
  intros Hrec. unfold createDirectoryDocument.
  destruct (isDirectory entry); [|apply follows_refl; apply structureKeeps_refl].
  apply follows_bindM; [apply structureKeeps_trans | apply follows_lift; apply structureKeeps_refl|].
  intros [|] w1; [apply follows_refl; apply structureKeeps_refl|].
  apply follows_bindM; [apply structureKeeps_trans | apply createDocument_follows|].
  intros dirDoc w2.
  assert (H := register_follows (relative cwd SLITE_BACKUP_PATH (pathJoin [dirPath; name entry]))
                 (dataId dirDoc) w2).
  unfold bindM in *.
  destruct (setDocumentId _ _ w2) as [[u|e] w3]; [|exact H].
  destruct (setDocumentUrl _ _ w3) as [[u'|e] w4]; [|exact H].
  eapply follows_trans; [apply structureKeeps_trans | exact H | apply Hrec].
Qed.

Lemma createDocumentStructure_follows (cwd : jsstring) (remote : service) (fs : filesystem) :
  forall fuel dirPath collectionId parentDocumentId w,
    follows isDocumentsCreate structureKeeps w
      (snd (createDocumentStructure cwd remote fs fuel dirPath collectionId parentDocumentId w)).
Proof.
  induction fuel as [|fuel IH]; intros dirPath collectionId parentDocumentId w.
  - apply follows_refl. apply structureKeeps_refl.
  - cbn [createDocumentStructure].
    apply follows_bindM; [apply structureKeeps_trans | apply follows_lift; apply structureKeeps_refl|].
    intros entries w1.
    apply follows_bindM; [apply structureKeeps_trans | |].
    + apply follows_forOf; [apply structureKeeps_refl | apply structureKeeps_trans|].
      intros a w2 _. apply createFileDocument_follows.
    + intros _ w2. apply follows_forOf; [apply structureKeeps_refl | apply structureKeeps_trans|].
      intros a w3 _. apply createDirectoryDocument_follows. intros a' b c w'. apply IH.
Qed.

Lemma map_get_urlOf (k : jsstring) (m : jsmap jsstring) :
  map_get k (map urlOf m) = option_map (app (js "/doc/")) (map_get k m).
Proof.
  induction m as [|[k' v] m IH]; [reflexivity|].
  cbn [map urlOf fst snd map_get]. destruct (str_eqb k k'); [reflexivity | exact IH].
Qed.

(** X19.  Whatever its outcome, [createDocumentStructure] leaves
    [attachmentUrlMap] as it is and sends [documents.create] calls only. *)
Theorem createDocumentStructure_requests
    (cwd : jsstring) (remote : service) (fs : filesystem) (fuel : nat)
    (dirPath collectionId : jsstring) (parentDocumentId : option jsstring) (w : world) :
  let w' :=
    snd (createDocumentStructure cwd remote fs fuel dirPath collectionId parentDocumentId w) in
  attachmentUrlMap (maps w') = attachmentUrlMap (maps w)
  /\ exists qs, sent w' = sent w ++ qs /\ forallb isDocumentsCreate qs = true.
Proof.
  destruct (createDocumentStructure_follows cwd remote fs fuel dirPath collectionId
              parentDocumentId w) as [Hq [Ha _]].
  split; assumption.
Qed.

(** X20.  [createDocumentStructure] keeps the two document maps in
    step, whatever its outcome: if [documentUrlMap] holds [/doc/] + ID for
    every entry of [documentIdMap], key by key and in the same order, so it
    does afterwards. *)
Theorem createDocumentStructure_urls
    (cwd : jsstring) (remote : service) (fs : filesystem) (fuel : nat)
    (dirPath collectionId : jsstring) (parentDocumentId : option jsstring) (w : world) :
  documentUrlMap (maps w) = map urlOf (documentIdMap (maps w)) ->
  let w' :=
    snd (createDocumentStructure cwd remote fs fuel dirPath collectionId parentDocumentId w) in
  documentUrlMap (maps w') = map urlOf (documentIdMap (maps w'))
  /\ forall k,
       map_get k (documentUrlMap (maps w'))
       = option_map (app (js "/doc/")) (map_get k (documentIdMap (maps w'))).
Proof.
  intros H w'.
  destruct (createDocumentStructure_follows cwd remote fs fuel dirPath collectionId
              parentDocumentId w) as [_ [_ Hc]].
  specialize (Hc H). fold w' in Hc. split; [exact Hc|].
  intros k. unfold consistent in Hc. rewrite Hc. apply map_get_urlOf.
Qed.

(** X20 for the example export and a service that answers. *)
Lemma createDocumentStructure_urls_witness :
  map_get (js "team/b/c.md")
    (documentUrlMap
       (maps (snd (createDocumentStructure (js "/home/user/project") constantService exportFs 3
                     teamDir (js "collection-1") None emptyWorld))))
  = option_map (app (js "/doc/"))
      (map_get (js "team/b/c.md")
         (documentIdMap
            (maps (snd (createDocumentStructure (js "/home/user/project") constantService
                          exportFs 3 teamDir (js "collection-1") None emptyWorld))))).
Proof.
  refine (proj2 (@createDocumentStructure_urls (js "/home/user/project") constantService
                   exportFs 3 teamDir (js "collection-1") None emptyWorld _) _).
  reflexivity.
Defined.

(** ** Uploading *)

(** X21.  A pass of phase 2 sends a call only for a reference whose
    source document is registered with a non-empty ID, that decodes, and
    whose file exists and can be read. *)
Theorem uploadReference_calls
    (cwd domain : jsstring) (remote : service) (fs : filesystem)
    (link sourcePath : jsstring) (w : world) :
  sent (snd (tryCatch (uploadReference cwd domain remote fs (link, sourcePath)) w)) <> sent w ->
  exists documentId fullPath size,
    map_get (relative cwd SLITE_BACKUP_PATH sourcePath) (documentIdMap (maps w))
    = Some documentId
    /\ documentId <> []
    /\ resolveAttachmentPath cwd link sourcePath = Ok fullPath
    /\ fileExists fs fullPath = true
    /\ fileBytes fs fullPath = Ok size.
Proof.
  unfold tryCatch, uploadReference, getDocumentId, bindM, lift, ret.
  destruct (map_get (relative cwd SLITE_BACKUP_PATH sourcePath) (documentIdMap (maps w)))
    as [[|c id]|] eqn:Eid; cbn [truthy negb]; try (intros H; now contradiction H).
  destruct (resolveAttachmentPath cwd link sourcePath) as [fullPath|e];
    [|intros H; now contradiction H].
  destruct (fileExists fs fullPath) eqn:Ef; cbn [negb]; [|intros H; now contradiction H].
  unfold uploadAttachment, bindM, lift.
  destruct (fileBytes fs fullPath) as [size|e] eqn:Eb; [|intros H; now contradiction H].
  intros _. exists (c :: id), fullPath, size. repeat split; try assumption. discriminate.
Qed.

(** X21 for the picture of the example export. *)
Lemma uploadReference_calls_witness :
  exists documentId fullPath size,
    map_get (relative (js "/home/user/project") SLITE_BACKUP_PATH
               (js "slite-backup/channels/team/a.md"))
      [(js "team/a.md", js "A1")] = Some documentId
    /\ documentId <> []
    /\ resolveAttachmentPath (js "/home/user/project") (js "media_a/x.png")
         (js "slite-backup/channels/team/a.md") = Ok fullPath
    /\ fileExists exportFs fullPath = true
    /\ fileBytes exportFs fullPath = Ok size.
Proof.
  refine (@uploadReference_calls (js "/home/user/project") (js "https://outline.example")
            deadService exportFs (js "media_a/x.png") (js "slite-backup/channels/team/a.md")
            (World (Registry [] [] [(js "team/a.md", js "A1")]) []) _).
  vm_compute. discriminate.
Defined.

(** X29.  A pass of phase 2 sends no call, or one
    [attachments.create] call alone and then leaves the maps as they are,
    or one [attachments.create] call followed by one upload: nothing is
    tried twice. *)
Theorem uploadReference_sends
    (cwd domain : jsstring) (remote : service) (fs : filesystem)
    (link sourcePath : jsstring) (w : world) :
  let w' := snd (tryCatch (uploadReference cwd domain remote fs (link, sourcePath)) w) in
  sent w' = sent w
  \/ (exists q, sent w' = sent w ++ [q]
        /\ match q with AttachmentsCreate _ _ _ _ => True | _ => False end
        /\ maps w' = maps w)
  \/ (exists q1 q2, sent w' = sent w ++ [q1; q2]
        /\ match q1 with AttachmentsCreate _ _ _ _ => True | _ => False end
        /\ match q2 with UploadFile _ _ => True | _ => False end).
Proof.
  unfold tryCatch, uploadReference, getDocumentId, bindM, lift, ret.
  destruct (negb (truthy (map_get (relative cwd SLITE_BACKUP_PATH sourcePath)
                            (documentIdMap (maps w))))); [now left|].
  destruct (resolveAttachmentPath cwd link sourcePath) as [fullPath|e]; [|now left].
  destruct (negb (fileExists fs fullPath)); [now left|].
  unfold uploadAttachment, bindM, lift, call, ret, throw.
  destruct (fileBytes fs fullPath) as [size|e]; [|now left].
  cbn [sent maps].
  destruct (remote (sent w) _) as [responseData|e];
    [|right; left; eexists; cbn [snd sent maps]; repeat split; exact I].
  destruct (truthy (dataUploadUrl responseData));
    [|right; left; eexists; cbn [snd sent maps]; repeat split; exact I].
  cbn [sent maps]. right. right.
  destruct (remote _ _) as [uploaded|e]; cbn [snd sent maps setAttachmentUrl];
    do 2 eexists; rewrite <- app_assoc; repeat split; exact I.
Qed.

Lemma uploadKeeps_refl (links : list jsstring) (r : registry) : uploadKeeps links r r.
Proof. now repeat split. Qed.

Lemma uploadKeeps_trans (links : list jsstring) (r1 r2 r3 : registry) :
  uploadKeeps links r1 r2 -> uploadKeeps links r2 r3 -> uploadKeeps links r1 r3.
Proof.
  intros [A1 [B1 C1]] [A2 [B2 C2]]. repeat split; try congruence.
  intros k Hk. now rewrite C2, C1.
Qed.

Lemma uploadAttachment_follows (links : list jsstring) (domain : jsstring) (remote : service)
    (fs : filesystem) (filePath documentId : jsstring) (w : world) :
  follows isUpload (uploadKeeps links) w
    (snd (uploadAttachment domain remote fs filePath documentId w)).
Proof.
  unfold uploadAttachment.
  apply follows_bindM; [apply uploadKeeps_trans | apply follows_lift; apply uploadKeeps_refl|].
  intros size w1.
  apply follows_bindM; [apply uploadKeeps_trans | apply follows_call;
                                               [apply uploadKeeps_refl | reflexivity]|].
  intros responseData w2.
  destruct (truthy (dataUploadUrl responseData));
    [|apply follows_refl; apply uploadKeeps_refl].
  apply follows_bindM; [apply uploadKeeps_trans | apply follows_call;
                                               [apply uploadKeeps_refl | reflexivity]|].
  intros _ w3. apply follows_refl. apply uploadKeeps_refl.
Qed.

Lemma uploadReference_follows (links : list jsstring) (cwd domain : jsstring)
    (remote : service) (fs : filesystem) (link sourcePath : jsstring) (w : world) :
  In link links ->
  follows isUpload (uploadKeeps links) w
    (snd (uploadReference cwd domain remote fs (link, sourcePath) w)).
Proof.
  intros Hin. unfold uploadReference.
  apply follows_bindM; [apply uploadKeeps_trans | apply follows_refl; apply uploadKeeps_refl|].
  intros documentId w1.
  destruct (negb (truthy documentId)); [apply follows_refl; apply uploadKeeps_refl|].
  apply follows_bindM; [apply uploadKeeps_trans | apply follows_lift; apply uploadKeeps_refl|].
  intros fullPath w2.
  destruct (negb (fileExists fs fullPath)); [apply follows_refl; apply uploadKeeps_refl|].
  apply follows_bindM; [apply uploadKeeps_trans | apply uploadAttachment_follows|].
  intros url w3. unfold setAttachmentUrl. cbn [snd].
  split; [exists []; now rewrite app_nil_r|].
  repeat split. cbn [maps attachmentUrlMap]. intros k Hk.
  apply map_get_set_other. intros ->. contradiction.
Qed.

Lemma uploadReferences_ok (cwd domain : jsstring) (remote : service) (fs : filesystem)
    (attachmentLinks : jsmap jsstring) (w : world) :
  fst (uploadReferences cwd domain remote fs attachmentLinks w) = Ok tt.
Proof. apply forOf_tryCatch. Qed.

Lemma uploadReferences_follows (cwd domain : jsstring) (remote : service) (fs : filesystem)
    (attachmentLinks : jsmap jsstring) (w : world) :
  follows isUpload (uploadKeeps (map fst attachmentLinks)) w
    (snd (uploadReferences cwd domain remote fs attachmentLinks w)).
Proof.
  unfold uploadReferences.
  apply follows_forOf; [apply uploadKeeps_refl | apply uploadKeeps_trans|].
  intros [link sourcePath] w1 Hin. apply follows_tryCatch.
  apply uploadReference_follows. now apply (in_map fst) in Hin.
Qed.

(** X22.  The loop of phase 2 never throws; it leaves [documentIdMap]
    and [documentUrlMap] as they are, changes [attachmentUrlMap] at scanned
    links only, and sends [attachments.create] and upload calls only. *)
Theorem uploadReferences_effect
    (cwd domain : jsstring) (remote : service) (fs : filesystem)
    (attachmentLinks : jsmap jsstring) (w : world) :
  let r := uploadReferences cwd domain remote fs attachmentLinks w in
  fst r = Ok tt
  /\ documentIdMap (maps (snd r)) = documentIdMap (maps w)
  /\ documentUrlMap (maps (snd r)) = documentUrlMap (maps w)
  /\ (forall k, ~ In k (map fst attachmentLinks) ->
        map_get k (attachmentUrlMap (maps (snd r))) = map_get k (attachmentUrlMap (maps w)))
  /\ exists qs, sent (snd r) = sent w ++ qs /\ forallb isUpload qs = true.
Proof.
  intros r. subst r. split; [apply uploadReferences_ok|].
  destruct (uploadReferences_follows cwd domain remote fs attachmentLinks w)
    as [Hq [Hi [Hu Ha]]].
  repeat split; assumption.
Qed.

(** X22 at a key that was not scanned. *)
Lemma uploadReferences_effect_witness :
  map_get (js "other.png")
    (attachmentUrlMap
       (maps (snd (uploadReferences (js "/home/user/project") (js "https://outline.example")
                     constantService exportFs
                     [(js "media_a/x.png", js "slite-backup/channels/team/a.md")]
                     (World (Registry [] [] [(js "team/a.md", js "A1")]) [])))))
  = map_get (js "other.png") [].
Proof.
  refine (proj1 (proj2 (proj2 (proj2 (@uploadReferences_effect (js "/home/user/project")
            (js "https://outline.example") constantService exportFs
            [(js "media_a/x.png", js "slite-backup/channels/team/a.md")]
            (World (Registry [] [] [(js "team/a.md", js "A1")]) []))))) (js "other.png") _).
  intros [H|[]]. discriminate H.
Defined.

(** ** Updating *)

Lemma updateDocument_follows (ids : list jsstring) (remote : service) (fs : filesystem)
    (docPath docId : jsstring) (w : world) :
  In docId ids ->
  follows (updatesOf ids) (@eq registry) w (snd (updateDocument remote fs (docPath, docId) w)).
Proof.
  intros Hin. unfold updateDocument.
  assert (Ht : forall r1 r2 r3 : registry, r1 = r2 -> r2 = r3 -> r1 = r3) by congruence.
  apply follows_bindM; [exact Ht | apply follows_lift; reflexivity|].
  intros stats w1. destruct stats; try (apply follows_refl; reflexivity).
  destruct (endsWith docPath (js ".md")); [|apply follows_refl; reflexivity].
  apply follows_bindM; [exact Ht | apply follows_lift; reflexivity|].
  intros content w2.
  apply follows_bindM; [exact Ht | apply follows_lift; reflexivity|].
  intros updated w3.
  apply follows_bindM; [exact Ht | | intros; apply follows_refl; reflexivity].
  apply follows_call; [reflexivity|]. cbn [updatesOf].
  apply existsb_exists. exists docId. split; [exact Hin | apply str_eqb_refl].
Qed.

Lemma updateDocuments_follows (remote : service) (fs : filesystem)
    (entries : jsmap jsstring) (w : world) :
  follows (updatesOf (map snd entries)) (@eq registry) w
    (snd (forOf (fun entry => tryCatch (updateDocument remote fs entry)) entries w)).
Proof.
  apply follows_forOf; [reflexivity | congruence|].
  intros [docPath docId] w1 Hin. apply follows_tryCatch.
  apply updateDocument_follows. now apply (in_map snd) in Hin.
Qed.

(** X23.  The loop of phase 3 never throws, changes no map, and sends
    [documents.update] calls only, each for the ID of an entry it goes
    through. *)
Theorem updateDocuments_effect
    (remote : service) (fs : filesystem) (entries : jsmap jsstring) (w : world) :
  let r := forOf (fun entry => tryCatch (updateDocument remote fs entry)) entries w in
  fst r = Ok tt
  /\ maps (snd r) = maps w
  /\ exists qs, sent (snd r) = sent w ++ qs
       /\ forallb (updatesOf (map snd entries)) qs = true.
Proof.
  intros r. subst r. split; [apply forOf_tryCatch|].
  destruct (updateDocuments_follows remote fs entries w) as [Hq Hm].
  split; [now symmetry | exact Hq].
Qed.

(** ** The whole run *)

Lemma createChannel_follows (cwd : jsstring) (remote : service) (fs : filesystem)
    (fuel : nat) (channel : dirent) (w : world) :
  follows isCreate structureKeeps w (snd (createChannel cwd remote fs fuel channel w)).
Proof.
  unfold createChannel.
  destruct (isDirectory channel); [|apply follows_refl; apply structureKeeps_refl].
  apply follows_bindM; [apply structureKeeps_trans | |].
  - apply follows_call; [apply structureKeeps_refl | reflexivity].
  - intros collection w1.
    eapply follows_weaken; [| |apply createDocumentStructure_follows]; [|auto].
    intros [] H; try discriminate; reflexivity.
Qed.

Lemma channels_follows (cwd : jsstring) (remote : service) (fs : filesystem)
    (fuel : nat) (channels : list dirent) (w : world) :
  follows isCreate structureKeeps w
    (snd (forOf (createChannel cwd remote fs fuel) channels w)).
Proof.
  apply follows_forOf; [apply structureKeeps_refl | apply structureKeeps_trans|].
  intros a w1 _. apply createChannel_follows.
Qed.

(** X24.  [migrate] throws only what the listing of the export, the
    building of the structure or the scan throws: no failure of an upload or
    of an update ends the run. *)
Theorem migrate_outcome
    (cwd domain : jsstring) (remote : service) (fs : filesystem) (fuel : nat) (w : world) :
  fst (migrate cwd domain remote fs fuel w) =
  match readdir fs SLITE_BACKUP_PATH with
  | Throw e => Throw e
  | Ok channels =>
      match fst (forOf (createChannel cwd remote fs fuel) channels w) with
      | Throw e => Throw e
      | Ok _ =>
          match scanDirectory fs fuel SLITE_BACKUP_PATH with
          | Throw e => Throw e
          | Ok _ => Ok tt
          end
      end
  end.
Proof.
  unfold migrate, bindM, lift.
  destruct (readdir fs SLITE_BACKUP_PATH) as [channels|e]; [|reflexivity].
  destruct (forOf (createChannel cwd remote fs fuel) channels w) as [[u|e] w1];
    [|reflexivity].
  cbn [fst]. destruct (scanDirectory fs fuel SLITE_BACKUP_PATH) as [found|e]; [|reflexivity].
  pose proof (uploadReferences_ok cwd domain remote fs (attachmentLinks found) w1) as H2.
  destruct (uploadReferences cwd domain remote fs (attachmentLinks found) w1) as [r2 w2].
  cbn [fst] in H2. subst r2. apply forOf_tryCatch.
Qed.

Lemma migrate_follows
    (cwd domain : jsstring) (remote : service) (fs : filesystem) (fuel : nat) (w : world) :
  exists q1 q2 q3,
    sent (snd (migrate cwd domain remote fs fuel w)) = sent w ++ q1 ++ q2 ++ q3
    /\ forallb isCreate q1 = true /\ forallb isUpload q2 = true
    /\ forallb isDocumentsUpdate q3 = true
    /\ (consistent (maps w) -> consistent (maps (snd (migrate cwd domain remote fs fuel w)))).
Proof.
  unfold migrate, bindM, lift.
  destruct (readdir fs SLITE_BACKUP_PATH) as [channels|e].
  2:{ exists [], [], []. cbn [snd app]. rewrite app_nil_r. now repeat split. }
  destruct (channels_follows cwd remote fs fuel channels w) as [[q1 [E1 H1]] [_ K1]].
  destruct (forOf (createChannel cwd remote fs fuel) channels w) as [[u|e] w1]; cbn [snd] in *.
  2:{ exists q1, [], []. rewrite !app_nil_r. now repeat split. }
  destruct (scanDirectory fs fuel SLITE_BACKUP_PATH) as [found|e].
  2:{ exists q1, [], []. cbn [snd]. rewrite !app_nil_r. now repeat split. }
  destruct (uploadReferences_follows cwd domain remote fs (attachmentLinks found) w1)
    as [[q2 [E2 H2]] [Hi [Hu _]]].
  destruct (uploadReferences cwd domain remote fs (attachmentLinks found) w1) as [[u2|e] w2];
    cbn [snd] in *.
  2:{ exists q1, q2, []. rewrite app_nil_r, E2, E1, <- app_assoc. repeat split; try assumption.
      unfold consistent in *. intros Hc. rewrite Hu, Hi. auto. }
  destruct (updateDocuments_follows remote fs (documentIdMap (maps w2)) w2)
    as [[q3 [E3 H3]] Hm].
  exists q1, q2, q3. rewrite E3, E2, E1, <- !app_assoc. repeat split; try assumption.
  - rewrite forallb_forall in *. intros q Hq. specialize (H3 q Hq).
    destruct q; try discriminate. reflexivity.
  - rewrite <- Hm. unfold consistent in *. intros Hc. rewrite Hu, Hi. auto.
Qed.

(** X25.  The calls of a run come in three blocks: first the
    [collections.create] and [documents.create] calls, then the
    [attachments.create] and upload calls, then the [documents.update]
    calls. *)
Theorem migrate_requests
    (cwd domain : jsstring) (remote : service) (fs : filesystem) (fuel : nat) (w : world) :
  exists q1 q2 q3,
    sent (snd (migrate cwd domain remote fs fuel w)) = sent w ++ q1 ++ q2 ++ q3
    /\ forallb isCreate q1 = true /\ forallb isUpload q2 = true
    /\ forallb isDocumentsUpdate q3 = true.
Proof.
  destruct (migrate_follows cwd domain remote fs fuel w) as [q1 [q2 [q3 [E [H1 [H2 [H3 _]]]]]]].
  now exists q1, q2, q3.
Qed.

(** ** [makeRequest] *)

(** X26.  [makeRequest] tries at most three times and returns the first
    answer it gets; after the first, second and third failure it waits 2,
    4 and 8 seconds, the last wait included, and after three failures it
    throws an error of its own, whatever the turns threw. *)
Theorem makeRequest_retries (fetch : nat -> result response) :
  makeRequest fetch =
  match fetch 0, fetch 1, fetch 2 with
  | Ok data, _, _ => (Ok data, [])
  | Throw _, Ok data, _ => (Ok data, [2000%N])
  | Throw _, Throw _, Ok data => (Ok data, [2000%N; 4000%N])
  | Throw _, Throw _, Throw _ => (Throw RequestError, [2000%N; 4000%N; 8000%N])
  end.
Proof.
  unfold makeRequest. cbn [makeRequestLoop maxRetries Nat.ltb Nat.leb].
  destruct (fetch 0); [reflexivity|].
  destruct (fetch 1); [reflexivity|].
  destruct (fetch 2); reflexivity.
Qed.
